(** * file-scanner: a model of the scan pipeline of [main.go]

    The development follows the program bottom-up:

    - Go strings are byte sequences ([list byte]); the [regexp] package reads
      them rune by rune through [utf8.DecodeRuneInString], which is modelled
      bit for bit in [Module Utf8];
    - [Module Regexp] holds the part of Go's [regexp] package the program
      uses: [QuoteMeta], the parser restricted to the syntax that
      [compilePatterns] can produce, leftmost-first matching,
      [FindAllStringSubmatchIndex] and [ReplaceAllString];
    - [findMatchPositions], [compilePatterns], [scanFile] and
      [walkRepository] are transcribed from [main.go];
    - [Module Run] is an interleaving model of the goroutines started by
      [main]: the walker goroutine, one goroutine per scheduled file, the
      buffered result channel and the collecting loop. *)

From Stdlib Require Import ZArith List Lia Bool Strings.Byte Strings.String.
From Stdlib Require Import Sorted DecimalString DecimalZ DecimalPos DecimalFacts.
From stdpp Require Import base decidable countable gmap list.
Import ListNotations.

(** ** Bytes and Go strings *)

#[global] Instance byte_eq_dec : EqDecision byte.
Proof.
  intros a b. destruct (N.eq_dec (Byte.to_N a) (Byte.to_N b)) as [H|H].
  - left. apply (f_equal Byte.of_N) in H. rewrite !Byte.of_to_N in H. congruence.
  - right. congruence.
Defined.

Definition byte_of_N_total (n : N) : byte :=
  match Byte.of_N n with Some b => b | None => x00 end.

#[global] Instance byte_countable : Countable byte.
Proof.
  refine (inj_countable' Byte.to_N byte_of_N_total _).
  intros b. unfold byte_of_N_total. now rewrite Byte.of_to_N.
Defined.

(** A Go [string]: an immutable sequence of bytes. *)
Abbreviation gostring := (list byte).

(** Go string literals, written as Rocq strings. *)
Definition str (s : string) : gostring := list_byte_of_string s.

(** The numeric value of a byte. *)
Definition b2z (b : byte) : Z := Z.of_N (Byte.to_N b).

(** [s[lo:hi]] and [s[lo:]] on Go ints. *)
Definition slice (s : gostring) (lo hi : Z) : gostring :=
  firstn (Z.to_nat (hi - lo)) (skipn (Z.to_nat lo) s).
Definition slice_from (s : gostring) (lo : Z) : gostring :=
  skipn (Z.to_nat lo) s.

Definition len (s : gostring) : Z := Z.of_nat (length s).

(** ** [unicode/utf8]: decoding one rune *)

Module Utf8.
Local Open Scope Z_scope.

Definition RuneError : Z := 0xFFFD.
Definition RuneSelf : Z := 0x80.

Definition maskx : Z := 0x3F.
Definition mask2 : Z := 0x1F.
Definition mask3 : Z := 0x0F.
Definition mask4 : Z := 0x07.
Definition locb : Z := 0x80.
Definition hicb : Z := 0xBF.

(** Entries of the [first] table: the low three bits are the size of the
    encoding, the high four bits index [acceptRanges]. *)
Definition xx : Z := 0xF1.
Definition as_ : Z := 0xF0.
Definition s1 : Z := 0x02.
Definition s2 : Z := 0x13.
Definition s3 : Z := 0x03.
Definition s4 : Z := 0x23.
Definition s5 : Z := 0x34.
Definition s6 : Z := 0x04.
Definition s7 : Z := 0x44.

(** The table [first[256]], by ranges of the first byte. *)
Definition first (b : Z) : Z :=
  if b <? 0x80 then as_
  else if b <? 0xC2 then xx
  else if b <? 0xE0 then s1
  else if b =? 0xE0 then s2
  else if b <? 0xED then s3
  else if b =? 0xED then s4
  else if b <? 0xF0 then s3
  else if b =? 0xF0 then s5
  else if b <? 0xF4 then s6
  else if b =? 0xF4 then s7
  else xx.

(** [acceptRanges[i]]: the range allowed for the second byte. *)
Definition acceptRanges (i : Z) : Z * Z :=
  if i =? 0 then (locb, hicb)
  else if i =? 1 then (0xA0, hicb)
  else if i =? 2 then (locb, 0x9F)
  else if i =? 3 then (0x90, hicb)
  else if i =? 4 then (locb, 0x8F)
  else (0, 0).

(** An [int32] after an operation that may overflow. *)
Definition int32 (z : Z) : Z := (z + 2^31) mod 2^32 - 2^31.

(** [utf8.DecodeRuneInString]: the rune at the head of [s] and its width
    in bytes; [(RuneError, 0)] on the empty string and [(RuneError, 1)] on
    an invalid encoding. *)
Definition DecodeRuneInString (s : gostring) : Z * nat :=
  match s with
  | [] => (RuneError, 0%nat)
  | c0 :: t0 =>
    let x := first (b2z c0) in
    if as_ <=? x then
      let mask := Z.shiftr (int32 (Z.shiftl x 31)) 31 in
      (Z.lor (Z.land (b2z c0) (Z.lnot mask)) (Z.land RuneError mask), 1%nat)
    else
      let sz := Z.land x 7 in
      let accept := acceptRanges (Z.shiftr x 4) in
      if len s <? sz then (RuneError, 1%nat) else
      match t0 with
      | [] => (RuneError, 1%nat)
      | c1 :: t1 =>
        if (b2z c1 <? fst accept) || (snd accept <? b2z c1) then (RuneError, 1%nat)
        else if sz <=? 2 then
          (Z.lor (Z.shiftl (Z.land (b2z c0) mask2) 6) (Z.land (b2z c1) maskx), 2%nat)
        else
        match t1 with
        | [] => (RuneError, 1%nat)
        | c2 :: t2 =>
          if (b2z c2 <? locb) || (hicb <? b2z c2) then (RuneError, 1%nat)
          else if sz <=? 3 then
            (Z.lor (Z.lor (Z.shiftl (Z.land (b2z c0) mask3) 12)
                          (Z.shiftl (Z.land (b2z c1) maskx) 6))
                   (Z.land (b2z c2) maskx), 3%nat)
          else
          match t2 with
          | [] => (RuneError, 1%nat)
          | c3 :: _ =>
            if (b2z c3 <? locb) || (hicb <? b2z c3) then (RuneError, 1%nat)
            else
              (Z.lor (Z.lor (Z.lor (Z.shiftl (Z.land (b2z c0) mask4) 18)
                                   (Z.shiftl (Z.land (b2z c1) maskx) 12))
                            (Z.shiftl (Z.land (b2z c2) maskx) 6))
                     (Z.land (b2z c3) maskx), 4%nat)
          end
        end
      end
  end.

(** The input of the matcher seen rune by rune: every position the
    matcher can stand on, from the start of [s], with the rune decoded
    there and its width.  [skip] counts the bytes of the current rune
    that are still to be passed over. *)
Fixpoint runes_from (skip : nat) (s : gostring) : list (Z * nat) :=
  match s with
  | [] => []
  | _ :: t =>
    match skip with
    | S k => runes_from k t
    | O => let rw := DecodeRuneInString s in
           rw :: runes_from (Nat.pred (snd rw)) t
    end
  end.

Definition runes (s : gostring) : list (Z * nat) := runes_from 0 s.

(** A decoding step failed: Go reports this as [(RuneError, 1)]. *)
Definition is_invalid (rw : Z * nat) : bool :=
  (fst rw =? RuneError) && Nat.eqb (snd rw) 1.

(** [utf8.ValidString]. *)
Definition ValidString (s : gostring) : bool :=
  forallb (fun rw => negb (is_invalid rw)) (runes s).
End Utf8.

(** ** The [regexp] package, as far as the scanner uses it *)

Module Regexp.
Import Utf8.

(** A one-rune matcher: a literal rune, or [.], which (without the [s]
    flag) is every rune but the newline. *)
Inductive atom : Type :=
| Lit (c : Z)
| AnyCharNotNL.

(** One element of a concatenation: an atom, or a greedy [*] of an atom. *)
Inductive item : Type :=
| One (a : atom)
| Star (a : atom).

(** A compiled [*regexp.Regexp]: the concatenation of its items.  No
    pattern the program builds has groups, alternatives or anchors. *)
Definition Regexp : Type := list item.

#[global] Instance atom_eq_dec : EqDecision atom.
Proof. solve_decision. Defined.
#[global] Instance item_eq_dec : EqDecision item.
Proof. solve_decision. Defined.

(** *** [QuoteMeta] *)

(** The bytes of [`\.+*?()|[]{}^$`]. *)
Definition specialBytes : gostring := str "\.+*?()|[]{}^$".

Definition special (b : byte) : bool :=
  bool_decide (b ∈ specialBytes).

Definition backslash : byte := "\"%byte.

Definition QuoteMeta (s : gostring) : gostring :=
  flat_map (fun b => if special b then [backslash; b] else [b]) s.

(** *** Parsing ([syntax.Parse] with the [Perl] flags) *)

Inductive ErrorCode : Type :=
| ErrInvalidUTF8
| ErrInvalidEscape
| ErrInvalidRepeatOp
| ErrMissingRepeatArgument
| ErrTrailingBackslash
| OutsideFragment.
  (** [OutsideFragment]: syntax of Go's regular expressions that this
      model does not cover (groups, classes, alternation, anchors, [+],
      [?], counted repetition, alphanumeric escapes). *)

Definition rune_of (s : string) : Z :=
  match str s with b :: _ => b2z b | [] => 0%Z end.

Definition isalnum (c : Z) : bool :=
  ((rune_of "0" <=? c) && (c <=? rune_of "9")
   || (rune_of "A" <=? c) && (c <=? rune_of "Z")
   || (rune_of "a" <=? c) && (c <=? rune_of "z"))%Z.

(** The operators the model does not parse. *)
Definition unsupported_operator (c : Z) : bool :=
  bool_decide (c ∈ map b2z (str "()|[{^$+?")).

(** The parser's loop over the runes of the expression; [stack] holds
    the items parsed so far, most recent first, and [lastRepeat] tells
    that the previous token was a repetition operator. *)
Fixpoint parse_loop (t : list (Z * nat)) (stack : list item) (lastRepeat : bool)
  : ErrorCode + Regexp :=
  match t with
  | [] => inr (rev stack)
  | (c, w) :: t' =>
    if is_invalid (c, w) then inl ErrInvalidUTF8
    else if unsupported_operator c then inl OutsideFragment
    else if (c =? rune_of "*")%Z then
      match t' with
      | (c', _) :: _ =>
        if (c' =? rune_of "?")%Z then inl OutsideFragment else
        if lastRepeat then inl ErrInvalidRepeatOp else
        match stack with
        | One a :: st => parse_loop t' (Star a :: st) true
        | _ => inl ErrMissingRepeatArgument
        end
      | [] =>
        if lastRepeat then inl ErrInvalidRepeatOp else
        match stack with
        | One a :: st => parse_loop t' (Star a :: st) true
        | _ => inl ErrMissingRepeatArgument
        end
      end
    else if (c =? rune_of ".")%Z then
      parse_loop t' (One AnyCharNotNL :: stack) false
    else if (c =? rune_of "\")%Z then
      match t' with
      | [] => inl ErrTrailingBackslash
      | (c', w') :: t'' =>
        if is_invalid (c', w') then inl ErrInvalidUTF8
        else if (c' <? RuneSelf)%Z && negb (isalnum c') then
          parse_loop t'' (One (Lit c') :: stack) false
        else if (c' <? RuneSelf)%Z then inl OutsideFragment
        else inl ErrInvalidEscape
      end
    else parse_loop t' (One (Lit c) :: stack) false
  end.

Definition Parse (expr : gostring) : ErrorCode + Regexp :=
  parse_loop (runes expr) [] false.

(** [regexp.MustCompile]: [None] stands for the panic. *)
Definition MustCompile (expr : gostring) : option Regexp :=
  match Parse expr with
  | inr re => Some re
  | inl _ => None
  end.

(** *** Matching *)

Definition newline : Z := 10.

Definition atom_matches (a : atom) (r : Z) : bool :=
  match a with
  | Lit c => (r =? c)%Z
  | AnyCharNotNL => negb (r =? newline)%Z
  end.

(** The match a backtracking search finds first when the expression is
    tried at the head of the input: the number of bytes it spans.  A [*]
    prefers one more repetition to stopping. *)
Fixpoint match_here (re : Regexp) (input : list (Z * nat)) {struct re} : option nat :=
  match re with
  | [] => Some 0
  | One a :: re' =>
    match input with
    | (r, w) :: input' =>
      if atom_matches a r then
        match match_here re' input' with
        | Some n => Some (w + n)
        | None => None
        end
      else None
    | [] => None
    end
  | Star a :: re' =>
    (fix star (input : list (Z * nat)) : option nat :=
       match input with
       | (r, w) :: input' =>
         if atom_matches a r then
           match star input' with
           | Some n => Some (w + n)
           | None => match_here re' input
           end
         else match_here re' input
       | [] => match_here re' []
       end) input
  end.

(** The leftmost position, from byte offset [off] on, where the
    expression matches, with the end of the match found there. *)
Fixpoint search (re : Regexp) (input : list (Z * nat)) (off : nat) : option (nat * nat) :=
  match match_here re input with
  | Some n => Some (off, off + n)
  | None =>
    match input with
    | [] => None
    | (_, w) :: input' => search re input' (off + w)
    end
  end.

(** [re.doExecute(nil, nil, s, pos, 2, nil)]: the first match at or after
    [pos], as [(matches[0], matches[1])]. *)
Definition doExecute (re : Regexp) (s : gostring) (pos : Z) : option (Z * Z) :=
  match search re (runes (slice_from s pos)) (Z.to_nat pos) with
  | Some (a, b) => Some (Z.of_nat a, Z.of_nat b)
  | None => None
  end.

(** *** [FindAllStringSubmatchIndex] *)

(** The loop of [allMatches]; [k] is [n - i], the iterations left. *)
Fixpoint allMatches_loop (re : Regexp) (s : gostring) (k : nat)
         (pos prevMatchEnd : Z) : list (list Z) :=
  match k with
  | O => []
  | S k' =>
    if (pos <=? len s)%Z then
      match doExecute re s pos with
      | None => []
      | Some (m0, m1) =>
        if (m1 =? pos)%Z then
          (* an empty match *)
          let accept := negb (m0 =? prevMatchEnd)%Z in
          let width := Z.of_nat (snd (DecodeRuneInString (slice s pos (len s)))) in
          let pos' := if (0 <? width)%Z then (pos + width)%Z else (len s + 1)%Z in
          (if accept then [[m0; m1]] else [])
            ++ allMatches_loop re s k' pos' m1
        else
          [m0; m1] :: allMatches_loop re s k' m1 m1
      end
    else []
  end.

Definition FindAllStringSubmatchIndex (re : Regexp) (s : gostring) (n : Z) : list (list Z) :=
  let n := if (n <? 0)%Z then (len s + 1)%Z else n in
  allMatches_loop re s (Z.to_nat n) 0 (-1).

(** *** [ReplaceAllString], for a replacement without [$] *)

(** The loop of [replaceAll]; it runs while [searchPos <= endPos], and
    [searchPos] grows in every round, so [fuel] rounds with
    [fuel > len src] always reach the end of the loop. *)
Fixpoint replaceAll_loop (re : Regexp) (src repl : gostring) (fuel : nat)
         (buf : gostring) (lastMatchEnd searchPos : Z) : gostring :=
  match fuel with
  | O => buf ++ slice_from src lastMatchEnd
  | S fuel' =>
    if (searchPos <=? len src)%Z then
      match doExecute re src searchPos with
      | None => buf ++ slice_from src lastMatchEnd
      | Some (a0, a1) =>
        let buf := buf ++ slice src lastMatchEnd a0 in
        let buf := if (lastMatchEnd <? a1)%Z || (a0 =? 0)%Z then buf ++ repl else buf in
        let width := Z.of_nat (snd (DecodeRuneInString (slice_from src searchPos))) in
        let searchPos' :=
          if (a1 <? searchPos + width)%Z then (searchPos + width)%Z
          else if (a1 <? searchPos + 1)%Z then (searchPos + 1)%Z
          else a1 in
        replaceAll_loop re src repl fuel' buf a1 searchPos'
      end
    else buf ++ slice_from src lastMatchEnd
  end.

Definition ReplaceAllString (re : Regexp) (src repl : gostring) : gostring :=
  replaceAll_loop re src repl (S (S (length src))) [] 0 0.
End Regexp.

(** ** The program: [main.go] *)

Import Regexp.

(** [Query]: a search pattern and the extensions it applies to. *)
Record Query : Type := {
  Pattern : gostring;
  Extensions : list gostring
}.

(** [MatchInfo]: one match of a pattern in a line. *)
Record MatchInfo : Type := {
  MPattern : gostring;
  StartIndex : Z;
  EndIndex : Z
}.

(** [SearchResult]: one match found by the scan. *)
Record SearchResult : Type := {
  FilePath : gostring;
  LineNumber : Z;
  LineText : gostring;
  Repository : gostring;
  Match : MatchInfo
}.

#[global] Instance MatchInfo_eq_dec : EqDecision MatchInfo.
Proof. solve_decision. Defined.
#[global] Instance SearchResult_eq_dec : EqDecision SearchResult.
Proof. solve_decision. Defined.

(** [findMatchPositions]: every match of [pattern] in [line], labelled with
    the original pattern. *)
Definition findMatchPositions (line : gostring) (pattern : Regexp)
           (originalPattern : gostring) : list MatchInfo :=
  let matches := FindAllStringSubmatchIndex pattern line (-1) in
  fold_left
    (fun results m =>
       if (2 <=? length m)%nat then
         results ++ [{| MPattern := originalPattern;
                        StartIndex := nth 0 m 0%Z;
                        EndIndex := nth 1 m 0%Z |}]
       else results)
    matches [].

(** The wildcard pattern of one query as a regular expression: the two
    rewriting steps of [compilePatterns].  [None] is the panic of a
    [MustCompile]. *)
Definition wildcardToRegex (pattern : gostring) : option gostring :=
  let pattern := QuoteMeta pattern in
  re1 ← MustCompile (str "\\\*");
  let pattern := ReplaceAllString re1 pattern (str ".*") in
  re2 ← MustCompile (str "\\\?");
  let pattern := ReplaceAllString re2 pattern (str ".") in
  Some pattern.

(** The regular expression compiled for one query: lines 99 to 103 of the
    loop of [compilePatterns]. *)
Definition compilePattern (pattern : gostring) : option Regexp :=
  pattern ← wildcardToRegex pattern;
  MustCompile pattern.

(** [compilePatterns]: the compiled patterns, the original patterns and the
    extension map, or [None] when a [MustCompile] panics. *)
Definition compilePatterns (queries : list Query)
  : option (list Regexp * list gostring * gmap gostring bool) :=
  foldl
    (fun acc q =>
       '(patterns, originalPatterns, extensions) ← acc;
       re ← compilePattern (Pattern q);
       let patterns := patterns ++ [re] in
       let originalPatterns := originalPatterns ++ [Pattern q] in
       let extensions :=
         foldl (fun exts ext => <[ext := true]> exts) extensions (Extensions q) in
       Some (patterns, originalPatterns, extensions))
    (Some ([], [], ∅)) queries.

(** *** [bufio.Scanner] with [ScanLines] *)

(** The largest token the scanner of [scanFile] buffers: [10*1024*1024]. *)
Definition maxTokenSize : Z := 10 * 1024 * 1024.

Definition newline_byte : byte := x0a.
Definition cr_byte : byte := x0d.

(** [dropCR]: a trailing carriage return is not part of the line. *)
Definition dropCR (data : gostring) : gostring :=
  if decide (last data = Some cr_byte) then removelast data else data.

(** The tokens [scanner.Scan()] delivers until it returns false.  [buf]
    holds the bytes read since the last token.  A token is delivered at a
    newline, or at the end of a file that does not end in one; the scanner
    gives up ([ErrTooLong]) when the buffer is full and holds no newline. *)
Fixpoint Scan (data buf : gostring) : list gostring :=
  if (maxTokenSize <=? len buf)%Z then []
  else
    match data with
    | [] => match buf with [] => [] | _ => [dropCR buf] end
    | b :: data' =>
      if decide (b = newline_byte) then dropCR buf :: Scan data' []
      else Scan data' (buf ++ [b])
    end.

(** *** [scanFile] *)

(** The loop over the patterns for one line: what it sends to the channel,
    or [None] when [originalPatterns[i]] is out of range. *)
Fixpoint scanLine (filePath repository : gostring) (lineNum : Z) (line : gostring)
         (patterns : list Regexp) (originalPatterns : list gostring) (i : nat)
  : option (list SearchResult) :=
  match patterns with
  | [] => Some []
  | pattern :: patterns' =>
    original ← originalPatterns !! i;
    let matches := findMatchPositions line pattern original in
    let sent :=
      map (fun m => {| FilePath := filePath; LineNumber := lineNum; LineText := line;
                       Repository := repository; Match := m |}) matches in
    rest ← scanLine filePath repository lineNum line patterns' originalPatterns (S i);
    Some (sent ++ rest)
  end.

(** The loop over the lines; [lineNum] is the counter before the line. *)
Fixpoint scanLines (filePath repository : gostring) (lineNum : Z) (lines : list gostring)
         (patterns : list Regexp) (originalPatterns : list gostring)
  : option (list SearchResult) :=
  match lines with
  | [] => Some []
  | line :: lines' =>
    let lineNum := (lineNum + 1)%Z in
    sent ← scanLine filePath repository lineNum line patterns originalPatterns 0;
    rest ← scanLines filePath repository lineNum lines' patterns originalPatterns;
    Some (sent ++ rest)
  end.

(** [scanFile]: the results sent to [resultChan], in order.  [opened] is
    what [os.Open(filePath)] gives: the content of the file, or [None] when
    it cannot be opened.  The result [None] is a panic. *)
Definition scanFile (opened : option gostring) (filePath : gostring)
           (patterns : list Regexp) (originalPatterns : list gostring)
           (repository : gostring) : option (list SearchResult) :=
  match opened with
  | None => Some []
  | Some content =>
    scanLines filePath repository 0 (Scan content []) patterns originalPatterns
  end.

(** *** [filepath.Ext], [filepath.Join] and [filepath.Walk] *)

Definition separator : byte := "/"%byte.
Definition dot : byte := "."%byte.

(** The loop of [filepath.Ext], from the last byte down: [rpath] is
    [path[..i]] reversed, [suffix] is [path[i+1..]]. *)
Fixpoint ext_loop (rpath suffix : gostring) : gostring :=
  match rpath with
  | [] => []
  | c :: rpath' =>
    if decide (c = separator) then []
    else if decide (c = dot) then c :: suffix
    else ext_loop rpath' (c :: suffix)
  end.

Definition Ext (path : gostring) : gostring := ext_loop (rev path) [].

(** [filepath.Join(dir, name)] for a clean [dir] and a directory entry. *)
Definition Join (dir name : gostring) : gostring := dir ++ separator :: name.

(** What [filepath.Walk] meets below a root. *)
#[local] Unset Elimination Schemes.
Inductive node : Type :=
| File                                   (* any entry that is not a directory *)
| Dir (entries : list (gostring * node)) (* a directory and its sorted entries *)
| DirUnreadable                          (* a directory that cannot be listed *)
| Broken.                                (* an entry whose [Lstat] fails *)
#[local] Set Elimination Schemes.

Definition IsDir (n : node) : bool :=
  match n with
  | Dir _ | DirUnreadable => true
  | File | Broken => false
  end.

(** [filepath.Walk]: the calls [walkFn(path, info, err)], in order; [info]
    is reduced to [info.IsDir()], [err] to [err != nil].  The function of
    [walkRepository] always returns nil, so the walk is never cut short. *)
Fixpoint Walk {A : Type} (walkFn : gostring -> bool -> bool -> list A)
         (path : gostring) (n : node) : list A :=
  match n with
  | File => walkFn path false false
  | Broken => walkFn path false true
  | DirUnreadable => walkFn path true true
  | Dir entries =>
    walkFn path true false ++
    (fix children (entries : list (gostring * node)) : list A :=
       match entries with
       | [] => []
       | (name, child) :: entries' =>
         Walk walkFn (Join path name) child ++ children entries'
       end) entries
  end.

(** [extensions[ext]] on a Go [map[string]bool]: false for a missing key. *)
Definition map_get (extensions : gmap gostring bool) (ext : gostring) : bool :=
  default false (extensions !! ext).

(** [walkRepository]: the paths for which it starts a [scanFile]
    goroutine, in the order of the walk. *)
Definition walkRepository (repoPath : gostring) (root : node)
           (extensions : gmap gostring bool) : list gostring :=
  Walk (fun path isDir err =>
          if err then []
          else if negb isDir && map_get extensions (Ext path) then [path]
          else [])
       repoPath root.

(** ** The goroutines of [main] *)

Module Run.

(** The file system during a run: the entries of [./repos] as
    [os.ReadDir] lists them, and what [os.Open] followed by reading to the
    end gives for a path ([None]: the file cannot be opened). *)
Record World : Type := {
  repos : list (gostring * node);
  Open : gostring -> option gostring
}.

(** [filepath.Join(".", "repos")]. *)
Definition reposDir : gostring := str "repos".

(** What the background goroutine of [main] does, one repository after
    the other, before it reaches [wg.Wait()]. *)
Inductive action : Type :=
| EnterRepo (name : gostring)          (* [walkRepository] is called *)
| Spawn (path repository : gostring)   (* [wg.Add(1); go func() {...}()] *)
| LeaveRepo (name : gostring).         (* [walkRepository] returns *)

#[global] Instance action_eq_dec : EqDecision action.
Proof. solve_decision. Defined.

(** The body of the loop [for _, repo := range repositories]. *)
Definition repoActions (extensions : gmap gostring bool) (repo : gostring * node)
  : list action :=
  if IsDir (snd repo) then
    EnterRepo (fst repo)
      :: map (fun path => Spawn path (fst repo))
             (walkRepository (Join reposDir (fst repo)) (snd repo) extensions)
      ++ [LeaveRepo (fst repo)]
  else [].

Definition walkerProgram (w : World) (extensions : gmap gostring bool) : list action :=
  flat_map (repoActions extensions) (repos w).

(** The capacity of [resultChan]. *)
Definition chanCap : Z := 10000.

(** A state of the run. *)
Record state : Type := mkState {
  walker : list action;                (* what is left before [wg.Wait()] *)
  wg : nat;                            (* the counter of the WaitGroup *)
  scanners : list (list SearchResult); (* per running [scanFile]: its sends to come *)
  chan : list SearchResult;            (* the buffer of [resultChan] *)
  closed : bool;                       (* [close(resultChan)] has run *)
  results : list SearchResult;         (* the slice [results] of [main] *)
  finished : bool;                     (* the collecting loop has ended *)
  log : list action                    (* the actions of the walker so far *)
}.

Section Steps.
Variable w : World.
Variable patterns : list Regexp.
Variable originalPatterns : list gostring.

(** One step of one goroutine.  A [scanFile] that panics takes the
    program down: no rule applies to its [Spawn]. *)
Inductive step : state -> state -> Prop :=
| step_enter name rest n scs ch cl res fin lg :
    step (mkState (EnterRepo name :: rest) n scs ch cl res fin lg)
         (mkState rest n scs ch cl res fin (lg ++ [EnterRepo name]))
| step_spawn path repo out rest n scs ch cl res fin lg :
    scanFile (Open w path) path patterns originalPatterns repo = Some out ->
    step (mkState (Spawn path repo :: rest) n scs ch cl res fin lg)
         (mkState rest (S n) (scs ++ [out]) ch cl res fin (lg ++ [Spawn path repo]))
| step_leave name rest n scs ch cl res fin lg :
    step (mkState (LeaveRepo name :: rest) n scs ch cl res fin lg)
         (mkState rest n scs ch cl res fin (lg ++ [LeaveRepo name]))
| step_send r out scs1 scs2 wk n ch cl res fin lg :
    (Z.of_nat (length ch) < chanCap)%Z ->
    step (mkState wk n (scs1 ++ (r :: out) :: scs2) ch cl res fin lg)
         (mkState wk n (scs1 ++ out :: scs2) (ch ++ [r]) cl res fin lg)
| step_done scs1 scs2 wk n ch cl res fin lg :
    step (mkState wk (S n) (scs1 ++ [] :: scs2) ch cl res fin lg)
         (mkState wk n (scs1 ++ scs2) ch cl res fin lg)
| step_close scs ch res fin lg :
    step (mkState [] 0 scs ch false res fin lg)
         (mkState [] 0 scs ch true res fin lg)
| step_recv r wk n scs ch cl res lg :
    step (mkState wk n scs (r :: ch) cl res false lg)
         (mkState wk n scs ch cl (res ++ [r]) false lg)
| step_finish wk n scs res lg :
    step (mkState wk n scs [] true res false lg)
         (mkState wk n scs [] true res true lg).

Inductive steps : state -> state -> Prop :=
| steps_refl s : steps s s
| steps_step s1 s2 s3 : steps s1 s2 -> step s2 s3 -> steps s1 s3.

End Steps.

(** The state in which [main] starts the background goroutine. *)
Definition init (w : World) (extensions : gmap gostring bool) : state :=
  mkState (walkerProgram w extensions) 0 [] [] false [] false [].

(** [main] reaches [writeResults] with the slice [res]. *)
Definition completes (w : World) (queries : list Query) (res : list SearchResult) : Prop :=
  exists patterns originalPatterns extensions s,
    compilePatterns queries = Some (patterns, originalPatterns, extensions) /\
    steps w patterns originalPatterns (init w extensions) s /\
    finished s = true /\ results s = res.

(** A state that a run from the start can be in. *)
Definition reachable (w : World) (queries : list Query) (s : state) : Prop :=
  exists patterns originalPatterns extensions,
    compilePatterns queries = Some (patterns, originalPatterns, extensions) /\
    steps w patterns originalPatterns (init w extensions) s.

(** The walk of repository [r2] has begun while that of [r1] has not
    returned. *)
Definition walk_started_before_return (s : state) (r1 r2 : gostring) : Prop :=
  In (EnterRepo r2) (log s) /\ ~ In (LeaveRepo r1) (log s).

End Run.

(** ** The specification's side *)

Module Spec.
Import Utf8.

(** *** UTF-8 by ranges *)

(** A continuation byte. *)
Definition cont (c : byte) : bool :=
  ((0x80 <=? b2z c) && (b2z c <=? 0xBF))%Z.

(** The second byte of a three-byte encoding: no overlong form, no
    surrogate. *)
Definition second3 (z0 : Z) (c : byte) : bool :=
  (((if z0 =? 0xE0 then 0xA0 else 0x80) <=? b2z c)
   && (b2z c <=? (if z0 =? 0xED then 0x9F else 0xBF)))%Z.

(** The second byte of a four-byte encoding: no overlong form, nothing
    above U+10FFFF. *)
Definition second4 (z0 : Z) (c : byte) : bool :=
  (((if z0 =? 0xF0 then 0x90 else 0x80) <=? b2z c)
   && (b2z c <=? (if z0 =? 0xF4 then 0x8F else 0xBF)))%Z.

(** The rune at the head of a string, by the ranges of the UTF-8
    encoding and in plain arithmetic. *)
Definition decode (s : gostring) : Z * nat :=
  match s with
  | [] => (RuneError, 0)
  | c0 :: t =>
    let z0 := b2z c0 in
    if (z0 <? 0x80)%Z then (z0, 1)
    else if ((0xC2 <=? z0) && (z0 <? 0xE0))%Z then
      match t with
      | c1 :: _ =>
        if cont c1 then (((z0 - 0xC0) * 64 + (b2z c1 - 0x80))%Z, 2)
        else (RuneError, 1)
      | _ => (RuneError, 1)
      end
    else if ((0xE0 <=? z0) && (z0 <? 0xF0))%Z then
      match t with
      | c1 :: c2 :: _ =>
        if second3 z0 c1 && cont c2 then
          (((z0 - 0xE0) * 4096 + (b2z c1 - 0x80) * 64 + (b2z c2 - 0x80))%Z, 3)
        else (RuneError, 1)
      | _ => (RuneError, 1)
      end
    else if ((0xF0 <=? z0) && (z0 <? 0xF5))%Z then
      match t with
      | c1 :: c2 :: c3 :: _ =>
        if second4 z0 c1 && cont c2 && cont c3 then
          (((z0 - 0xF0) * 262144 + (b2z c1 - 0x80) * 4096
            + (b2z c2 - 0x80) * 64 + (b2z c3 - 0x80))%Z, 4)
        else (RuneError, 1)
      | _ => (RuneError, 1)
      end
    else (RuneError, 1)
  end.

(** A Unicode scalar value: a code point that is no surrogate. *)
Definition scalar (r : Z) : Prop :=
  (0 <= r < 0xD800 \/ 0xE000 <= r <= 0x10FFFF)%Z.

Definition byte_of_Z (z : Z) : byte := byte_of_N_total (Z.to_N z).

(** The UTF-8 encoding of a scalar value. *)
Definition encode (r : Z) : gostring :=
  if (r <? 0x80)%Z then [byte_of_Z r]
  else if (r <? 0x800)%Z then
    [byte_of_Z (0xC0 + r / 64); byte_of_Z (0x80 + r mod 64)]
  else if (r <? 0x10000)%Z then
    [byte_of_Z (0xE0 + r / 4096); byte_of_Z (0x80 + (r / 64) mod 64);
     byte_of_Z (0x80 + r mod 64)]
  else
    [byte_of_Z (0xF0 + r / 262144); byte_of_Z (0x80 + (r / 4096) mod 64);
     byte_of_Z (0x80 + (r / 64) mod 64); byte_of_Z (0x80 + r mod 64)].

(** A byte below [RuneSelf]. *)
Definition is_ascii (c : byte) : bool := (b2z c <? RuneSelf)%Z.

(** The bytes up to the first one below [RuneSelf]: as far as the decoder
    can read on after a leading byte. *)
Fixpoint trunc (t : gostring) : gostring :=
  match t with
  | [] => []
  | c :: t' => if is_ascii c then [] else c :: trunc t'
  end.

(** The bytes the runes of a decoded input span. *)
Definition total_width (input : list (Z * nat)) : nat :=
  fold_right (fun rw n => snd rw + n) 0 input.

(** *** Wildcard patterns *)

(** What a wildcard pattern means, rune by rune: [*] is any run of
    characters, [?] is any one character, every other rune is itself. *)
Definition wildcard_item (c : Z) : item :=
  if (c =? rune_of "*")%Z then Star AnyCharNotNL
  else if (c =? rune_of "?")%Z then One AnyCharNotNL
  else One (Lit c).

Definition wildcard_regexp (pattern : gostring) : Regexp :=
  map (fun rw => wildcard_item (fst rw)) (runes pattern).


(** *** Occurrences of a literal *)

Fixpoint has_prefix (p s : gostring) : bool :=
  match p, s with
  | [], _ => true
  | a :: p', b :: s' => bool_decide (a = b) && has_prefix p' s'
  | _ :: _, [] => false
  end.

(** [strings.Index] from an offset on: the first byte offset at or after
    [off] where [p] occurs; [s] is the string from [off] on. *)
Fixpoint find (p s : gostring) (off : nat) : option nat :=
  if has_prefix p s then Some off
  else
    match s with
    | [] => None
    | _ :: s' => find p s' (S off)
    end.

(** [strings.ReplaceAll] for a non-empty [old]: every non-overlapping
    occurrence of [old], left to right, replaced by [new].  [skip] bytes
    of [s] are dropped first. *)
Fixpoint replace_from (old new s : gostring) (skip : nat) : gostring :=
  match skip with
  | S k =>
    match s with
    | [] => []
    | _ :: s' => replace_from old new s' k
    end
  | O =>
    if has_prefix old s then
      new ++ match s with
             | [] => []
             | _ :: s' => replace_from old new s' (Nat.pred (length old))
             end
    else
      match s with
      | [] => []
      | c :: s' => c :: replace_from old new s' 0
      end
  end.

Definition replace_all (old new s : gostring) : gostring :=
  replace_from old new s 0.

(** The expression that matches a string literally. *)
Definition literal_regexp (p : gostring) : Regexp :=
  map (fun rw => One (Lit (fst rw))) (runes p).

(** The replacement character does not occur in [p]. *)
Definition no_replacement_char (p : gostring) : Prop :=
  ~ In RuneError (map fst (runes p)).




(** *** What [scanFile] sends, as the specification words it *)

(** One result per span, for the patterns in their order. *)
Definition line_results (filePath repository : gostring) (lineNum : Z) (line : gostring)
           (compiled : list (Regexp * gostring)) : list SearchResult :=
  flat_map
    (fun po =>
       map (fun m => {| FilePath := filePath; LineNumber := lineNum; LineText := line;
                        Repository := repository; Match := m |})
           (findMatchPositions line (fst po) (snd po)))
    compiled.

(** The lines of a file with their numbers, counted from one. *)
Definition numbered (lines : list gostring) : list (Z * gostring) :=
  imap (fun i line => (Z.of_nat i + 1, line)%Z) lines.

Definition file_results (filePath repository : gostring) (lines : list gostring)
           (compiled : list (Regexp * gostring)) : list SearchResult :=
  flat_map (fun nl => line_results filePath repository (fst nl) (snd nl) compiled)
           (numbered lines).

(** *** Where the walk finds an entry *)

(** [located repoPath root path n]: below the root [root] at [repoPath],
    the entry at [path] is [n]. *)
Inductive located : gostring -> node -> gostring -> node -> Prop :=
| located_here path n : located path n path n
| located_below dir entries name child path n :
    In (name, child) entries ->
    located (Join dir name) child path n ->
    located dir (Dir entries) path n.

(** The union of the extension lists of the queries. *)
Definition accepted (queries : list Query) (ext : gostring) : Prop :=
  exists q, In q queries /\ In ext (Extensions q).

End Spec.

(** * Proofs *)

(** ** UTF-8 decoding *)

Module Utf8Facts.
Import Utf8 Spec.
Local Open Scope Z_scope.

Lemma b2z_range (b : byte) : 0 <= b2z b < 256.
Proof.
  unfold b2z. pose proof (Byte.to_N_bounded b) as H. lia.
Qed.

Lemma b2z_inj (a b : byte) : b2z a = b2z b -> a = b.
Proof.
  unfold b2z. intros H. apply N2Z.inj in H.
  apply (f_equal Byte.of_N) in H. rewrite !Byte.of_to_N in H. congruence.
Qed.

(** The entry of the [first] table, by the range of the byte. *)
Inductive first_class (z : Z) : Z -> Prop :=
| fc_ascii : z < 0x80 -> first_class z as_
| fc_cont : 0x80 <= z < 0xC2 -> first_class z xx
| fc_two : 0xC2 <= z < 0xE0 -> first_class z s1
| fc_e0 : z = 0xE0 -> first_class z s2
| fc_three : 0xE1 <= z < 0xED -> first_class z s3
| fc_ed : z = 0xED -> first_class z s4
| fc_three' : 0xEE <= z < 0xF0 -> first_class z s3
| fc_f0 : z = 0xF0 -> first_class z s5
| fc_four : 0xF1 <= z < 0xF4 -> first_class z s6
| fc_f4 : z = 0xF4 -> first_class z s7
| fc_high : 0xF5 <= z -> first_class z xx.

Lemma first_classify z : first_class z (first z).
Proof.
  unfold first.
  repeat match goal with
  | |- context [ (?a <? ?b) ] => destruct (Z.ltb_spec a b)
  | |- context [ (?a =? ?b) ] => destruct (Z.eqb_spec a b)
  end; constructor; lia.
Qed.

(** Packing bit fields with [lor] adds them. *)
Lemma lor_shiftl_add a b k :
  0 <= k -> 0 <= b < 2 ^ k -> Z.lor (Z.shiftl a k) b = a * 2 ^ k + b.
Proof.
  intros Hk Hb.
  rewrite <- (Z.shiftl_mul_pow2 a k Hk).
  rewrite <- Z.add_lor_land.
  assert (Hz : Z.land (Z.shiftl a k) b = 0).
  { apply Z.bits_inj'. intros n Hn. rewrite Z.land_spec, Z.bits_0.
    destruct (Z.lt_ge_cases n k) as [Hlt|Hge].
    - rewrite Z.shiftl_spec_low by lia. reflexivity.
    - destruct (Z.eq_dec b 0) as [->|Hb0].
      + rewrite Z.bits_0. apply andb_false_r.
      + rewrite (Z.bits_above_log2 b n); [apply andb_false_r | lia |].
        apply Z.log2_lt_pow2; [lia|].
        apply Z.lt_le_trans with (2 ^ k); [lia|].
        apply Z.pow_le_mono_r; lia. }
  rewrite Hz. lia.
Qed.

Lemma pack2 a b : 0 <= b < 64 -> Z.lor (Z.shiftl a 6) b = a * 64 + b.
Proof. intros H. rewrite lor_shiftl_add; lia. Qed.

Lemma pack3 a b c :
  0 <= b < 64 -> 0 <= c < 64 ->
  Z.lor (Z.lor (Z.shiftl a 12) (Z.shiftl b 6)) c = a * 4096 + b * 64 + c.
Proof.
  intros Hb Hc.
  replace (Z.shiftl a 12) with (Z.shiftl (Z.shiftl a 6) 6)
    by (rewrite Z.shiftl_shiftl by lia; reflexivity).
  rewrite <- Z.shiftl_lor, pack2 by lia. rewrite pack2 by lia. lia.
Qed.

Lemma pack4 a b c d :
  0 <= b < 64 -> 0 <= c < 64 -> 0 <= d < 64 ->
  Z.lor (Z.lor (Z.lor (Z.shiftl a 18) (Z.shiftl b 12)) (Z.shiftl c 6)) d
  = a * 262144 + b * 4096 + c * 64 + d.
Proof.
  intros Hb Hc Hd.
  replace (Z.shiftl a 18) with (Z.shiftl (Z.shiftl a 12) 6)
    by (rewrite Z.shiftl_shiftl by lia; reflexivity).
  replace (Z.shiftl b 12) with (Z.shiftl (Z.shiftl b 6) 6)
    by (rewrite Z.shiftl_shiftl by lia; reflexivity).
  rewrite <- !Z.shiftl_lor. rewrite pack2 by lia. rewrite pack3 by lia. lia.
Qed.

Lemma land_maskx z : Z.land z maskx = z mod 64.
Proof. change maskx with (Z.ones 6). now rewrite Z.land_ones. Qed.
Lemma land_mask2 z : Z.land z mask2 = z mod 32.
Proof. change mask2 with (Z.ones 5). now rewrite Z.land_ones. Qed.
Lemma land_mask3 z : Z.land z mask3 = z mod 16.
Proof. change mask3 with (Z.ones 4). now rewrite Z.land_ones. Qed.
Lemma land_mask4 z : Z.land z mask4 = z mod 8.
Proof. change mask4 with (Z.ones 3). now rewrite Z.land_ones. Qed.

Ltac bool_to_prop :=
  repeat match goal with
  | H : _ && _ = true |- _ => apply andb_true_iff in H; destruct H
  | H : _ && _ = false |- _ => apply andb_false_iff in H; destruct H
  | H : _ || _ = true |- _ => apply orb_true_iff in H; destruct H
  | H : _ || _ = false |- _ => apply orb_false_iff in H; destruct H
  | H : negb _ = true |- _ => apply negb_true_iff in H
  | H : negb _ = false |- _ => apply negb_false_iff in H
  | H : (_ <? _) = true |- _ => apply Z.ltb_lt in H
  | H : (_ <? _) = false |- _ => apply Z.ltb_ge in H
  | H : (_ <=? _) = true |- _ => apply Z.leb_le in H
  | H : (_ <=? _) = false |- _ => apply Z.leb_gt in H
  | H : (_ =? _) = true |- _ => apply Z.eqb_eq in H
  | H : (_ =? _) = false |- _ => apply Z.eqb_neq in H
  end.

(** Settle the comparisons the context decides, then reduce. *)
Ltac decide_tests :=
  repeat match goal with
  | |- context [?a <? ?b] =>
    first [ replace (a <? b) with true by (symmetry; apply Z.ltb_lt; lia)
          | replace (a <? b) with false by (symmetry; apply Z.ltb_ge; lia) ]
  | |- context [?a <=? ?b] =>
    first [ replace (a <=? b) with true by (symmetry; apply Z.leb_le; lia)
          | replace (a <=? b) with false by (symmetry; apply Z.leb_gt; lia) ]
  | |- context [?a =? ?b] =>
    first [ replace (a =? b) with true by (symmetry; apply Z.eqb_eq; lia)
          | replace (a =? b) with false by (symmetry; apply Z.eqb_neq; lia) ]
  end;
  cbn [andb orb negb]; cbv beta iota.

Ltac case_tests :=
  repeat (match goal with
  | |- context [?a =? ?b] => destruct (Z.eqb_spec a b)
  | |- context [?a <? ?b] => destruct (Z.ltb_spec a b)
  | |- context [?a <=? ?b] => destruct (Z.leb_spec a b)
  end; cbn [andb orb negb]; cbv beta iota).

Ltac bytes_in_range :=
  repeat match goal with
  | c : byte |- _ =>
    lazymatch goal with
    | _ : 0 <= b2z c < 256 |- _ => fail
    | _ => pose proof (b2z_range c)
    end
  end.

Ltac eval_table K :=
  let v1 := eval vm_compute in (as_ <=? K) in change (as_ <=? K) with v1;
  let v2 := eval vm_compute in (Z.land K 7) in change (Z.land K 7) with v2;
  let v3 := eval vm_compute in (acceptRanges (Z.shiftr K 4)) in
  change (acceptRanges (Z.shiftr K 4)) with v3;
  let v4 := eval vm_compute in (Z.shiftr (int32 (Z.shiftl K 31)) 31) in
  change (Z.shiftr (int32 (Z.shiftl K 31)) 31) with v4;
  change (Z.lnot 0) with (-1); change (Z.lnot (-1)) with 0;
  cbv beta iota; cbn [fst snd].

(** Go's table-driven decoder computes the rune the ranges describe. *)
Lemma Decode_eq_spec s : DecodeRuneInString s = decode s.
Proof.
  destruct s as [|c0 t0]; [reflexivity|].
  unfold DecodeRuneInString, decode, cont, second3, second4, len.
  cbv zeta.
  destruct (first_classify (b2z c0)) as [H|H|H|H|H|H|H|H|H|H|H];
    match goal with |- context [as_ <=? ?K] => eval_table K end.
  all: rewrite ?Z.land_0_r, ?Z.land_m1_r, ?Z.lor_0_r, ?Z.lor_0_l.
  all: repeat match goal with
       | |- context [ match ?l with [] => _ | _ :: _ => _ end ] =>
         let c := fresh "c" in let t := fresh "t" in destruct l as [|c t]
       end.
  all: bytes_in_range.
  all: unfold locb, hicb, RuneError in *; cbn [length].
  all: rewrite ?land_maskx, ?land_mask2, ?land_mask3, ?land_mask4.
  all: decide_tests; try reflexivity.
  all: case_tests; try reflexivity; try lia.
  all: f_equal.
  all: rewrite ?pack4, ?pack3, ?pack2 by (apply Z.mod_pos_bound; lia).
  all: Z.div_mod_to_equations; lia.
Qed.

Lemma b2z_byte_of_Z z : 0 <= z < 256 -> b2z (byte_of_Z z) = z.
Proof.
  intros H. unfold b2z, byte_of_Z, byte_of_N_total.
  destruct (Byte.of_N (Z.to_N z)) as [b|] eqn:E.
  - apply Byte.to_of_N in E. rewrite E. lia.
  - apply Byte.of_N_None_iff in E. lia.
Qed.

Lemma byte_of_b2z c : byte_of_Z (b2z c) = c.
Proof. apply b2z_inj. apply b2z_byte_of_Z, b2z_range. Qed.

(** The outcome of [decode], case by case, with the ranges that hold in
    each case. *)
Inductive decode_view : gostring -> Z * nat -> Prop :=
| dv_eof : decode_view [] (RuneError, 0%nat)
| dv_ascii c t : b2z c < 0x80 -> decode_view (c :: t) (b2z c, 1%nat)
| dv_bad c t : 0x80 <= b2z c -> decode_view (c :: t) (RuneError, 1%nat)
| dv_two c0 c1 t r :
    0xC2 <= b2z c0 < 0xE0 -> 0x80 <= b2z c1 <= 0xBF ->
    r = (b2z c0 - 0xC0) * 64 + (b2z c1 - 0x80) ->
    0x80 <= r < 0x800 ->
    decode_view (c0 :: c1 :: t) (r, 2%nat)
| dv_three c0 c1 c2 t r :
    0xE0 <= b2z c0 < 0xF0 -> 0x80 <= b2z c1 <= 0xBF -> 0x80 <= b2z c2 <= 0xBF ->
    r = (b2z c0 - 0xE0) * 4096 + (b2z c1 - 0x80) * 64 + (b2z c2 - 0x80) ->
    0x800 <= r < 0x10000 -> ~ (0xD800 <= r < 0xE000) ->
    decode_view (c0 :: c1 :: c2 :: t) (r, 3%nat)
| dv_four c0 c1 c2 c3 t r :
    0xF0 <= b2z c0 < 0xF5 -> 0x80 <= b2z c1 <= 0xBF -> 0x80 <= b2z c2 <= 0xBF ->
    0x80 <= b2z c3 <= 0xBF ->
    r = (b2z c0 - 0xF0) * 262144 + (b2z c1 - 0x80) * 4096
        + (b2z c2 - 0x80) * 64 + (b2z c3 - 0x80) ->
    0x10000 <= r <= 0x10FFFF ->
    decode_view (c0 :: c1 :: c2 :: c3 :: t) (r, 4%nat).

(** Follow the branches of a definition, one whole condition at a time. *)
Ltac follow_branches :=
  repeat match goal with
  | |- context [ match ?l with [] => _ | _ :: _ => _ end ] =>
    let c := fresh "c" in let t := fresh "t" in destruct l as [|c t]
  | |- context [ if ?b then _ else _ ] =>
    let E := fresh "E" in destruct b eqn:E
  end.

Ltac unfold_ranges :=
  unfold cont, second3, second4 in *; bool_to_prop;
  repeat match goal with
  | H : context [ if ?a =? ?b then _ else _ ] |- _ => destruct (Z.eqb_spec a b)
  end.

Lemma decode_view_of s : decode_view s (decode s).
Proof.
  destruct s as [|c0 t]; [constructor|].
  pose proof (b2z_range c0).
  unfold decode; follow_branches;
    try (apply dv_bad; bool_to_prop; lia);
    try (apply dv_ascii; bool_to_prop; lia).
  all: unfold_ranges;
    first [ eapply dv_two; [| |reflexivity|]; lia
          | eapply dv_three; [| | |reflexivity| |]; lia
          | eapply dv_four; [| | | |reflexivity|]; lia ].
Qed.

(** The conditions under which [decode] accepts two, three and four
    bytes. *)
Lemma decode_two c0 c1 t :
  0xC2 <= b2z c0 < 0xE0 -> 0x80 <= b2z c1 <= 0xBF ->
  decode (c0 :: c1 :: t) = ((b2z c0 - 0xC0) * 64 + (b2z c1 - 0x80), 2%nat).
Proof.
  intros. unfold decode, cont. decide_tests. reflexivity.
Qed.

Lemma decode_three c0 c1 c2 t :
  0xE0 <= b2z c0 < 0xF0 -> 0x80 <= b2z c1 <= 0xBF -> 0x80 <= b2z c2 <= 0xBF ->
  (b2z c0 = 0xE0 -> 0xA0 <= b2z c1) -> (b2z c0 = 0xED -> b2z c1 <= 0x9F) ->
  decode (c0 :: c1 :: c2 :: t)
  = ((b2z c0 - 0xE0) * 4096 + (b2z c1 - 0x80) * 64 + (b2z c2 - 0x80), 3%nat).
Proof.
  intros. unfold decode, cont, second3.
  destruct (Z.eqb_spec (b2z c0) 0xE0); destruct (Z.eqb_spec (b2z c0) 0xED);
    try lia; decide_tests; reflexivity.
Qed.

Lemma decode_four c0 c1 c2 c3 t :
  0xF0 <= b2z c0 < 0xF5 -> 0x80 <= b2z c1 <= 0xBF -> 0x80 <= b2z c2 <= 0xBF ->
  0x80 <= b2z c3 <= 0xBF ->
  (b2z c0 = 0xF0 -> 0x90 <= b2z c1) -> (b2z c0 = 0xF4 -> b2z c1 <= 0x8F) ->
  decode (c0 :: c1 :: c2 :: c3 :: t)
  = ((b2z c0 - 0xF0) * 262144 + (b2z c1 - 0x80) * 4096
     + (b2z c2 - 0x80) * 64 + (b2z c3 - 0x80), 4%nat).
Proof.
  intros. unfold decode, cont, second4.
  destruct (Z.eqb_spec (b2z c0) 0xF0); destruct (Z.eqb_spec (b2z c0) 0xF4);
    try lia; decide_tests; reflexivity.
Qed.

(** Case analysis on the decoding of [s]. *)
Ltac decode_inv s :=
  let V := fresh "V" in
  pose proof (decode_view_of s) as V;
  let r := fresh "r" in let w := fresh "w" in
  destruct (decode s) as [r w];
  inversion V; subst; clear V.

(** The same, keeping the equation. *)
Ltac decode_inv_eq s E :=
  let V := fresh "V" in
  pose proof (decode_view_of s) as V;
  let r := fresh "r" in let w := fresh "w" in
  destruct (decode s) as [r w] eqn:E;
  inversion V; subst; clear V.

Lemma decode_width c t :
  (1 <= snd (decode (c :: t)) <= S (length t))%nat.
Proof. decode_inv (c :: t); cbn [snd length]; lia. Qed.

Lemma decode_ascii c t : b2z c < 0x80 -> decode (c :: t) = (b2z c, 1%nat).
Proof. intros H. unfold decode. decide_tests. reflexivity. Qed.

(** A rune below [RuneSelf] is a single byte with that value. *)
Lemma decode_small c t :
  fst (decode (c :: t)) < 0x80 -> decode (c :: t) = (b2z c, 1%nat) /\ b2z c < 0x80.
Proof.
  decode_inv (c :: t); cbn [fst]; unfold RuneError; intros; try lia.
  split; [reflexivity | lia].
Qed.

(** A decoding that did not fail gives a scalar value. *)
Lemma decode_scalar s :
  s <> [] -> is_invalid (decode s) = false -> scalar (fst (decode s)).
Proof.
  intros Hs. decode_inv s; cbn [fst]; unfold scalar, RuneError;
    bytes_in_range; lia.
Qed.

Ltac bytes_eq :=
  repeat match goal with |- _ :: _ = _ :: _ => f_equal end;
  try reflexivity;
  apply b2z_inj; rewrite b2z_byte_of_Z; Z.div_mod_to_equations; lia.

(** The bytes a decoding passes over are the encoding of its rune. *)
Lemma decode_bytes s :
  s <> [] -> is_invalid (decode s) = false ->
  firstn (snd (decode s)) s = encode (fst (decode s)).
Proof.
  intros Hs. decode_inv s; cbn [fst snd]; simpl (firstn _ _);
    rewrite ?firstn_O; try congruence;
    try (change (is_invalid (RuneError, 1%nat)) with true; discriminate).
  - intros _. unfold encode. decide_tests. now rewrite byte_of_b2z.
  - intros _. unfold encode. decide_tests. bytes_eq.
  - intros _. unfold encode. decide_tests. bytes_eq.
  - intros _. unfold encode. decide_tests. bytes_eq.
Qed.

Lemma encode_length r : (1 <= length (encode r) <= 4)%nat.
Proof. unfold encode. case_tests; cbn [length]; lia. Qed.

(** Decoding reads an encoding back, whatever follows it. *)
Lemma decode_encode r t :
  scalar r -> decode (encode r ++ t) = (r, length (encode r)).
Proof.
  intros Hr. unfold scalar in Hr. unfold encode. case_tests; cbn [app length].
  - rewrite decode_ascii; rewrite b2z_byte_of_Z; try lia. reflexivity.
  - rewrite decode_two; rewrite ?b2z_byte_of_Z;
      try (Z.div_mod_to_equations; lia).
    f_equal. Z.div_mod_to_equations; lia.
  - rewrite decode_three; rewrite ?b2z_byte_of_Z;
      try (Z.div_mod_to_equations; lia).
    f_equal. Z.div_mod_to_equations; lia.
  - rewrite decode_four; rewrite ?b2z_byte_of_Z;
      try (Z.div_mod_to_equations; lia).
    f_equal. Z.div_mod_to_equations; lia.
Qed.

(** *** Bytes below [RuneSelf] delimit runes *)

Lemma is_ascii_lt c : is_ascii c = true <-> b2z c < 0x80.
Proof. unfold is_ascii, RuneSelf. apply Z.ltb_lt. Qed.

Lemma is_ascii_ge c : is_ascii c = false <-> 0x80 <= b2z c.
Proof. unfold is_ascii, RuneSelf. apply Z.ltb_ge. Qed.

Lemma trunc_cont c t : 0x80 <= b2z c -> trunc (c :: t) = c :: trunc t.
Proof. intros H. cbn. apply is_ascii_ge in H. now rewrite H. Qed.

Lemma trunc_cons_inv c u t :
  c :: u = trunc t -> exists t', t = c :: t' /\ u = trunc t'.
Proof.
  destruct t as [|x t]; [discriminate|]. cbn.
  destruct (is_ascii x); [discriminate|]. intros [= -> ->]. eauto.
Qed.

Ltac trunc_inv :=
  repeat match goal with
  | H : _ :: _ = trunc _ |- _ =>
    apply trunc_cons_inv in H; destruct H as (? & -> & H)
  end.

(** The decoder reads no further than the first byte below [RuneSelf]. *)
Lemma decode_trunc c0 t : decode (c0 :: trunc t) = decode (c0 :: t).
Proof.
  decode_inv_eq (c0 :: t) E.
  - now apply decode_ascii.
  - decode_inv_eq (c0 :: trunc t) E'; try reflexivity; try lia; exfalso; trunc_inv.
    + rewrite decode_two in E by lia. discriminate.
    + rewrite decode_three in E by lia. discriminate.
    + rewrite decode_four in E by lia. discriminate.
  - rewrite !trunc_cont by lia. apply decode_two; lia.
  - rewrite !trunc_cont by lia. apply decode_three; lia.
  - rewrite !trunc_cont by lia. apply decode_four; lia.
Qed.

Lemma decode_same_trunc c0 t t' :
  trunc t = trunc t' -> decode (c0 :: t) = decode (c0 :: t').
Proof. intros H. rewrite <- (decode_trunc c0 t), <- (decode_trunc c0 t'). now rewrite H. Qed.

Lemma trunc_app_ascii a c b : is_ascii c = true -> trunc (a ++ c :: b) = trunc a.
Proof.
  intros Hc. induction a as [|x a IH]; cbn.
  - now rewrite Hc.
  - destruct (is_ascii x); [reflexivity | now rewrite IH].
Qed.

Lemma decode_ascii_stop a c b :
  a <> [] -> is_ascii c = true -> decode (a ++ c :: b) = decode a.
Proof.
  intros Ha Hc. destruct a as [|c0 a]; [congruence|]. cbn [app].
  apply decode_same_trunc, trunc_app_ascii, Hc.
Qed.

(** The bytes after the first of a multi-byte rune are continuation
    bytes. *)
Lemma decode_tail c t :
  Forall (fun x => 0x80 <= b2z x <= 0xBF) (firstn (Nat.pred (snd (decode (c :: t)))) t).
Proof.
  decode_inv (c :: t); cbn [snd Nat.pred]; simpl (firstn _ _); rewrite ?firstn_O;
    repeat constructor; lia.
Qed.

(** The first byte of a rune that decodes is no continuation byte. *)
Lemma decode_lead c t :
  is_invalid (decode (c :: t)) = false -> b2z c < 0x80 \/ 0xC2 <= b2z c.
Proof.
  decode_inv (c :: t); try lia.
  change (is_invalid (RuneError, 1%nat)) with true; discriminate.
Qed.

(** *** The runes of a string *)

Lemma runes_from_skipn k s : runes_from k s = runes (skipn k s).
Proof.
  revert k. induction s as [|c t IH]; intros [|k]; try reflexivity.
  cbn [runes_from skipn]. apply IH.
Qed.

Lemma runes_cons c t :
  runes (c :: t) = decode (c :: t) :: runes (skipn (snd (decode (c :: t))) (c :: t)).
Proof.
  unfold runes at 1. cbn [runes_from]. rewrite Decode_eq_spec, runes_from_skipn.
  pose proof (decode_width c t) as W.
  destruct (snd (decode (c :: t))) as [|w]; [lia|]. reflexivity.
Qed.

Lemma runes_nil : runes [] = [].
Proof. reflexivity. Qed.

(** Induction along the runes of a string. *)
Lemma rune_ind (P : gostring -> Prop) :
  P [] ->
  (forall c t, P (skipn (snd (decode (c :: t))) (c :: t)) -> P (c :: t)) ->
  forall s, P s.
Proof.
  intros Hnil Hcons s.
  remember (length s) as n eqn:Hn. revert s Hn.
  induction n as [n IH] using lt_wf_ind. intros [|c t] Hn; [exact Hnil|].
  apply Hcons. pose proof (decode_width c t) as W.
  apply (IH (length (skipn (snd (decode (c :: t))) (c :: t)))); [|reflexivity].
  rewrite length_skipn. subst n. cbn [length]. lia.
Qed.

Lemma total_width_runes s : total_width (runes s) = length s.
Proof.
  induction s as [|c t IH] using rune_ind; [reflexivity|].
  rewrite runes_cons. cbn [total_width fold_right]. fold (total_width (runes (skipn (snd (decode (c :: t))) (c :: t)))).
  rewrite IH, length_skipn. pose proof (decode_width c t). cbn [length]. lia.
Qed.

Lemma runes_ascii c t : is_ascii c = true -> runes (c :: t) = (b2z c, 1%nat) :: runes t.
Proof.
  intros H. rewrite runes_cons, decode_ascii by now apply is_ascii_lt. reflexivity.
Qed.


(** A string splits into the encoding of its first rune and the rest, when
    the first rune decodes. *)
Lemma split_rune c t :
  is_invalid (decode (c :: t)) = false ->
  c :: t = encode (fst (decode (c :: t))) ++ skipn (snd (decode (c :: t))) (c :: t)
  /\ length (encode (fst (decode (c :: t)))) = snd (decode (c :: t))
  /\ scalar (fst (decode (c :: t))).
Proof.
  intros V. pose proof (decode_bytes (c :: t) ltac:(discriminate) V) as B.
  pose proof (decode_width c t) as W. split; [|split].
  - rewrite <- B. symmetry. apply firstn_skipn.
  - rewrite <- B. rewrite length_firstn. cbn [length]. lia.
  - apply decode_scalar; [discriminate | assumption].
Qed.
End Utf8Facts.

(** ** Matching *)

Module MatchFacts.
Import Utf8 Spec Utf8Facts.

Lemma match_here_star_cons a re r w input :
  match_here (Star a :: re) ((r, w) :: input)
  = if atom_matches a r then
      match match_here (Star a :: re) input with
      | Some n => Some (w + n)
      | None => match_here re ((r, w) :: input)
      end
    else match_here re ((r, w) :: input).
Proof. reflexivity. Qed.

Lemma match_here_star_nil a re : match_here (Star a :: re) [] = match_here re [].
Proof. reflexivity. Qed.

(** An item that consumes a rune. *)
Definition consuming (re : Regexp) : Prop := exists a, In (One a) re.

(** Every rune of the input has a width. *)
Definition wide (input : list (Z * nat)) : Prop :=
  Forall (fun rw => 1 <= snd rw) input.

Lemma wide_runes s : wide (runes s).
Proof.
  induction s as [|c t IH] using rune_ind; [constructor|].
  rewrite runes_cons. constructor; [|exact IH].
  pose proof (decode_width c t). lia.
Qed.

(** A match spans no more than the input. *)
Lemma match_here_bound re : forall input n,
  match_here re input = Some n -> n <= total_width input.
Proof.
  induction re as [|[a|a] re IH]; intros input n.
  - cbn. intros [= <-]. lia.
  - destruct input as [|[r w] input]; cbn [match_here]; [discriminate|].
    destruct (atom_matches a r); [|discriminate].
    destruct (match_here re input) as [m|] eqn:E; [|discriminate].
    intros [= <-]. apply IH in E. cbn. unfold total_width in E. lia.
  - revert n. induction input as [|[r w] input IHi]; intros n.
    + rewrite match_here_star_nil. apply IH.
    + rewrite match_here_star_cons. intros H.
      assert (Hre : forall k, match_here re ((r, w) :: input) = Some k ->
                              k <= total_width ((r, w) :: input)) by (intros; now apply IH).
      destruct (atom_matches a r); [|now apply Hre].
      destruct (match_here (Star a :: re) input) as [m|] eqn:E; [|now apply Hre].
      injection H as <-. specialize (IHi _ eq_refl). cbn. unfold total_width in IHi. lia.
Qed.

(** A match of an expression with a consuming item is not empty. *)
Lemma match_here_nonempty re : forall input n,
  consuming re -> wide input -> match_here re input = Some n -> 1 <= n.
Proof.
  induction re as [|[a|a] re IH]; intros input n [b Hb] Hw.
  - destruct Hb.
  - destruct input as [|[r w] input]; cbn [match_here]; [discriminate|].
    destruct (atom_matches a r); [|discriminate].
    destruct (match_here re input) as [m|]; [|discriminate].
    intros [= <-]. inversion Hw; subst. cbn in *. lia.
  - assert (Hc : consuming re).
    { destruct Hb as [Hb|Hb]; [discriminate|]. now exists b. }
    revert n. induction Hw as [|[r w] input Hrw Hw IHw]; intros n.
    + rewrite match_here_star_nil. apply IH; [assumption|constructor].
    + rewrite match_here_star_cons. intros H.
      assert (Hre : forall k, match_here re ((r, w) :: input) = Some k -> 1 <= k).
      { intros k. apply IH; [assumption|]. now constructor. }
      destruct (atom_matches a r); [|now apply Hre].
      destruct (match_here (Star a :: re) input) as [m|] eqn:E; [|now apply Hre].
      injection H as <-. cbn in Hrw. lia.
Qed.

Lemma search_bound re : forall input off a b,
  search re input off = Some (a, b) ->
  off <= a /\ a <= b /\ b <= off + total_width input.
Proof.
  induction input as [|[r w] input IH]; intros off a b; cbn [search].
  - destruct (match_here re []) as [n|] eqn:E; [|discriminate].
    intros [= <- <-]. apply match_here_bound in E. cbn in *. lia.
  - destruct (match_here re ((r, w) :: input)) as [n|] eqn:E.
    + intros [= <- <-]. apply match_here_bound in E. lia.
    + intros H. apply IH in H. cbn. unfold total_width in H. lia.
Qed.

Lemma search_nonempty re : forall input off a b,
  consuming re -> wide input -> search re input off = Some (a, b) -> a < b.
Proof.
  intros input off a b Hc Hw. revert off.
  induction Hw as [|[r w] input Hrw Hw IH]; intros off; cbn [search].
  - destruct (match_here re []) as [n|] eqn:E; [|discriminate].
    intros [= <- <-]. apply match_here_nonempty in E; [lia|assumption|constructor].
  - destruct (match_here re ((r, w) :: input)) as [n|] eqn:E.
    + intros [= <- <-]. apply match_here_nonempty in E; [lia|assumption|now constructor].
    + apply IH.
Qed.

Lemma doExecute_bound re s pos m0 m1 :
  (0 <= pos <= len s)%Z -> doExecute re s pos = Some (m0, m1) ->
  (pos <= m0 /\ m0 <= m1 /\ m1 <= len s)%Z.
Proof.
  unfold doExecute, slice_from, len. intros Hp.
  destruct (search re _ _) as [[a b]|] eqn:E; [|discriminate].
  intros [= <- <-]. apply search_bound in E.
  rewrite total_width_runes, length_skipn in E. lia.
Qed.

Lemma doExecute_nonempty re s pos m0 m1 :
  consuming re -> doExecute re s pos = Some (m0, m1) -> (m0 < m1)%Z.
Proof.
  unfold doExecute. intros Hc.
  destruct (search re _ _) as [[a b]|] eqn:E; [|discriminate].
  intros [= <- <-]. apply search_nonempty in E; [lia|assumption|apply wide_runes].
Qed.

(** Every match that [allMatches] delivers lies within the string, and is
    not empty when the expression has a consuming item. *)
Lemma allMatches_loop_bound re s : forall k pos prev m,
  (0 <= pos)%Z -> In m (allMatches_loop re s k pos prev) ->
  exists m0 m1, m = [m0; m1] /\ (0 <= m0 /\ m0 <= m1 /\ m1 <= len s)%Z
                /\ (consuming re -> (m0 < m1)%Z).
Proof.
  induction k as [|k IH]; intros pos prev m Hpos; cbn [allMatches_loop]; [intros []|].
  destruct (Z.leb_spec pos (len s)) as [Hle|]; [|intros []].
  destruct (doExecute re s pos) as [[m0 m1]|] eqn:E; [|intros []].
  pose proof (doExecute_bound re s pos m0 m1 ltac:(lia) E) as B.
  assert (Hm : exists a b, [m0; m1] = [a; b] /\ (0 <= a /\ a <= b /\ b <= len s)%Z
                           /\ (consuming re -> (a < b)%Z)).
  { exists m0, m1. split; [reflexivity|]. split; [lia|].
    intros Hc. eapply doExecute_nonempty; eassumption. }
  destruct (Z.eqb_spec m1 pos) as [->|Hne].
  - rewrite in_app_iff. intros [Hin|Hin].
    + destruct (negb _); [|destruct Hin]. destruct Hin as [<-|[]]. exact Hm.
    + eapply IH; [|exact Hin].
      destruct (0 <? _)%Z; unfold len; lia.
  - intros [<-|Hin]; [exact Hm|]. eapply IH; [|exact Hin]. lia.
Qed.

Lemma findMatchPositions_fold original : forall matches acc,
  fold_left
    (fun results m =>
       if (2 <=? length m)%nat then
         results ++ [{| MPattern := original;
                        StartIndex := nth 0 m 0%Z;
                        EndIndex := nth 1 m 0%Z |}]
       else results)
    matches acc
  = acc ++ flat_map (fun m => if (2 <=? length m)%nat
                              then [{| MPattern := original;
                                       StartIndex := nth 0 m 0%Z;
                                       EndIndex := nth 1 m 0%Z |}]
                              else []) matches.
Proof.
  induction matches as [|m matches IH]; intros acc; cbn [fold_left flat_map].
  - now rewrite app_nil_r.
  - rewrite IH. destruct (2 <=? length m)%nat; [now rewrite <- app_assoc | reflexivity].
Qed.

(** [findMatchPositions] is one [MatchInfo] per match of
    [FindAllStringSubmatchIndex]. *)
Lemma findMatchPositions_spec line re original :
  findMatchPositions line re original
  = flat_map (fun m => if (2 <=? length m)%nat
                       then [{| MPattern := original;
                                StartIndex := nth 0 m 0%Z;
                                EndIndex := nth 1 m 0%Z |}]
                       else [])
             (FindAllStringSubmatchIndex re line (-1)).
Proof. unfold findMatchPositions. now rewrite findMatchPositions_fold. Qed.

(** The spans of [findMatchPositions] lie within the line and carry the
    original pattern. *)
Lemma findMatchPositions_bound line re original m :
  In m (findMatchPositions line re original) ->
  MPattern m = original
  /\ (0 <= StartIndex m /\ StartIndex m <= EndIndex m /\ EndIndex m <= len line)%Z
  /\ (consuming re -> (StartIndex m < EndIndex m)%Z).
Proof.
  rewrite findMatchPositions_spec, in_flat_map. intros (x & Hx & Hm).
  unfold FindAllStringSubmatchIndex in Hx.
  apply allMatches_loop_bound in Hx; [|lia].
  destruct Hx as (m0 & m1 & -> & B & S).
  cbn in Hm. destruct Hm as [<-|[]]. cbn. auto.
Qed.
End MatchFacts.

(** ** Literal expressions search bytes *)

Module LiteralFacts.
Import Utf8 Spec Utf8Facts MatchFacts.

Lemma has_prefix_spec p s : has_prefix p s = true <-> exists rest, s = p ++ rest.
Proof.
  revert s. induction p as [|a p IH]; intros s; cbn [has_prefix].
  - split; [eauto | reflexivity].
  - destruct s as [|b s].
    + split; [discriminate | intros (rest & [=])].
    + rewrite andb_true_iff, bool_decide_eq_true, IH. split.
      * intros (-> & rest & ->). eauto.
      * intros (rest & [= -> ->]). eauto.
Qed.

Lemma has_prefix_app a p s : has_prefix (a ++ p) (a ++ s) = has_prefix p s.
Proof.
  induction a as [|x a IH]; [reflexivity|]. cbn [app has_prefix].
  rewrite bool_decide_eq_true_2 by reflexivity. exact IH.
Qed.

Lemma has_prefix_length p s : has_prefix p s = true -> length p <= length s.
Proof.
  intros (rest & ->)%has_prefix_spec. rewrite length_app. lia.
Qed.

Lemma ValidString_cons c t :
  ValidString (c :: t) = true <->
  is_invalid (decode (c :: t)) = false
  /\ ValidString (skipn (snd (decode (c :: t))) (c :: t)) = true.
Proof.
  unfold ValidString. rewrite runes_cons. cbn [forallb].
  rewrite andb_true_iff, negb_true_iff. reflexivity.
Qed.

Lemma no_replacement_char_cons c t :
  no_replacement_char (c :: t) <->
  fst (decode (c :: t)) <> RuneError
  /\ no_replacement_char (skipn (snd (decode (c :: t))) (c :: t)).
Proof.
  unfold no_replacement_char. rewrite runes_cons. cbn [map In]. intuition congruence.
Qed.

Lemma is_invalid_fst rw : fst rw <> RuneError -> is_invalid rw = false.
Proof.
  intros H. unfold is_invalid. apply andb_false_iff. left. now apply Z.eqb_neq.
Qed.

Lemma literal_regexp_cons c t :
  literal_regexp (c :: t)
  = One (Lit (fst (decode (c :: t))))
      :: literal_regexp (skipn (snd (decode (c :: t))) (c :: t)).
Proof. unfold literal_regexp. now rewrite runes_cons. Qed.

(** Tried at the head of the input, a literal matches when its bytes are
    there. *)
Lemma match_here_literal p :
  ValidString p = true -> no_replacement_char p ->
  forall s, match_here (literal_regexp p) (runes s)
            = if has_prefix p s then Some (length p) else None.
Proof.
  induction p as [|c t IH] using rune_ind; intros Hv Hn s; [reflexivity|].
  apply ValidString_cons in Hv as [Hv Hv'].
  apply no_replacement_char_cons in Hn as [Hn Hn'].
  specialize (IH Hv' Hn').
  destruct (split_rune c t Hv) as (Hp & Hl & Hs).
  rewrite literal_regexp_cons.
  set (r := fst (decode (c :: t))) in *. set (w := snd (decode (c :: t))) in *.
  set (p' := skipn w (c :: t)) in *.
  assert (Hlen : length (c :: t) = w + length p').
  { rewrite Hp at 1. rewrite length_app. lia. }
  rewrite Hlen. rewrite Hp. clearbody p' r w. clear Hp Hv Hv' Hn'.
  destruct s as [|c' t']; cbn [match_here runes].
  - rewrite runes_nil.
    destruct (has_prefix (encode r ++ p') []) eqn:E; [|reflexivity].
    apply has_prefix_length in E. pose proof (encode_length r).
    rewrite length_app in E. cbn in E. lia.
  - rewrite runes_cons.
    destruct (decode (c' :: t')) as [r' w'] eqn:D. cbn [match_here atom_matches snd].
    destruct (Z.eqb_spec r' r) as [->|Hne].
    + assert (Hv : is_invalid (decode (c' :: t')) = false)
        by (apply is_invalid_fst; rewrite D; exact Hn).
      destruct (split_rune c' t' Hv) as (Hp & Hl' & _).
      rewrite D in Hp, Hl'. cbn [fst snd] in Hp, Hl'.
      assert (Hpre : has_prefix (encode r ++ p') (c' :: t')
                     = has_prefix p' (skipn w' (c' :: t'))).
      { rewrite Hp at 1. apply has_prefix_app. }
      rewrite IH, Hpre.
      destruct (has_prefix p' (skipn w' (c' :: t'))); [|reflexivity].
      f_equal. lia.
    + destruct (has_prefix (encode r ++ p') (c' :: t')) eqn:E; [|reflexivity].
      apply has_prefix_spec in E as (rest & E).
      rewrite E, <- app_assoc, decode_encode in D by assumption. congruence.
Qed.

(** A literal that decodes starts with a byte that no rune continues
    with. *)
Lemma has_prefix_cont p x s :
  ValidString p = true -> p <> [] -> (0x80 <= b2z x <= 0xBF)%Z ->
  has_prefix p (x :: s) = false.
Proof.
  intros Hv Hp Hx. destruct p as [|c t]; [congruence|].
  apply ValidString_cons in Hv as [Hv _]. apply decode_lead in Hv.
  cbn [has_prefix]. rewrite bool_decide_eq_false_2; [reflexivity|].
  intros ->. lia.
Qed.

(** Nothing is found inside a run of continuation bytes. *)
Lemma find_skip_cont p : forall k s off,
  ValidString p = true -> p <> [] ->
  Forall (fun x => 0x80 <= b2z x <= 0xBF)%Z (firstn k s) ->
  find p s off = find p (skipn k s) (off + (k `min` length s)).
Proof.
  induction k as [|k IH]; intros s off Hv Hp Hc.
  - cbn. now rewrite Nat.add_0_r.
  - destruct s as [|x s]; [cbn; now rewrite Nat.add_0_r|].
    cbn [firstn] in Hc. inversion Hc as [|? ? Hx Hc']; subst.
    cbn [find skipn]. rewrite has_prefix_cont by assumption.
    rewrite IH by assumption. cbn [length]. f_equal. lia.
Qed.

Definition span_at (p : gostring) (a : nat) : nat * nat := (a, a + length p).

(** Searching a literal finds its first occurrence as a byte string. *)
Lemma search_literal p :
  ValidString p = true -> no_replacement_char p ->
  forall s off, search (literal_regexp p) (runes s) off
                = span_at p <$> find p s off.
Proof.
  intros Hv Hn s. induction s as [|c t IH] using rune_ind; intros off.
  - pose proof (match_here_literal p Hv Hn []) as M. rewrite runes_nil in *.
    cbn [search find]. rewrite M.
    destruct (has_prefix p []); reflexivity.
  - pose proof (match_here_literal p Hv Hn (c :: t)) as M.
    pose proof (decode_width c t) as W. pose proof (decode_tail c t) as T.
    rewrite runes_cons in *.
    destruct (decode (c :: t)) as [r w] eqn:D. cbn [snd] in *.
    cbn [search find]. rewrite M.
    destruct (has_prefix p (c :: t)) eqn:E; [reflexivity|].
    rewrite IH.
    assert (Hp : p <> []) by (intros ->; discriminate).
    rewrite (find_skip_cont p (Nat.pred w) t (S off) Hv Hp T).
    destruct w as [|w]; [lia|].
    cbn [Nat.pred skipn]. do 2 f_equal. cbn [length] in W. lia.
Qed.

Lemma doExecute_literal p s pos :
  ValidString p = true -> no_replacement_char p ->
  doExecute (literal_regexp p) s (Z.of_nat pos)
  = (fun a => (Z.of_nat a, Z.of_nat (a + length p))) <$> find p (skipn pos s) pos.
Proof.
  intros Hv Hn. unfold doExecute, slice_from. rewrite Nat2Z.id.
  rewrite search_literal by assumption.
  destruct (find p (skipn pos s) pos); reflexivity.
Qed.

(** What [find] finds. *)
Lemma find_spec p : forall s off a,
  find p s off = Some a ->
  off <= a /\ a - off <= length s
  /\ has_prefix p (skipn (a - off) s) = true
  /\ forall j, j < a - off -> has_prefix p (skipn j s) = false.
Proof.
  induction s as [|x s IH]; intros off a; cbn [find].
  - destruct (has_prefix p []) eqn:E; [|discriminate]. intros [= <-].
    rewrite Nat.sub_diag. cbn. repeat split; auto; lia.
  - destruct (has_prefix p (x :: s)) eqn:E.
    + intros [= <-]. rewrite Nat.sub_diag. cbn. repeat split; auto; lia.
    + intros H. apply IH in H as (H1 & H2 & H3 & H4).
      replace (a - off) with (S (a - S off)) by lia. cbn [skipn length].
      repeat split; try lia; [assumption|].
      intros [|j] Hj; [exact E|]. cbn [skipn]. apply H4. lia.
Qed.


(** *** Occurrences *)






Lemma allMatches_loop_past re s k pos prev :
  (len s < pos)%Z -> allMatches_loop re s k pos prev = [].
Proof.
  intros H. destruct k; [reflexivity|]. cbn [allMatches_loop].
  destruct (Z.leb_spec pos (len s)); [lia | reflexivity].
Qed.



(** *** Replacing a literal *)

Lemma replace_from_skip old new : forall k s,
  k <= length s -> replace_from old new s k = replace_from old new (skipn k s) 0.
Proof.
  induction k as [|k IH]; intros s Hk; [reflexivity|].
  destruct s as [|x s]; [cbn in Hk; lia|]. cbn [replace_from skipn].
  apply IH. cbn in Hk. lia.
Qed.

Lemma replace_from_none old new : forall s off,
  find old s off = None -> replace_from old new s 0 = s.
Proof.
  induction s as [|x s IH]; intros off; cbn [find replace_from].
  - destruct (has_prefix old []); [discriminate | reflexivity].
  - destruct (has_prefix old (x :: s)); [discriminate|].
    intros H. f_equal. eapply IH, H.
Qed.

Lemma replace_from_some old new : old <> [] -> forall s off a,
  find old s off = Some a ->
  replace_from old new s 0
  = firstn (a - off) s ++ new
      ++ replace_from old new (skipn (a - off + length old) s) 0.
Proof.
  intros Ho. induction s as [|x s IH]; intros off a; cbn [find replace_from].
  - destruct (has_prefix old []) eqn:E; [|discriminate].
    apply has_prefix_length in E. destruct old; [congruence | cbn in E; lia].
  - destruct (has_prefix old (x :: s)) eqn:E.
    + intros [= <-]. rewrite Nat.sub_diag. cbn [firstn app Nat.add]. f_equal.
      apply has_prefix_length in E. cbn [length] in E.
      destruct old as [|y old]; [congruence|]. cbn [length Nat.pred skipn] in *.
      apply replace_from_skip. lia.
    + intros H. pose proof (find_spec _ _ _ _ H) as (Hle & _).
      rewrite (IH _ _ H).
      replace (a - off) with (S (a - S off)) by lia. reflexivity.
Qed.

(** Where an occurrence is found after the start, it is found past the
    first rune. *)
Lemma find_past_rune p s off a :
  ValidString p = true -> p <> [] ->
  find p s off = Some a -> off < a -> off + snd (decode s) <= a.
Proof.
  intros Hv Hp F Hlt.
  pose proof (find_spec _ _ _ _ F) as (_ & Hlen & Hpre & _).
  destruct s as [|c t]; [cbn in Hlen; lia|].
  destruct (Nat.le_gt_cases (off + snd (decode (c :: t))) a) as [|Hgt]; [assumption|].
  exfalso. pose proof (decode_tail c t) as T.
  remember (a - off) as j eqn:Hj. destruct j as [|j]; [lia|].
  cbn [skipn] in Hpre.
  assert (Hj' : j < Nat.pred (snd (decode (c :: t)))) by lia.
  destruct (skipn j t) as [|x rest] eqn:Es.
  - apply has_prefix_length in Hpre. destruct p; [congruence | cbn in Hpre; lia].
  - rewrite has_prefix_cont in Hpre; [discriminate|assumption|assumption|].
    assert (Hx : t !! j = Some x).
    { pose proof (lookup_drop t j 0) as L. rewrite Es, Nat.add_0_r in L.
      symmetry. exact L. }
    apply (Forall_lookup_1 _ _ j x T). now rewrite lookup_take_lt.
Qed.

(** The first rune of a string that starts with a literal is no wider
    than the literal. *)
Lemma prefix_rune_width p s :
  ValidString p = true -> p <> [] -> has_prefix p s = true ->
  snd (decode s) <= length p.
Proof.
  intros Hv Hp (rest & ->)%has_prefix_spec.
  destruct p as [|c t]; [congruence|].
  apply ValidString_cons in Hv as [Hv _].
  destruct (split_rune c t Hv) as (Hs & Hl & Hsc).
  rewrite Hs at 1. rewrite <- app_assoc, decode_encode by assumption. cbn [snd].
  rewrite Hs at 2. rewrite length_app. lia.
Qed.

(** With a literal expression, the loop of [replaceAll] replaces the
    occurrences of the literal. *)
Lemma replaceAll_loop_literal old repl src :
  ValidString old = true -> no_replacement_char old -> old <> [] ->
  forall fuel pos buf,
    pos <= length src -> length src - pos < fuel ->
    replaceAll_loop (literal_regexp old) src repl fuel buf (Z.of_nat pos) (Z.of_nat pos)
    = buf ++ replace_from old repl (skipn pos src) 0.
Proof.
  intros Hv Hn Ho. induction fuel as [|fuel IH]; intros pos buf Hpos Hf; [lia|].
  cbn [replaceAll_loop]. unfold len at 1.
  destruct (Z.leb_spec (Z.of_nat pos) (Z.of_nat (length src))) as [_|]; [|lia].
  rewrite doExecute_literal by assumption.
  destruct (find old (skipn pos src) pos) as [a|] eqn:F; cbn [fmap option_fmap option_map].
  2: { unfold slice_from. rewrite Nat2Z.id.
       now rewrite (replace_from_none _ _ _ _ F). }
  pose proof (find_spec _ _ _ _ F) as (Hle & Hlen & Hpre & _).
  pose proof (has_prefix_length _ _ Hpre) as Hl. rewrite !length_skipn in *.
  assert (Hol : 1 <= length old) by (destruct old; [congruence | cbn; lia]).
  replace (Z.of_nat pos <? Z.of_nat (a + length old))%Z with true
    by (symmetry; apply Z.ltb_lt; lia).
  cbn [orb]. unfold slice, slice_from. rewrite Nat2Z.id.
  replace (Z.to_nat (Z.of_nat a - Z.of_nat pos)) with (a - pos) by lia.
  set (w := snd (DecodeRuneInString (skipn pos src))).
  assert (Hw : pos + w <= a + length old).
  { subst w. rewrite Decode_eq_spec. destruct (Nat.eq_dec a pos) as [->|Hne].
    - rewrite Nat.sub_diag, skipn_O in Hpre.
      pose proof (prefix_rune_width _ _ Hv Ho Hpre). lia.
    - pose proof (find_past_rune _ _ _ _ Hv Ho F ltac:(lia)). lia. }
  replace (Z.of_nat (a + length old) <? Z.of_nat pos + Z.of_nat w)%Z with false
    by (symmetry; apply Z.ltb_ge; lia).
  replace (Z.of_nat (a + length old) <? Z.of_nat pos + 1)%Z with false
    by (symmetry; apply Z.ltb_ge; lia).
  rewrite IH by lia.
  rewrite (replace_from_some old repl Ho _ _ _ F), skipn_skipn, <- !app_assoc.
  replace (a - pos + length old + pos) with (a + length old) by lia. reflexivity.
Qed.

Lemma ReplaceAllString_literal old repl src :
  ValidString old = true -> no_replacement_char old -> old <> [] ->
  ReplaceAllString (literal_regexp old) src repl = replace_all old repl src.
Proof.
  intros Hv Hn Ho. unfold ReplaceAllString, replace_all.
  pose proof (replaceAll_loop_literal old repl src Hv Hn Ho (S (S (length src))) 0 []) as L.
  change (Z.of_nat 0) with 0%Z in L. rewrite L by lia. now rewrite skipn_O.
Qed.
End LiteralFacts.

(** ** Compiling a wildcard pattern *)

Module CompileFacts.
Import Utf8 Spec Utf8Facts MatchFacts LiteralFacts.

Definition star_byte : byte := "*"%byte.
Definition question_byte : byte := "?"%byte.

(** What each byte of the pattern has become after [QuoteMeta], after the
    first replacement and after the second. *)
Definition quote_step (b : byte) : gostring :=
  if special b then [backslash; b] else [b].
Definition star_step (b : byte) : gostring :=
  if decide (b = star_byte) then str ".*" else quote_step b.
Definition wild_step (b : byte) : gostring :=
  if decide (b = question_byte) then str "." else star_step b.

Lemma special_elem b : special b = true <-> In b specialBytes.
Proof.
  unfold special. rewrite bool_decide_eq_true. apply list_elem_of_In.
Qed.

(** The special bytes are punctuation below [RuneSelf]. *)
Lemma special_punct b :
  special b = true ->
  is_ascii b = true /\ isalnum (b2z b) = false /\ b2z b <> RuneError.
Proof.
  intros H%special_elem. cbv [specialBytes str list_byte_of_string] in H.
  cbn in H. repeat (destruct H as [<-|H]; [repeat split; discriminate|]). destruct H.
Qed.

Lemma special_star : special star_byte = true.
Proof. reflexivity. Qed.
Lemma special_question : special question_byte = true.
Proof. reflexivity. Qed.
Lemma special_backslash : special backslash = true.
Proof. reflexivity. Qed.

(** *** The two replacements *)

(** No step output starts with a wildcard. *)
Definition plain_head (s : gostring) : Prop :=
  match s with
  | [] => True
  | x :: _ => x <> star_byte /\ x <> question_byte
  end.

Lemma plain_head_flat_map (g : byte -> gostring) p :
  (forall b, g b <> [] /\ plain_head (g b)) -> plain_head (flat_map g p).
Proof.
  intros Hg. destruct p as [|b p]; [exact I|]. cbn [flat_map].
  destruct (Hg b) as [Hne Hh]. destruct (g b); [congruence | exact Hh].
Qed.

Lemma quote_step_head b : quote_step b <> [] /\ plain_head (quote_step b).
Proof.
  unfold quote_step. destruct (special b) eqn:E; (split; [discriminate|]); cbn.
  - split; discriminate.
  - split; intros ->; discriminate.
Qed.

Lemma star_step_head b : star_step b <> [] /\ plain_head (star_step b).
Proof.
  unfold star_step. destruct (decide (b = star_byte)); [|apply quote_step_head].
  split; [discriminate|]. cbn. split; discriminate.
Qed.

Lemma wild_step_head b : wild_step b <> [] /\ plain_head (wild_step b).
Proof.
  unfold wild_step. destruct (decide (b = question_byte)); [|apply star_step_head].
  split; [discriminate|]. cbn. split; discriminate.
Qed.

Lemma replace_from_cons_no old new c s :
  has_prefix old (c :: s) = false ->
  replace_from old new (c :: s) 0 = c :: replace_from old new s 0.
Proof. intros H. cbn [replace_from]. now rewrite H. Qed.

Lemma has_prefix_two x y c s :
  has_prefix [x; y] (c :: s) = true <-> c = x /\ exists s', s = y :: s'.
Proof.
  rewrite has_prefix_spec. split.
  - intros (rest & [= -> ->]). eauto.
  - intros (-> & s' & ->). now exists s'.
Qed.

Lemma has_prefix_two_no x y c s :
  (c = x -> match s with z :: _ => z <> y | [] => True end) ->
  has_prefix [x; y] (c :: s) = false.
Proof.
  intros H. apply not_true_is_false. intros (-> & s' & ->)%has_prefix_two.
  now apply H.
Qed.

Lemma quote_step_special b : special b = true -> quote_step b = [backslash; b].
Proof. intros H. unfold quote_step. now rewrite H. Qed.

Lemma quote_step_plain b : special b = false -> quote_step b = [b].
Proof. intros H. unfold quote_step. now rewrite H. Qed.

Lemma star_step_star : star_step star_byte = str ".*".
Proof. reflexivity. Qed.

Lemma star_step_other b : b <> star_byte -> star_step b = quote_step b.
Proof. intros H. unfold star_step. now destruct (decide (b = star_byte)). Qed.

Lemma wild_step_question : wild_step question_byte = str ".".
Proof. reflexivity. Qed.

Lemma wild_step_other b : b <> question_byte -> wild_step b = star_step b.
Proof. intros H. unfold wild_step. now destruct (decide (b = question_byte)). Qed.

(** After the first replacement every [*] of the pattern is [.*]. *)
Lemma replace_star p :
  replace_all (str "\*") (str ".*") (flat_map quote_step p) = flat_map star_step p.
Proof.
  unfold replace_all. change (str "\*") with [backslash; star_byte].
  induction p as [|b p IH]; [reflexivity|].
  cbn [flat_map]. pose proof (plain_head_flat_map quote_step p quote_step_head) as Hh.
  destruct (decide (b = star_byte)) as [->|Hb].
  - rewrite star_step_star, quote_step_special by reflexivity. cbn [app].
    cbn [replace_from has_prefix]. rewrite !bool_decide_eq_true_2 by reflexivity.
    cbn [andb length Nat.pred]. now rewrite IH.
  - rewrite star_step_other by assumption.
    destruct (special b) eqn:Es.
    + rewrite quote_step_special by assumption. cbn [app].
      rewrite replace_from_cons_no
        by (apply has_prefix_two_no; intros _; exact Hb).
      rewrite replace_from_cons_no; [now rewrite IH|].
      apply has_prefix_two_no. intros _.
      destruct (flat_map quote_step p); [exact I | apply Hh].
    + rewrite quote_step_plain by assumption. cbn [app].
      rewrite replace_from_cons_no; [now rewrite IH|].
      apply has_prefix_two_no. intros ->. now rewrite special_backslash in Es.
Qed.

(** After the second replacement every [?] of the pattern is [.]. *)
Lemma replace_question p :
  replace_all (str "\?") (str ".") (flat_map star_step p) = flat_map wild_step p.
Proof.
  unfold replace_all. change (str "\?") with [backslash; question_byte].
  induction p as [|b p IH]; [reflexivity|].
  cbn [flat_map]. pose proof (plain_head_flat_map star_step p star_step_head) as Hh.
  destruct (decide (b = question_byte)) as [->|Hq].
  - rewrite wild_step_question, star_step_other, quote_step_special
      by (reflexivity || discriminate). cbn [app].
    cbn [replace_from has_prefix]. rewrite !bool_decide_eq_true_2 by reflexivity.
    cbn [andb length Nat.pred]. now rewrite IH.
  - rewrite wild_step_other by assumption.
    destruct (decide (b = star_byte)) as [->|Hb].
    + rewrite star_step_star. change (str ".*") with ["."%byte; star_byte]. cbn [app].
      rewrite replace_from_cons_no by (apply has_prefix_two_no; discriminate).
      rewrite replace_from_cons_no by (apply has_prefix_two_no; discriminate).
      now rewrite IH.
    + rewrite star_step_other by assumption. destruct (special b) eqn:Es.
      * rewrite quote_step_special by assumption. cbn [app].
        rewrite replace_from_cons_no
          by (apply has_prefix_two_no; intros _; exact Hq).
        rewrite replace_from_cons_no; [now rewrite IH|].
        apply has_prefix_two_no. intros _.
        destruct (flat_map star_step p); [exact I | apply Hh].
      * rewrite quote_step_plain by assumption. cbn [app].
        rewrite replace_from_cons_no; [now rewrite IH|].
        apply has_prefix_two_no. intros ->. now rewrite special_backslash in Es.
Qed.

Lemma literal_star_valid :
  MustCompile (str "\\\*") = Some (literal_regexp (str "\*"))
  /\ ValidString (str "\*") = true /\ no_replacement_char (str "\*").
Proof.
  repeat split. unfold no_replacement_char. vm_compute. intuition discriminate.
Qed.

Lemma literal_question_valid :
  MustCompile (str "\\\?") = Some (literal_regexp (str "\?"))
  /\ ValidString (str "\?") = true /\ no_replacement_char (str "\?").
Proof.
  repeat split. unfold no_replacement_char. vm_compute. intuition discriminate.
Qed.

(** The expression [compilePatterns] hands to [MustCompile]. *)
Lemma wildcardToRegex_spec p : wildcardToRegex p = Some (flat_map wild_step p).
Proof.
  unfold wildcardToRegex.
  destruct literal_star_valid as (-> & V1 & N1).
  destruct literal_question_valid as (-> & V2 & N2).
  cbn [mbind option_bind].
  rewrite !ReplaceAllString_literal by (assumption || discriminate).
  change (QuoteMeta p) with (flat_map quote_step p).
  now rewrite replace_star, replace_question.
Qed.

(** *** Parsing the rewritten pattern *)

Lemma wild_step_nonascii b : is_ascii b = false -> wild_step b = [b].
Proof.
  intros H.
  assert (Hs : special b = false).
  { destruct (special b) eqn:E; [|reflexivity].
    apply special_punct in E as (E & _). congruence. }
  rewrite wild_step_other, star_step_other, quote_step_plain; auto;
    intros ->; discriminate.
Qed.

Lemma wild_step_ascii b :
  is_ascii b = true -> exists a rest, wild_step b = a :: rest /\ is_ascii a = true.
Proof.
  intros H. unfold wild_step, star_step, quote_step.
  destruct (decide (b = question_byte)); [eauto|].
  destruct (decide (b = star_byte)); [eexists _, _; split; reflexivity|].
  destruct (special b); eauto.
Qed.

Lemma trunc_wild p : trunc (flat_map wild_step p) = trunc p.
Proof.
  induction p as [|b p IH]; [reflexivity|]. cbn [flat_map trunc].
  destruct (is_ascii b) eqn:E.
  - destruct (wild_step_ascii b E) as (a & rest & -> & Ha). cbn. now rewrite Ha.
  - rewrite wild_step_nonascii by assumption. cbn. now rewrite E, IH.
Qed.

Lemma skipn_wild k : forall p,
  Forall (fun x => 0x80 <= b2z x <= 0xBF)%Z (firstn k p) ->
  skipn k (flat_map wild_step p) = flat_map wild_step (skipn k p).
Proof.
  induction k as [|k IH]; intros p H; [reflexivity|].
  destruct p as [|b p]; [reflexivity|]. cbn [firstn] in H.
  inversion H as [|? ? Hb H']; subst. cbn [flat_map].
  rewrite wild_step_nonascii by (apply is_ascii_ge; lia).
  cbn [app skipn]. now apply IH.
Qed.

Lemma ascii_rune_valid b w : is_ascii b = true -> is_invalid (b2z b, w) = false.
Proof.
  intros H%is_ascii_lt. apply is_invalid_fst. cbn. unfold RuneError. lia.
Qed.

(** The first rune of the rewritten pattern is no [?]. *)
Lemma wild_head_rune p rw rest :
  runes (flat_map wild_step p) = rw :: rest -> fst rw <> rune_of "?".
Proof.
  destruct p as [|b p]; [discriminate|]. cbn [flat_map].
  pose proof (wild_step_head b) as [Hne Hh].
  destruct (wild_step b) as [|a l] eqn:E; [congruence|]. destruct Hh as [_ Hq].
  cbn [app]. rewrite runes_cons. intros H.
  assert (rw = decode (a :: l ++ flat_map wild_step p)) as -> by congruence.
  clear H. intros Hr.
  destruct (decode_small a (l ++ flat_map wild_step p)) as [D Ha].
  { rewrite Hr. reflexivity. }
  rewrite D in Hr. cbn [fst] in Hr. apply Hq. apply b2z_inj. exact Hr.
Qed.

Lemma parse_dot t stack lr :
  parse_loop ((rune_of ".", 1) :: t) stack lr
  = parse_loop t (One AnyCharNotNL :: stack) false.
Proof. reflexivity. Qed.

Lemma parse_star t a stack :
  match t with rw :: _ => fst rw <> rune_of "?" | [] => True end ->
  parse_loop ((rune_of "*", 1) :: t) (One a :: stack) false
  = parse_loop t (Star a :: stack) true.
Proof.
  intros H. cbn [parse_loop].
  change (is_invalid (rune_of "*", 1)) with false.
  change (unsupported_operator (rune_of "*")) with false.
  change (rune_of "*" =? rune_of "*")%Z with true. cbv iota.
  destruct t as [|[c' w'] t']; [reflexivity|].
  cbn [fst] in H. apply Z.eqb_neq in H. now rewrite H.
Qed.

Lemma parse_escape c t stack lr :
  special c = true ->
  parse_loop ((rune_of "\", 1) :: (b2z c, 1) :: t) stack lr
  = parse_loop t (One (Lit (b2z c)) :: stack) false.
Proof.
  intros (Ha & Hal & Hr)%special_punct. cbn [parse_loop].
  change (is_invalid (rune_of "\", 1)) with false.
  change (unsupported_operator (rune_of "\")) with false.
  change (rune_of "\" =? rune_of "*")%Z with false.
  change (rune_of "\" =? rune_of ".")%Z with false.
  change (rune_of "\" =? rune_of "\")%Z with true. cbv iota.
  rewrite ascii_rune_valid by assumption.
  unfold is_ascii in Ha. rewrite Ha, Hal. reflexivity.
Qed.

Lemma unsupported_special b :
  unsupported_operator (b2z b) = true -> special b = true.
Proof.
  unfold unsupported_operator. rewrite bool_decide_eq_true, list_elem_of_In, in_map_iff.
  intros (x & Hx%b2z_inj & Hin). subst x. apply special_elem.
  cbv [str list_byte_of_string] in Hin. cbn in Hin.
  repeat (destruct Hin as [<-|Hin]; [cbv; tauto|]). destruct Hin.
Qed.

Lemma unsupported_range r :
  unsupported_operator r = true -> (0 <= r < 0x80)%Z.
Proof.
  unfold unsupported_operator. rewrite bool_decide_eq_true, list_elem_of_In.
  cbv [str list_byte_of_string]. cbn.
  intros H. repeat (destruct H as [<-|H]; [lia|]). destruct H.
Qed.

Lemma parse_literal r w t stack lr :
  is_invalid (r, w) = false -> unsupported_operator r = false ->
  r <> rune_of "*" -> r <> rune_of "." -> r <> rune_of "\" ->
  parse_loop ((r, w) :: t) stack lr = parse_loop t (One (Lit r) :: stack) false.
Proof.
  intros Hi Hu H1%Z.eqb_neq H2%Z.eqb_neq H3%Z.eqb_neq. cbn [parse_loop].
  now rewrite Hi, Hu, H1, H2, H3.
Qed.

Lemma wildcard_regexp_cons c t :
  wildcard_regexp (c :: t)
  = wildcard_item (fst (decode (c :: t)))
      :: wildcard_regexp (skipn (snd (decode (c :: t))) (c :: t)).
Proof. unfold wildcard_regexp. now rewrite runes_cons. Qed.

Lemma ValidString_cons_eq c t :
  ValidString (c :: t)
  = negb (is_invalid (decode (c :: t)))
    && ValidString (skipn (snd (decode (c :: t))) (c :: t)).
Proof. unfold ValidString. now rewrite runes_cons. Qed.

(** The parser reads the rewritten pattern as the wildcard pattern says,
    and rejects exactly the patterns that are not UTF-8. *)
Lemma parse_wild p : forall stack lr,
  parse_loop (runes (flat_map wild_step p)) stack lr
  = if ValidString p then inr (rev stack ++ wildcard_regexp p)
    else inl ErrInvalidUTF8.
Proof.
  induction p as [|c t IH] using rune_ind; intros stack lr.
  - cbn. now rewrite app_nil_r.
  - rewrite ValidString_cons_eq, wildcard_regexp_cons. cbn [flat_map].
    destruct (is_ascii c) eqn:Ha.
    + (* a byte below RuneSelf is a rune of its own *)
      rewrite decode_ascii in * by now apply is_ascii_lt.
      cbn [fst snd] in *. change (skipn 1 (c :: t)) with t in *.
      rewrite ascii_rune_valid by assumption. cbn [negb andb].
      destruct (decide (c = question_byte)) as [->|Hq].
      * rewrite wild_step_question. change (str ".") with ["."%byte]. cbn [app].
        rewrite runes_ascii by reflexivity.
        change (b2z ".") with (rune_of "."). rewrite parse_dot, IH.
        destruct (ValidString t); [|reflexivity].
        cbn [rev]. now rewrite <- app_assoc.
      * rewrite wild_step_other by assumption.
        destruct (decide (c = star_byte)) as [->|Hs].
        -- rewrite star_step_star. change (str ".*") with ["."%byte; star_byte].
           cbn [app]. rewrite !runes_ascii by reflexivity.
           change (b2z ".") with (rune_of "."). change (b2z star_byte) with (rune_of "*").
           rewrite parse_dot, parse_star, IH.
           ++ destruct (ValidString t); [|reflexivity].
              cbn [rev]. now rewrite <- app_assoc.
           ++ destruct (runes (flat_map wild_step t)) as [|rw rest] eqn:R; [exact I|].
              eapply wild_head_rune, R.
        -- rewrite star_step_other by assumption.
           assert (Hitem : wildcard_item (b2z c) = One (Lit (b2z c))).
           { unfold wildcard_item.
             destruct (Z.eqb_spec (b2z c) (rune_of "*")) as [E|_];
               [apply (b2z_inj c star_byte) in E; congruence|].
             destruct (Z.eqb_spec (b2z c) (rune_of "?")) as [E|_];
               [apply (b2z_inj c question_byte) in E; congruence|].
             reflexivity. }
           rewrite Hitem. destruct (special c) eqn:Es.
           ++ rewrite quote_step_special by assumption. cbn [app].
              rewrite !runes_ascii by (assumption || reflexivity).
              change (b2z backslash) with (rune_of "\").
              rewrite parse_escape, IH by assumption.
              destruct (ValidString t); [|reflexivity].
              cbn [rev]. now rewrite <- app_assoc.
           ++ rewrite quote_step_plain by assumption. cbn [app].
              rewrite runes_ascii by assumption.
              rewrite parse_literal, IH.
              ** destruct (ValidString t); [|reflexivity].
                 cbn [rev]. now rewrite <- app_assoc.
              ** now apply ascii_rune_valid.
              ** destruct (unsupported_operator (b2z c)) eqn:U; [|reflexivity].
                 apply unsupported_special in U. congruence.
              ** intros E. apply (b2z_inj c star_byte) in E. congruence.
              ** intros E. apply (b2z_inj c "."%byte) in E. subst c. discriminate.
              ** intros E. apply (b2z_inj c backslash) in E. subst c. discriminate.
    + (* a leading byte: the decoder reads on into the rest *)
      rewrite wild_step_nonascii by assumption. cbn [app].
      rewrite runes_cons.
      rewrite (decode_same_trunc c _ t (trunc_wild t)).
      pose proof (decode_tail c t) as T. pose proof (decode_width c t) as W.
      assert (Hlarge : (0x80 <= fst (decode (c :: t)))%Z).
      { destruct (Z.lt_ge_cases (fst (decode (c :: t))) 0x80) as [Hlt|]; [|assumption].
        apply decode_small in Hlt as [_ Hlt]. apply is_ascii_ge in Ha. lia. }
      destruct (decode (c :: t)) as [r w] eqn:D. cbn [fst snd] in *.
      destruct (is_invalid (r, w)) eqn:Hi; cbn [negb andb].
      * cbn [parse_loop]. now rewrite Hi.
      * assert (Hskip : skipn w (c :: flat_map wild_step t)
                        = flat_map wild_step (skipn w (c :: t))).
        { destruct w as [|w]; [lia|]. cbn [skipn Nat.pred] in *. now apply skipn_wild. }
        rewrite Hskip, parse_literal, IH.
        -- assert (Hitem : wildcard_item r = One (Lit r)).
           { unfold wildcard_item.
             destruct (Z.eqb_spec r (rune_of "*")) as [E|_];
               [rewrite E in Hlarge; cbv in Hlarge; congruence|].
             destruct (Z.eqb_spec r (rune_of "?")) as [E|_];
               [rewrite E in Hlarge; cbv in Hlarge; congruence|].
             reflexivity. }
           rewrite Hitem. destruct (ValidString _); [|reflexivity].
           cbn [rev]. now rewrite <- app_assoc.
        -- assumption.
        -- destruct (unsupported_operator r) eqn:U; [|reflexivity].
           apply unsupported_range in U. lia.
        -- intros E. rewrite E in Hlarge. cbv in Hlarge. congruence.
        -- intros E. rewrite E in Hlarge. cbv in Hlarge. congruence.
        -- intros E. rewrite E in Hlarge. cbv in Hlarge. congruence.
Qed.

(** [compilePatterns] compiles a pattern to what the wildcards mean, and
    panics exactly on the patterns that are not UTF-8. *)
Lemma compilePattern_spec p :
  compilePattern p = if ValidString p then Some (wildcard_regexp p) else None.
Proof.
  unfold compilePattern. rewrite wildcardToRegex_spec. cbn [mbind option_bind].
  unfold MustCompile, Parse. rewrite parse_wild.
  destruct (ValidString p); reflexivity.
Qed.
End CompileFacts.

(** ** [compilePatterns] and [scanFile] *)

Module ProgramFacts.
Import Utf8 Spec Utf8Facts MatchFacts LiteralFacts CompileFacts.

(** The extension map after the loop over the queries. *)
Definition add_extensions (extensions : gmap gostring bool) (q : Query)
  : gmap gostring bool :=
  foldl (fun exts ext => <[ext := true]> exts) extensions (Extensions q).

(** The loop of [compilePatterns], from any state of its three variables. *)
Lemma compilePatterns_loop queries : forall ps os exts,
  foldl
    (fun acc q =>
       '(patterns, originalPatterns, extensions) ← acc;
       re ← compilePattern (Pattern q);
       Some (patterns ++ [re], originalPatterns ++ [Pattern q],
             foldl (fun exts ext => <[ext := true]> exts) extensions (Extensions q)))
    (Some (ps, os, exts)) queries
  = res ← mapM (fun q => compilePattern (Pattern q)) queries;
    Some (ps ++ res, os ++ map Pattern queries, foldl add_extensions exts queries).
Proof.
  induction queries as [|q queries IH]; intros ps os exts.
  - cbn. now rewrite !app_nil_r.
  - cbn [foldl mapM map mbind option_bind].
    destruct (compilePattern (Pattern q)) as [re|] eqn:E; cbn [mbind option_bind].
    + rewrite IH. cbn [mret option_ret fmap option_fmap option_map].
      destruct (mapM _ queries) as [res|]; cbn; [|reflexivity].
      now rewrite <- !app_assoc.
    + clear IH. induction queries as [|q' queries IH]; [reflexivity|]. exact IH.
Qed.

Lemma compilePatterns_spec queries :
  compilePatterns queries
  = res ← mapM (fun q => compilePattern (Pattern q)) queries;
    Some (res, map Pattern queries, foldl add_extensions ∅ queries).
Proof. unfold compilePatterns. now rewrite compilePatterns_loop. Qed.

(** How to evaluate [compilePatterns] without evaluating the map. *)
Lemma compilePatterns_eval queries res :
  mapM (fun q => compilePattern (Pattern q)) queries = Some res ->
  compilePatterns queries
  = Some (res, map Pattern queries, foldl add_extensions ∅ queries).
Proof. intros H. rewrite compilePatterns_spec, H. reflexivity. Qed.

Lemma compilePatterns_inv queries ps os exts :
  compilePatterns queries = Some (ps, os, exts) ->
  Forall2 (fun q re => compilePattern (Pattern q) = Some re) queries ps
  /\ os = map Pattern queries
  /\ exts = foldl add_extensions ∅ queries.
Proof.
  rewrite compilePatterns_spec.
  destruct (mapM _ queries) as [res|] eqn:E; [|discriminate].
  cbn. intros [= <- <- <-]. split; [|auto].
  apply mapM_Some in E. exact E.
Qed.

(** *** [scanFile] *)

Definition result_of (filePath repository : gostring) (lineNum : Z) (line : gostring)
           (m : MatchInfo) : SearchResult :=
  {| FilePath := filePath; LineNumber := lineNum; LineText := line;
     Repository := repository; Match := m |}.

Lemma scanLine_spec filePath repository lineNum line os : forall ps i rest,
  drop i os = rest -> length rest = length ps ->
  scanLine filePath repository lineNum line ps os i
  = Some (line_results filePath repository lineNum line (zip ps rest)).
Proof.
  induction ps as [|p ps IH]; intros i rest Hd Hl; [reflexivity|].
  destruct rest as [|o rest]; [discriminate|]. cbn [scanLine].
  assert (Ho : os !! i = Some o).
  { pose proof (lookup_drop os i 0) as L. rewrite Hd, Nat.add_0_r in L. now symmetry. }
  rewrite Ho. cbn [mbind option_bind].
  rewrite (IH (S i) rest).
  - reflexivity.
  - rewrite <- (Nat.add_1_r i), <- drop_drop, Hd. reflexivity.
  - cbn in Hl. lia.
Qed.

Lemma scanLines_spec filePath repository ps os :
  length os = length ps ->
  forall lines n,
    scanLines filePath repository n lines ps os
    = Some (flat_map (fun nl => line_results filePath repository (fst nl) (snd nl) (zip ps os))
                     (imap (fun i line => (n + Z.of_nat i + 1, line)%Z) lines)).
Proof.
  intros Hl. induction lines as [|line lines IH]; intros n; [reflexivity|].
  cbn [scanLines]. rewrite (scanLine_spec _ _ _ _ os ps 0 os) by (auto using drop_0).
  cbn [mbind option_bind]. rewrite IH. cbn [mbind option_bind imap flat_map fst snd].
  rewrite Z.add_0_r. do 3 f_equal.
  apply imap_ext. intros i x _. cbn. f_equal. lia.
Qed.

(** [scanFile] sends the results the specification lists; with as many
    original patterns as patterns it does not panic. *)
Lemma scanFile_spec content filePath repository ps os :
  length os = length ps ->
  scanFile (Some content) filePath ps os repository
  = Some (file_results filePath repository (Scan content []) (zip ps os)).
Proof.
  intros Hl. unfold scanFile, file_results, numbered.
  rewrite scanLines_spec by assumption. do 2 f_equal.
Qed.

Lemma scanFile_total opened filePath repository ps os :
  length os = length ps ->
  exists out, scanFile opened filePath ps os repository = Some out.
Proof.
  intros Hl. destruct opened as [content|]; [|now exists []].
  rewrite scanFile_spec by assumption. eauto.
Qed.

(** Each result names its line, its number and the pattern that matched. *)
Lemma file_results_elem filePath repository lines compiled r :
  In r (file_results filePath repository lines compiled) <->
  exists n line i po,
    lines !! n = Some line /\ compiled !! i = Some po
    /\ In (Match r) (findMatchPositions line (fst po) (snd po))
    /\ r = result_of filePath repository (Z.of_nat n + 1) line (Match r).
Proof.
  unfold file_results, numbered, line_results. rewrite in_flat_map. split.
  - intros ([n line] & Hnl & Hr).
    apply list_elem_of_In, list_elem_of_lookup in Hnl as [k Hk].
    rewrite list_lookup_imap in Hk.
    destruct (lines !! k) as [line'|] eqn:Hline; [|discriminate].
    cbn in Hk. injection Hk as <- <-. cbn [fst snd] in Hr.
    apply in_flat_map in Hr as (po & Hpo & Hr).
    apply list_elem_of_In, list_elem_of_lookup in Hpo as [i Hi].
    apply in_map_iff in Hr as (m & <- & Hm).
    exists k, line', i, po. cbn. auto.
  - intros (n & line & i & po & Hn & Hi & Hm & Hr).
    exists (Z.of_nat n + 1, line)%Z. split.
    + apply list_elem_of_In, list_elem_of_lookup. exists n.
      rewrite list_lookup_imap, Hn. reflexivity.
    + cbn [fst snd]. apply in_flat_map. exists po. split.
      * apply list_elem_of_In, list_elem_of_lookup. eauto.
      * apply in_map_iff. exists (Match r). split; [now rewrite Hr | exact Hm].
Qed.

(** The lines a scanner delivers hold no newline. *)
Lemma Scan_no_newline data : forall buf line,
  ~ In newline_byte buf -> In line (Scan data buf) -> ~ In newline_byte line.
Proof.
  assert (Hdrop : forall buf, ~ In newline_byte buf -> ~ In newline_byte (dropCR buf)).
  { intros buf Hb. unfold dropCR. destruct (decide _); [|assumption].
    intros Hin. apply Hb. destruct buf as [|x buf] using rev_ind; [destruct Hin|].
    rewrite removelast_last in Hin. apply in_or_app. now left. }
  induction data as [|b data IH]; intros buf line Hb; cbn [Scan].
  - destruct (maxTokenSize <=? len buf)%Z; [intros []|].
    destruct buf; [intros []|]. intros [<-|[]]. now apply Hdrop.
  - destruct (maxTokenSize <=? len buf)%Z; [intros []|].
    destruct (decide (b = newline_byte)) as [Heq|Hne].
    + intros [<-|Hin]; [now apply Hdrop|]. eapply IH; [|exact Hin]. intros [].
    + apply IH. intros [Hin|[Hin|[]]]%in_app_or; [now apply Hb | now apply Hne].
Qed.
End ProgramFacts.

(** ** The line matcher and the pattern compiler: claims C1, C2, C3, C6, C10 *)

Module MatcherClaims.
Import Utf8 Spec Utf8Facts MatchFacts LiteralFacts CompileFacts ProgramFacts.

Lemma In_skipn {A} (x : A) n l : In x (skipn n l) -> In x l.
Proof.
  intros H. rewrite <- (firstn_skipn n l). apply in_or_app. now right.
Qed.

(** The rune [*] is the byte [*], and likewise [?]. *)
Lemma rune_is_byte c t (b : byte) :
  is_ascii b = true -> fst (decode (c :: t)) = b2z b ->
  c = b /\ snd (decode (c :: t)) = 1.
Proof.
  intros Hb Hr. destruct (decode_small c t) as [D Hc].
  - rewrite Hr. now apply is_ascii_lt.
  - rewrite D in *. cbn [fst snd] in *. split; [now apply b2z_inj | reflexivity].
Qed.



Lemma compilePattern_Some p re :
  compilePattern p = Some re -> ValidString p = true /\ re = wildcard_regexp p.
Proof.
  rewrite compilePattern_spec. destruct (ValidString p); [|discriminate].
  intros [= <-]. auto.
Qed.








(** C6: [compilePatterns] returns as many patterns as there are queries,
    in their order, and every result of [scanFile] carries the original
    pattern of the query whose compiled pattern matched. *)
Theorem patterns_follow_queries (queries : list Query) (ps : list Regexp)
        (os : list gostring) (exts : gmap gostring bool) :
  compilePatterns queries = Some (ps, os, exts) ->
  length ps = length queries
  /\ os = map Pattern queries
  /\ (forall i q, queries !! i = Some q ->
        exists re, ps !! i = Some re /\ compilePattern (Pattern q) = Some re)
  /\ (forall opened filePath repository out r,
        scanFile opened filePath ps os repository = Some out -> In r out ->
        exists i q re,
          queries !! i = Some q /\ ps !! i = Some re
          /\ compilePattern (Pattern q) = Some re
          /\ MPattern (Match r) = Pattern q
          /\ In (Match r) (findMatchPositions (LineText r) re (Pattern q))).
Proof.
  intros (F & -> & _)%compilePatterns_inv.
  pose proof (Forall2_length _ _ _ F) as Hlen.
  assert (Hi : forall i q, queries !! i = Some q ->
                exists re, ps !! i = Some re /\ compilePattern (Pattern q) = Some re).
  { intros i q Hq. destruct (Forall2_lookup_l _ _ _ _ _ F Hq) as (re & Hre & Hc). eauto. }
  repeat split; auto.
  intros [content|] filePath repository out r; [|intros [= <-] []].
  rewrite scanFile_spec by (rewrite length_map; lia).
  intros [= <-] (n & line & i & [re o] & Hn & Hpo & Hm & Hr)%file_results_elem.
  apply lookup_zip_with_Some in Hpo as (re' & o' & [= <- <-] & Hre & Ho).
  rewrite list_lookup_fmap in Ho.
  destruct (queries !! i) as [q|] eqn:Hq; [|discriminate]. injection Ho as <-.
  destruct (Hi i q Hq) as (re'' & Hre'' & Hc).
  assert (re'' = re) as -> by congruence.
  cbn [fst snd] in Hm. pose proof (findMatchPositions_bound _ _ _ _ Hm) as (Hp & _).
  exists i, q, re. rewrite Hr. cbn. auto.
Qed.

Lemma patterns_follow_queries_witness :
  let queries := [{| Pattern := str "a*b"; Extensions := [str ".go"] |};
                  {| Pattern := str "TODO:"; Extensions := [str ".ts"] |}] in
  exists ps os exts,
    compilePatterns queries = Some (ps, os, exts)
    /\ length ps = length queries /\ os = map Pattern queries.
Proof.
  cbv zeta. eexists _, _, _.
  split; [apply compilePatterns_eval; vm_compute; reflexivity|].
  split; eapply patterns_follow_queries; apply compilePatterns_eval;
    vm_compute; reflexivity.
Defined.



(** Patterns with backslashes, brackets and the empty pattern compile. *)
Example awkward_patterns_compile :
  compilePattern (str "a\b[c]{d}(e)|^$+.") <> None
  /\ compilePattern [] = Some [].
Proof. split; [vm_compute; discriminate | reflexivity]. Qed.
End MatcherClaims.

(** ** Scanning a file and choosing the files: claims C4 and C5 *)

Module ScanClaims.
Import Utf8 Spec Utf8Facts MatchFacts ProgramFacts MatcherClaims.

Definition todo_queries : list Query :=
  [{| Pattern := str "TODO:"; Extensions := [str ".go"] |}].

(** [line1\nTODO: fix\nline3]. *)
Definition todo_content : gostring :=
  str "line1" ++ [newline_byte] ++ str "TODO: fix" ++ [newline_byte] ++ str "line3".

Definition todo_result (filePath repository : gostring) : SearchResult :=
  {| FilePath := filePath; LineNumber := 2; LineText := str "TODO: fix";
     Repository := repository;
     Match := {| MPattern := str "TODO:"; StartIndex := 0; EndIndex := 5 |} |}.

(** C4: [scanFile] numbers the lines from one, tries every compiled
    pattern in order on each line and sends one result per span, with the
    path, the line number, the whole line and the repository; a line
    without a match gives nothing.  For the query [TODO:] and the file
    [line1\nTODO: fix\nline3] there is exactly one result: line 2,
    [TODO: fix], pattern [TODO:], span (0,5). *)
Theorem scanFile_results :
  (forall queries ps os exts content filePath repository,
      compilePatterns queries = Some (ps, os, exts) ->
      scanFile (Some content) filePath ps os repository
      = Some (file_results filePath repository (Scan content []) (zip ps os)))
  /\ (forall filePath repository lines compiled r,
        In r (file_results filePath repository lines compiled) <->
        exists n line i po,
          lines !! n = Some line /\ compiled !! i = Some po
          /\ In (Match r) (findMatchPositions line (fst po) (snd po))
          /\ r = {| FilePath := filePath; LineNumber := Z.of_nat n + 1;
                    LineText := line; Repository := repository; Match := Match r |})
  /\ (exists ps os exts,
        compilePatterns todo_queries = Some (ps, os, exts)
        /\ scanFile (Some todo_content) (str "x.go") ps os (str "repo")
           = Some [todo_result (str "x.go") (str "repo")]).
Proof.
  split; [|split].
  - intros queries ps os exts content filePath repository H.
    apply compilePatterns_inv in H as (F & -> & _).
    apply scanFile_spec. rewrite length_map. eapply Forall2_length, F.
  - exact file_results_elem.
  - eexists _, _, _. split; [apply compilePatterns_eval; vm_compute; reflexivity|].
    vm_compute. reflexivity.
Qed.

Lemma scanFile_results_witness :
  compilePatterns todo_queries
  = Some ([wildcard_regexp (str "TODO:")], [str "TODO:"],
          foldl add_extensions ∅ todo_queries)
  /\ scanFile (Some todo_content) (str "x.go")
              [wildcard_regexp (str "TODO:")] [str "TODO:"] (str "repo")
     = Some [todo_result (str "x.go") (str "repo")].
Proof.
  assert (H : compilePatterns todo_queries
              = Some ([wildcard_regexp (str "TODO:")], [str "TODO:"],
                      foldl add_extensions ∅ todo_queries)).
  { apply compilePatterns_eval. vm_compute. reflexivity. }
  split; [exact H|].
  rewrite (proj1 scanFile_results _ _ _ _ todo_content (str "x.go") (str "repo") H).
  vm_compute. reflexivity.
Defined.

(** *** The walk *)

(** Induction on a tree of entries. *)
Fixpoint node_induction (P : node -> Prop)
         (HFile : P File)
         (HDir : forall entries, Forall (fun e => P (snd e)) entries -> P (Dir entries))
         (HUnreadable : P DirUnreadable) (HBroken : P Broken) (n : node) : P n :=
  match n with
  | File => HFile
  | DirUnreadable => HUnreadable
  | Broken => HBroken
  | Dir entries =>
    HDir entries
         ((fix all (es : list (gostring * node)) : Forall (fun e => P (snd e)) es :=
             match es with
             | [] => List.Forall_nil _
             | (name, child) :: es' =>
               List.Forall_cons _ (name, child) es'
                 (node_induction P HFile HDir HUnreadable HBroken child) (all es')
             end) entries)
  end.

Lemma located_leaf dir n path n' :
  (forall entries, n <> Dir entries) ->
  located dir n path n' -> path = dir /\ n' = n.
Proof.
  intros Hn H. inversion H; subst; [auto|]. now destruct (Hn entries).
Qed.

Lemma located_Dir dir entries path n :
  located dir (Dir entries) path n <->
  (path = dir /\ n = Dir entries)
  \/ exists name child, In (name, child) entries
                        /\ located (Join dir name) child path n.
Proof.
  split.
  - intros H. inversion H; subst; [now left|]. right. eauto.
  - intros [[-> ->]|(name & child & Hin & H)]; [constructor|].
    econstructor; eassumption.
Qed.

Lemma Walk_Dir {A} (walkFn : gostring -> bool -> bool -> list A) dir entries :
  Walk walkFn dir (Dir entries)
  = walkFn dir true false
    ++ flat_map (fun e => Walk walkFn (Join dir (fst e)) (snd e)) entries.
Proof.
  cbn [Walk]. f_equal.
  induction entries as [|[name child] entries IH]; [reflexivity|].
  cbn [flat_map fst snd]. now rewrite IH.
Qed.

(** [walkRepository] starts a scan for the entries that are not
    directories, were read without error, and have an accepted
    extension. *)
Lemma walkRepository_elem exts root : forall repoPath path,
  In path (walkRepository repoPath root exts) <->
  located repoPath root path File /\ map_get exts (Ext path) = true.
Proof.
  unfold walkRepository.
  induction root as [|entries IH| |] using node_induction; intros repoPath path.
  - cbn [Walk negb andb]. split.
    + destruct (map_get exts (Ext repoPath)) eqn:E; [|intros []].
      intros [<-|[]]. split; [constructor | exact E].
    + intros [[-> _]%located_leaf E]; [|discriminate]. rewrite E. now left.
  - rewrite Walk_Dir. cbn [negb andb app]. rewrite in_flat_map, located_Dir. split.
    + intros ([name child] & Hin & Hp). cbn [fst snd] in Hp.
      rewrite Forall_forall in IH. apply (IH _ (proj2 (list_elem_of_In _ _) Hin)) in Hp.
      destruct Hp as [Hl E]. split; [|exact E]. right. eauto.
    + intros [[[_ [=]]|(name & child & Hin & Hl)] E].
      exists (name, child). split; [exact Hin|]. cbn [fst snd].
      rewrite Forall_forall in IH. apply (IH _ (proj2 (list_elem_of_In _ _) Hin)). auto.
  - cbn [Walk]. split; [intros [] | intros [[_ [=]]%located_leaf _]; discriminate].
  - cbn [Walk]. split; [intros [] | intros [[_ [=]]%located_leaf _]; discriminate].
Qed.

(** *** The extension map *)

Lemma map_get_insert (m : gmap gostring bool) k ext :
  map_get (<[k := true]> m) ext = true <-> k = ext \/ map_get m ext = true.
Proof.
  unfold map_get. destruct (decide (k = ext)) as [->|Hne].
  - rewrite lookup_insert_eq. cbn. tauto.
  - rewrite lookup_insert_ne by assumption. split; [auto | intros [?|?]; congruence].
Qed.

Lemma map_get_add_list l : forall (m : gmap gostring bool) ext,
  map_get (foldl (fun exts e => <[e := true]> exts) m l) ext = true
  <-> map_get m ext = true \/ In ext l.
Proof.
  induction l as [|k l IH]; intros m ext; cbn [foldl In]; [tauto|].
  rewrite IH, map_get_insert. intuition auto.
Qed.

Lemma map_get_add_queries queries : forall (m : gmap gostring bool) ext,
  map_get (foldl add_extensions m queries) ext = true
  <-> map_get m ext = true \/ accepted queries ext.
Proof.
  unfold accepted.
  induction queries as [|q queries IH]; intros m ext; cbn [foldl].
  - split; [auto | intros [?|(q & [] & _)]; assumption].
  - rewrite IH. unfold add_extensions at 1. rewrite map_get_add_list. split.
    + intros [[?|?]|(q' & Hin & He)]; [auto | right; exists q; cbn; auto |].
      right. exists q'. cbn. auto.
    + intros [?|(q' & [<-|Hin] & He)]; [auto | auto |]. right. eauto.
Qed.

(** The map of [compilePatterns] holds the union of the extension lists. *)
Lemma extensions_accepted queries ps os exts ext :
  compilePatterns queries = Some (ps, os, exts) ->
  map_get exts ext = true <-> accepted queries ext.
Proof.
  intros (_ & _ & ->)%compilePatterns_inv. rewrite map_get_add_queries.
  unfold map_get. rewrite lookup_empty. cbn. intuition discriminate.
Qed.

(** [filepath.Ext] of a path is the extension of its last element. *)
Lemma Ext_Join name dir :
  ~ In separator name -> In dot name -> Ext (Join dir name) = Ext name.
Proof.
  intros Hsep Hdot. unfold Ext, Join.
  rewrite rev_app_distr. cbn [rev]. rewrite <- app_assoc.
  assert (G : forall l acc rest, ~ In separator l -> In dot l ->
                ext_loop (l ++ rest) acc = ext_loop l acc).
  { induction l as [|c l IH]; intros acc rest Hs Hd; [destruct Hd|].
    cbn [app ext_loop].
    destruct (decide (c = separator)) as [->|_]; [exfalso; apply Hs; now left|].
    destruct (decide (c = dot)) as [_|Hcd]; [reflexivity|].
    apply IH; [intros H; apply Hs; now right|].
    destruct Hd as [?|?]; [congruence | assumption]. }
  apply G; [intros H%in_rev | apply in_rev; now rewrite rev_involutive];
    rewrite ?rev_involutive in *; auto.
Qed.
End ScanClaims.

(** ** The run: invariants of the goroutines *)

Module RunFacts.
Import Spec ProgramFacts ScanClaims Run.

Section Invariant.
Variable w : World.
Variable ps : list Regexp.
Variable os : list gostring.

(** What the goroutine started by an action sends. *)
Definition output (a : action) : list SearchResult :=
  match a with
  | Spawn path repository =>
    default [] (scanFile (Open w path) path ps os repository)
  | _ => []
  end.

Definition outputs (acts : list action) : list SearchResult := flat_map output acts.

(** Every result of the run: collected, in the channel, still to be sent
    by a running scanner, or to be produced by a scanner not yet started. *)
Definition pending (s : state) : list SearchResult :=
  results s ++ chan s ++ concat (scanners s) ++ outputs (walker s).

(** What holds in every state of a run of the program [prog]. *)
Record Inv (prog : list action) (s : state) : Prop := {
  inv_pending : pending s ≡ₚ outputs prog;
  inv_wg : wg s = length (scanners s);
  inv_closed : closed s = true -> walker s = [] /\ scanners s = [];
  inv_finished : finished s = true -> closed s = true /\ chan s = [];
  inv_log : log s ++ walker s = prog
}.

Lemma Inv_init prog : Inv prog (mkState prog 0 [] [] false [] false []).
Proof. split; cbn; auto; discriminate. Qed.

Lemma outputs_cons a acts : outputs (a :: acts) = output a ++ outputs acts.
Proof. reflexivity. Qed.

Lemma step_Inv prog s s' : Inv prog s -> step w ps os s s' -> Inv prog s'.
Proof.
  intros [Hp Hw Hc Hf Hl] Hs.
  destruct Hs; unfold pending in *; cbn [results chan scanners walker wg closed
                                         finished log] in *.
  - (* enter *)
    split; cbn; auto.
    + intros H. destruct (Hc H); discriminate.
    + now rewrite <- app_assoc.
  - (* spawn *)
    split; cbn; auto.
    + rewrite outputs_cons in Hp. cbn [output] in Hp. rewrite H in Hp. cbn in Hp.
      rewrite concat_app. cbn [concat]. rewrite app_nil_r, <- Hp. solve_Permutation.
    + rewrite length_app. cbn. lia.
    + intros H'. destruct (Hc H'); discriminate.
    + now rewrite <- app_assoc.
  - (* leave *)
    split; cbn; auto.
    + intros H. destruct (Hc H); discriminate.
    + now rewrite <- app_assoc.
  - (* send *)
    split; cbn; auto.
    + rewrite concat_app in *. cbn [concat] in *. rewrite <- Hp. solve_Permutation.
    + rewrite length_app in *. cbn in *. lia.
    + intros H'. destruct (Hc H') as [_ Hn]. now destruct scs1.
    + intros H'. destruct (Hf H') as [H1 _]. destruct (Hc H1) as [_ Hn]. now destruct scs1.
  - (* done *)
    split; cbn; auto.
    + rewrite concat_app in *. cbn [concat] in *. rewrite <- Hp. solve_Permutation.
    + rewrite length_app in *. cbn in *. lia.
    + intros H'. destruct (Hc H') as [_ Hn]. now destruct scs1.
  - (* close *)
    split; cbn; auto.
    + intros _. split; [reflexivity|]. now destruct scs.
    + intros H. now destruct (Hf H).
  - (* receive *)
    split; cbn; auto.
    + rewrite <- Hp. solve_Permutation.
    + discriminate.
  - (* finish *)
    split; cbn; auto.
Qed.

Lemma steps_Inv prog s s' : Inv prog s -> steps w ps os s s' -> Inv prog s'.
Proof.
  intros Hi Hs. induction Hs as [|s1 s2 s3 Hs IH Hstep]; [assumption|].
  eapply step_Inv; [apply IH, Hi | exact Hstep].
Qed.

(** When the collecting loop has ended, it has collected every result of
    every scanner. *)
Lemma finished_results prog s :
  Inv prog s -> finished s = true -> results s ≡ₚ outputs prog.
Proof.
  intros [Hp _ Hc Hf _] H. destruct (Hf H) as [Hcl Hch].
  destruct (Hc Hcl) as [Hwk Hsc]. unfold pending in Hp.
  rewrite Hch, Hsc, Hwk in Hp. cbn in Hp. now rewrite app_nil_r in Hp.
Qed.

(** *** A run to the end *)

Lemma steps_trans s1 s2 s3 :
  steps w ps os s1 s2 -> steps w ps os s2 s3 -> steps w ps os s1 s3.
Proof.
  intros H12 H23. induction H23 as [|s2 s3 s4 H23 IH Hstep]; [assumption|].
  eapply steps_step; [apply IH, H12 | exact Hstep].
Qed.

Lemma steps_one s1 s2 : step w ps os s1 s2 -> steps w ps os s1 s2.
Proof. intros H. eapply steps_step; [apply steps_refl | exact H]. Qed.

(** The walker can run to [wg.Wait()], whatever the others do. *)
Lemma walker_runs : length os = length ps ->
  forall acts n scs res lg,
  exists scs',
    steps w ps os (mkState acts n scs [] false res false lg)
                  (mkState [] (n + length scs') (scs ++ scs') [] false res false
                           (lg ++ acts))
    /\ concat scs' = outputs acts.
Proof.
  intros Hlen. induction acts as [|a acts IH]; intros n scs res lg.
  - exists []. rewrite !app_nil_r, Nat.add_0_r. split; [apply steps_refl | reflexivity].
  - destruct a as [name|path repo|name].
    + destruct (IH n scs res (lg ++ [EnterRepo name])) as (scs' & Hs & Ho).
      exists scs'. split; [|exact Ho].
      eapply steps_trans; [apply steps_one, step_enter|].
      now rewrite <- app_assoc in Hs.
    + destruct (scanFile_total (Open w path) path repo ps os Hlen) as [out Hout].
      destruct (IH (S n) (scs ++ [out]) res (lg ++ [Spawn path repo])) as (scs' & Hs & Ho).
      exists (out :: scs'). split.
      * eapply steps_trans; [apply steps_one, step_spawn, Hout|].
        rewrite <- !app_assoc in Hs. cbn [app length] in *.
        now rewrite Nat.add_succ_r.
      * cbn [concat]. rewrite outputs_cons, Ho. cbn [output]. now rewrite Hout.
    + destruct (IH n scs res (lg ++ [LeaveRepo name])) as (scs' & Hs & Ho).
      exists scs'. split; [|exact Ho].
      eapply steps_trans; [apply steps_one, step_leave|].
      now rewrite <- app_assoc in Hs.
Qed.

(** One scanner sends all it has, the collecting loop taking each result
    as it arrives. *)
Lemma scanner_drains wk n scs cl lg : forall out res,
  steps w ps os (mkState wk n (out :: scs) [] cl res false lg)
                (mkState wk n ([] :: scs) [] cl (res ++ out) false lg).
Proof.
  induction out as [|r out IH]; intros res.
  - rewrite app_nil_r. apply steps_refl.
  - eapply steps_trans.
    { apply steps_one. apply (step_send w ps os r out [] scs). cbn. unfold chanCap. lia. }
    eapply steps_trans; [apply steps_one, step_recv|].
    cbn [app]. replace (res ++ r :: out) with ((res ++ [r]) ++ out)
      by (now rewrite <- app_assoc).
    apply IH.
Qed.

Lemma scanners_drain lg : forall scs res,
  steps w ps os (mkState [] (length scs) scs [] false res false lg)
                (mkState [] 0 [] [] false (res ++ concat scs) false lg).
Proof.
  induction scs as [|out scs IH]; intros res.
  - rewrite app_nil_r. apply steps_refl.
  - cbn [length concat]. eapply steps_trans; [apply scanner_drains|].
    eapply steps_trans; [apply steps_one, (step_done w ps os [] scs)|].
    cbn [app]. rewrite app_assoc. apply IH.
Qed.

(** Some run reaches the end: no schedule is needed that the model does
    not have. *)
Lemma run_to_end prog : length os = length ps ->
  exists s, steps w ps os (mkState prog 0 [] [] false [] false []) s
            /\ finished s = true /\ results s = outputs prog.
Proof.
  intros Hlen. destruct (walker_runs Hlen prog 0 [] [] []) as (scs & Hs & Ho).
  cbn [app Nat.add] in Hs.
  exists (mkState [] 0 [] [] true ([] ++ concat scs) true prog).
  split; [|split; [reflexivity | exact Ho]].
  eapply steps_trans; [exact Hs|].
  eapply steps_trans; [apply scanners_drain|].
  eapply steps_trans; [apply steps_one, step_close|].
  apply steps_one, step_finish.
Qed.
End Invariant.

(** *** Runs of the program *)

Lemma completes_results w queries res :
  completes w queries res ->
  exists ps os exts,
    compilePatterns queries = Some (ps, os, exts)
    /\ res ≡ₚ outputs w ps os (walkerProgram w exts).
Proof.
  intros (ps & os & exts & s & Hc & Hs & Hf & <-).
  exists ps, os, exts. split; [exact Hc|].
  eapply finished_results; [|exact Hf].
  eapply steps_Inv; [apply Inv_init | exact Hs].
Qed.

Lemma compiled_lengths queries ps os exts :
  compilePatterns queries = Some (ps, os, exts) -> length os = length ps.
Proof.
  intros (F & -> & _)%compilePatterns_inv. rewrite length_map.
  eapply Forall2_length, F.
Qed.

(** Every configuration that compiles has a complete run. *)
Lemma run_exists w queries ps os exts :
  compilePatterns queries = Some (ps, os, exts) ->
  completes w queries (outputs w ps os (walkerProgram w exts)).
Proof.
  intros Hc. destruct (run_to_end w ps os (walkerProgram w exts)
                                  (compiled_lengths _ _ _ _ Hc)) as (s & Hs & Hf & Hr).
  exists ps, os, exts, s. auto.
Qed.
End RunFacts.

(** ** The whole run: claims C5, C7, C8 *)

Module RunClaims.
Import Spec ProgramFacts MatcherClaims ScanClaims Run RunFacts.

(** The scans a run starts, and what each of them sends. *)
Lemma outputs_elem w ps os acts r :
  In r (outputs w ps os acts) <->
  exists path repository,
    In (Spawn path repository) acts
    /\ In r (default [] (scanFile (Open w path) path ps os repository)).
Proof.
  unfold outputs. rewrite in_flat_map. split.
  - intros ([name|path repo|name] & Hin & Hr); cbn in Hr; try destruct Hr. eauto.
  - intros (path & repo & Hin & Hr). exists (Spawn path repo). auto.
Qed.

Lemma walkerProgram_spawn w exts path repository :
  In (Spawn path repository) (walkerProgram w exts) <->
  exists root, In (repository, root) (repos w) /\ IsDir root = true
               /\ In path (walkRepository (Join reposDir repository) root exts).
Proof.
  unfold walkerProgram. rewrite in_flat_map. split.
  - intros ([repo root] & Hin & Ha). unfold repoActions in Ha. cbn [fst snd] in Ha.
    destruct (IsDir root) eqn:E; [|destruct Ha].
    destruct Ha as [[=]|Ha]. apply in_app_or in Ha as [Ha|[[=]|[]]].
    apply in_map_iff in Ha as (p & [= <- <-] & Hp). eauto.
  - intros (root & Hin & E & Hp). exists (repository, root). split; [exact Hin|].
    unfold repoActions. cbn [fst snd]. rewrite E. right. apply in_or_app. left.
    apply in_map_iff. eauto.
Qed.

(** Every result of a run comes from a file that a walk scheduled. *)
Lemma result_scheduled w queries res r :
  completes w queries res -> In r res ->
  exists ps os exts repository root content,
    compilePatterns queries = Some (ps, os, exts)
    /\ In (repository, root) (repos w) /\ IsDir root = true
    /\ In (FilePath r) (walkRepository (Join reposDir repository) root exts)
    /\ Open w (FilePath r) = Some content
    /\ In r (file_results (FilePath r) repository (Scan content []) (zip ps os)).
Proof.
  intros (ps & os & exts & Hc & Hp)%completes_results Hr.
  apply (Permutation_in _ Hp), outputs_elem in Hr as (path & repo & Hs & Hr).
  apply walkerProgram_spawn in Hs as (root & Hin & Hd & Hw).
  destruct (Open w path) as [content|] eqn:Ho; [|destruct Hr].
  rewrite scanFile_spec in Hr by (eapply compiled_lengths, Hc). cbn in Hr.
  assert (Hf : FilePath r = path).
  { apply file_results_elem in Hr as (n & line & i & po & _ & _ & _ & ->). reflexivity. }
  subst path. exists ps, os, exts, repo, root, content. auto 10.
Qed.

(** C5: [walkRepository] schedules an entry exactly when it is not a
    directory (and could be read) and its extension is, byte for byte, in
    the union of the extension lists of the queries; every result of a run
    is of such a file.  [foo.ts] has the extension [.ts]; [foo.TS] has the
    extension [.TS], which no list holding only [.ts] accepts, so no
    result is of a file named [foo.TS]. *)
Theorem scheduled_by_extension (queries : list Query) (ps : list Regexp)
        (os : list gostring) (exts : gmap gostring bool) :
  compilePatterns queries = Some (ps, os, exts) ->
  (forall repoPath root path,
      In path (walkRepository repoPath root exts) <->
      located repoPath root path File /\ accepted queries (Ext path))
  /\ (forall w res r,
        completes w queries res -> In r res ->
        exists repository root,
          In (repository, root) (repos w)
          /\ located (Join reposDir repository) root (FilePath r) File
          /\ accepted queries (Ext (FilePath r)))
  /\ (forall dir, Ext (Join dir (str "foo.ts")) = str ".ts")
  /\ (forall dir, Ext (Join dir (str "foo.TS")) = str ".TS")
  /\ ((forall q ext, In q queries -> In ext (Extensions q) -> ext = str ".ts") ->
      (forall repoPath root dir,
          ~ In (Join dir (str "foo.TS")) (walkRepository repoPath root exts))
      /\ (forall w res r dir,
            completes w queries res -> In r res ->
            FilePath r <> Join dir (str "foo.TS"))).
Proof.
  intros Hc.
  assert (Hw : forall repoPath root path,
             In path (walkRepository repoPath root exts) <->
             located repoPath root path File /\ accepted queries (Ext path)).
  { intros. rewrite walkRepository_elem, (extensions_accepted _ _ _ _ _ Hc). reflexivity. }
  assert (Hres : forall w res r, completes w queries res -> In r res ->
             exists repository root,
               In (repository, root) (repos w)
               /\ located (Join reposDir repository) root (FilePath r) File
               /\ accepted queries (Ext (FilePath r))).
  { intros w res r Hrun Hr.
    destruct (result_scheduled _ _ _ _ Hrun Hr)
      as (ps' & os' & exts' & repo & root & content & Hc' & Hin & _ & Hwalk & _).
    assert (exts' = exts) as -> by congruence.
    apply Hw in Hwalk as [Hl Ha]. eauto. }
  assert (Hts : forall dir, Ext (Join dir (str "foo.ts")) = str ".ts").
  { intros dir. rewrite Ext_Join; [reflexivity | vm_compute; intuition discriminate
                                   | vm_compute; tauto]. }
  assert (HTS : forall dir, Ext (Join dir (str "foo.TS")) = str ".TS").
  { intros dir. rewrite Ext_Join; [reflexivity | vm_compute; intuition discriminate
                                   | vm_compute; tauto]. }
  split; [exact Hw|]. split; [exact Hres|]. split; [exact Hts|]. split; [exact HTS|].
  intros Honly. split.
  - intros repoPath root dir [_ (q & Hq & He)]%Hw. rewrite HTS in He.
    apply (Honly q _ Hq) in He. discriminate.
  - intros w res r dir Hrun Hr Hp.
    destruct (Hres _ _ _ Hrun Hr) as (repo & root & _ & _ & (q & Hq & He)).
    rewrite Hp, HTS in He. apply (Honly q _ Hq) in He. discriminate.
Qed.

Definition ts_queries : list Query :=
  [{| Pattern := str "a"; Extensions := [str ".ts"] |}].

Definition ts_tree : node :=
  Dir [(str "foo.TS", File); (str "foo.ts", File);
       (str "lib.ts", Dir [(str "x.go", File)])].

Lemma scheduled_by_extension_witness :
  walkRepository (str "repos/r") ts_tree (foldl add_extensions ∅ ts_queries)
  = [str "repos/r/foo.ts"]
  /\ ~ In (Join (str "repos/r") (str "foo.TS"))
          (walkRepository (str "repos/r") ts_tree (foldl add_extensions ∅ ts_queries)).
Proof.
  split.
  - vm_compute. reflexivity.
  - apply (scheduled_by_extension ts_queries [wildcard_regexp (str "a")] [str "a"]).
    + apply compilePatterns_eval. vm_compute. reflexivity.
    + intros q ext [<-|[]] [<-|[]]. reflexivity.
Defined.

(** C7: a file that cannot be opened makes [scanFile] return without a
    result and without a panic; the run goes on to its end, and every
    result of every scheduled file that can be opened is collected. *)
Theorem unopenable_file_skipped :
  (forall filePath ps os repository,
      scanFile None filePath ps os repository = Some [])
  /\ (forall w queries ps os exts,
        compilePatterns queries = Some (ps, os, exts) ->
        exists res, completes w queries res)
  /\ (forall w queries ps os exts res repository root path content r,
        compilePatterns queries = Some (ps, os, exts) ->
        completes w queries res ->
        In (repository, root) (repos w) -> IsDir root = true ->
        In path (walkRepository (Join reposDir repository) root exts) ->
        Open w path = Some content ->
        In r (file_results path repository (Scan content []) (zip ps os)) ->
        In r res).
Proof.
  split; [reflexivity|]. split.
  - intros w queries ps os exts Hc. eexists. eapply run_exists, Hc.
  - intros w queries ps os exts res repo root path content r Hc Hrun Hin Hd Hw Ho Hr.
    apply completes_results in Hrun as (ps' & os' & exts' & Hc' & Hp).
    assert (ps' = ps /\ os' = os /\ exts' = exts) as (-> & -> & ->)
        by (repeat split; congruence).
    apply (Permutation_in _ (Permutation_sym Hp)), outputs_elem.
    exists path, repo. split.
    + apply walkerProgram_spawn. eauto.
    + rewrite Ho, scanFile_spec by (eapply compiled_lengths, Hc). exact Hr.
Qed.

(** Two files in one repository; [a.go] cannot be opened. *)
Definition go_queries : list Query :=
  [{| Pattern := str "x"; Extensions := [str ".go"] |}].

Definition two_files : list (gostring * node) :=
  [(str "r", Dir [(str "a.go", File); (str "b.go", File)])].

Definition only_b : World :=
  {| repos := two_files;
     Open := fun path => if decide (path = str "repos/r/b.go") then Some (str "x")
                         else None |}.

Definition result_at (path : string) : SearchResult :=
  {| FilePath := str path; LineNumber := 1; LineText := str "x";
     Repository := str "r";
     Match := {| MPattern := str "x"; StartIndex := 0; EndIndex := 1 |} |}.

Lemma unopenable_file_skipped_witness :
  exists res, completes only_b go_queries res /\ In (result_at "repos/r/b.go") res.
Proof.
  destruct unopenable_file_skipped as (_ & Hrun & Hall).
  assert (Hc : compilePatterns go_queries
               = Some ([wildcard_regexp (str "x")], [str "x"],
                       foldl add_extensions ∅ go_queries))
    by (apply compilePatterns_eval; vm_compute; reflexivity).
  destruct (Hrun only_b _ _ _ _ Hc) as [res Hres].
  exists res. split; [exact Hres|].
  eapply (Hall only_b go_queries _ _ _ res (str "r") _ (str "repos/r/b.go") (str "x"));
    [exact Hc | exact Hres | left; reflexivity | reflexivity | | reflexivity | ].
  - vm_compute. right. left. reflexivity.
  - vm_compute. left. reflexivity.
Defined.


(** Both files can be opened and hold one match each. *)
Definition both_open : World :=
  {| repos := two_files; Open := fun _ => Some (str "x") |}.

Ltac run_step rule :=
  eapply steps_trans; [apply steps_one; rule |].

Ltac run_prefix :=
  run_step ltac:(apply step_enter);
  run_step ltac:(apply step_spawn; vm_compute; reflexivity);
  run_step ltac:(apply step_spawn; vm_compute; reflexivity);
  run_step ltac:(apply step_leave).

Ltac run_suffix :=
  run_step ltac:(eapply (step_done _ _ _ []));
  run_step ltac:(eapply (step_done _ _ _ []));
  run_step ltac:(apply step_close);
  run_step ltac:(apply step_recv);
  run_step ltac:(apply step_recv);
  run_step ltac:(apply step_finish);
  apply steps_refl.

(** The order of the collected results is not fixed: the two scanners may
    send in either order. *)
Lemma two_orders :
  completes both_open go_queries [result_at "repos/r/a.go"; result_at "repos/r/b.go"]
  /\ completes both_open go_queries [result_at "repos/r/b.go"; result_at "repos/r/a.go"].
Proof.
  assert (Hc : compilePatterns go_queries
               = Some ([wildcard_regexp (str "x")], [str "x"],
                       foldl add_extensions ∅ go_queries))
    by (apply compilePatterns_eval; vm_compute; reflexivity).
  assert (Hprog : walkerProgram both_open (foldl add_extensions ∅ go_queries)
                  = [EnterRepo (str "r"); Spawn (str "repos/r/a.go") (str "r");
                     Spawn (str "repos/r/b.go") (str "r"); LeaveRepo (str "r")])
    by (vm_compute; reflexivity).
  split.
  - eexists _, _, _, _. split; [exact Hc|]. unfold init. rewrite Hprog.
    split.
    { run_prefix.
      run_step ltac:(eapply (step_send _ _ _ _ _ []); vm_compute; reflexivity).
      run_step ltac:(eapply (step_send _ _ _ _ _ [[]]); vm_compute; reflexivity).
      run_suffix. }
    split; reflexivity.
  - eexists _, _, _, _. split; [exact Hc|]. unfold init. rewrite Hprog.
    split.
    { run_prefix.
      run_step ltac:(eapply (step_send _ _ _ _ _ [[_]]); vm_compute; reflexivity).
      run_step ltac:(eapply (step_send _ _ _ _ _ []); vm_compute; reflexivity).
      run_suffix. }
    split; reflexivity.
Qed.

End RunClaims.

(** ** The order of the walks: claim C9 *)

Module WalkOrder.
Import Spec ProgramFacts MatcherClaims ScanClaims Run RunFacts RunClaims.

Lemma reachable_Inv w queries s :
  reachable w queries s ->
  exists ps os exts,
    compilePatterns queries = Some (ps, os, exts)
    /\ Inv w ps os (walkerProgram w exts) s.
Proof.
  intros (ps & os & exts & Hc & Hs). exists ps, os, exts. split; [exact Hc|].
  eapply steps_Inv; [apply Inv_init | exact Hs].
Qed.

Lemma repoActions_enter exts repo name :
  In (EnterRepo name) (repoActions exts repo) -> name = fst repo.
Proof.
  unfold repoActions. destruct (IsDir (snd repo)); [|intros []].
  intros [[= <-]|[H|[[=]|[]]]%in_app_or]; [reflexivity|].
  apply in_map_iff in H as (p & [=] & _).
Qed.

Lemma repoActions_leave exts name root :
  IsDir root = true -> In (LeaveRepo name) (repoActions exts (name, root)).
Proof.
  intros H. unfold repoActions. cbn [fst snd]. rewrite H.
  right. apply in_or_app. right. now left.
Qed.

(** The walker is one goroutine: what it has done is a prefix of the walks
    in the order of the listing, so a walk begins only after the walks of
    all repositories listed before it have returned. *)
Lemma enter_after_leave w queries s l1 r1 n1 l2 r2 n2 l3 :
  reachable w queries s ->
  repos w = l1 ++ (r1, n1) :: l2 ++ (r2, n2) :: l3 ->
  IsDir n1 = true -> ~ In r2 (map fst l1) -> r2 <> r1 ->
  In (EnterRepo r2) (log s) -> In (LeaveRepo r1) (log s).
Proof.
  intros (ps & os & exts & _ & [_ _ _ _ Hlog])%reachable_Inv Hrepos Hd Hfresh Hne Henter.
  unfold walkerProgram in Hlog. rewrite Hrepos in Hlog.
  change (l1 ++ (r1, n1) :: l2 ++ (r2, n2) :: l3)
    with (l1 ++ [(r1, n1)] ++ (l2 ++ (r2, n2) :: l3)) in Hlog.
  rewrite app_assoc, flat_map_app in Hlog.
  set (A := flat_map (repoActions exts) (l1 ++ [(r1, n1)])) in *.
  assert (HA : In (LeaveRepo r1) A).
  { apply in_flat_map. exists (r1, n1). split; [apply in_or_app; right; now left|].
    now apply repoActions_leave. }
  assert (HnA : ~ In (EnterRepo r2) A).
  { intros ([name root] & Hin & He%repoActions_enter)%in_flat_map. cbn in He. subst name.
    apply in_app_or in Hin as [Hin|[[= -> _]|[]]]; [|congruence].
    apply Hfresh, in_map_iff. exists (r2, root). auto. }
  apply app_eq_app in Hlog as [k [[-> _]|[HAeq _]]].
  - apply in_or_app. now left.
  - exfalso. apply HnA. rewrite HAeq. apply in_or_app. now left.
Qed.

(** C9 (as amended): the walks of the repositories run one after the
    other, in the order of the directory listing, inside the single
    background goroutine of [main]: the walk of a repository begins only
    when the walks of all repositories listed before it have returned.
    What runs concurrently are the [scanFile] goroutines the walks start;
    the WaitGroup counts exactly these, and the channel is closed only
    after all walks have returned and all of them have finished. *)
Theorem walks_in_sequence (w : World) (queries : list Query) (s : state) :
  reachable w queries s ->
  (forall l1 r1 n1 l2 r2 n2 l3,
      repos w = l1 ++ (r1, n1) :: l2 ++ (r2, n2) :: l3 ->
      IsDir n1 = true -> ~ In r2 (map fst l1) -> r2 <> r1 ->
      In (EnterRepo r2) (log s) -> In (LeaveRepo r1) (log s))
  /\ (exists exts, log s ++ walker s = walkerProgram w exts)
  /\ wg s = length (scanners s)
  /\ (closed s = true -> walker s = [] /\ scanners s = []).
Proof.
  intros Hr. split.
  - intros. eapply enter_after_leave; eassumption.
  - destruct (reachable_Inv _ _ _ Hr) as (ps & os & exts & _ & [_ Hw Hc _ Hl]). eauto.
Qed.

(** Two repositories, [a] listed before [b], one file in each. *)
Definition two_repos : World :=
  {| repos := [(str "a", Dir [(str "x.go", File)]);
               (str "b", Dir [(str "y.go", File)])];
     Open := fun _ => Some (str "x") |}.

(** The run as far as the beginning of the walk of [b]. *)
Definition entering_b : state :=
  mkState [Spawn (str "repos/b/y.go") (str "b"); LeaveRepo (str "b")]
          1 [[{| FilePath := str "repos/a/x.go"; LineNumber := 1;
                 LineText := str "x"; Repository := str "a";
                 Match := {| MPattern := str "x"; StartIndex := 0;
                             EndIndex := 1 |} |}]] [] false [] false
          [EnterRepo (str "a"); Spawn (str "repos/a/x.go") (str "a");
           LeaveRepo (str "a"); EnterRepo (str "b")].

Lemma entering_b_reachable : reachable two_repos go_queries entering_b.
Proof.
  exists [wildcard_regexp (str "x")], [str "x"], (foldl add_extensions ∅ go_queries).
  split; [apply compilePatterns_eval; vm_compute; reflexivity|].
  assert (Hprog : walkerProgram two_repos (foldl add_extensions ∅ go_queries)
                  = [EnterRepo (str "a"); Spawn (str "repos/a/x.go") (str "a");
                     LeaveRepo (str "a"); EnterRepo (str "b");
                     Spawn (str "repos/b/y.go") (str "b"); LeaveRepo (str "b")])
    by (vm_compute; reflexivity).
  unfold init. rewrite Hprog.
  run_step ltac:(apply step_enter).
  run_step ltac:(apply step_spawn; vm_compute; reflexivity).
  run_step ltac:(apply step_leave).
  run_step ltac:(apply step_enter).
  apply steps_refl.
Qed.

Lemma walks_in_sequence_witness :
  In (EnterRepo (str "b")) (log entering_b)
  /\ In (LeaveRepo (str "a")) (log entering_b).
Proof.
  assert (He : In (EnterRepo (str "b")) (log entering_b))
    by (cbn; right; right; right; left; reflexivity).
  split; [exact He|].
  apply (proj1 (walks_in_sequence two_repos go_queries entering_b entering_b_reachable)
               [] (str "a") (Dir [(str "x.go", File)])
               [] (str "b") (Dir [(str "y.go", File)]) []).
  - reflexivity.
  - reflexivity.
  - intros [].
  - discriminate.
  - exact He.
Defined.

(** C9 (as stated) fails: the walks do not run in tasks of their own.  With
    two repositories no run is ever in a state where the walk of the
    second has begun while the walk of the first has not returned. *)
Lemma walks_never_overlap :
  ~ exists s, reachable two_repos go_queries s
              /\ walk_started_before_return s (str "a") (str "b").
Proof.
  intros (s & Hr & He & Hl). apply Hl.
  apply (enter_after_leave two_repos go_queries s
           [] (str "a") (Dir [(str "x.go", File)])
           [] (str "b") (Dir [(str "y.go", File)]) []);
    first [reflexivity | discriminate | assumption | intros []].
Qed.
End WalkOrder.

(** ** More on the line matcher: the order of the spans *)

Module MatchOrder.
Import Utf8 Spec Utf8Facts MatchFacts LiteralFacts CompileFacts ProgramFacts MatcherClaims.

(** An expression without a consuming item matches everywhere. *)
Lemma star_only_matches re :
  ~ consuming re -> forall input, match_here re input <> None.
Proof.
  induction re as [|[a|a] re IH]; intros Hn input.
  - discriminate.
  - exfalso. apply Hn. exists a. now left.
  - assert (Hre : ~ consuming re) by (intros [b Hb]; apply Hn; exists b; now right).
    induction input as [|[r w] input IHi].
    + rewrite match_here_star_nil. now apply IH.
    + rewrite match_here_star_cons. destruct (atom_matches a r); [|now apply IH].
      destruct (match_here (Star a :: re) input); [discriminate | now apply IH].
Qed.

Lemma consuming_dec re : consuming re \/ ~ consuming re.
Proof.
  induction re as [|[a|a] re [IH|IH]].
  - right. intros [a []].
  - left. exists a. now left.
  - left. exists a. now left.
  - left. destruct IH as [b Hb]. exists b. now right.
  - right. intros [b [Hb|Hb]]; [discriminate|]. apply IH. now exists b.
Qed.

(** An empty match is found where the search begins. *)
Lemma search_empty_at_offset re input off a :
  wide input -> search re input off = Some (a, a) -> a = off.
Proof.
  intros Hw E. destruct (consuming_dec re) as [Hc|Hn].
  - apply search_nonempty in E; [lia | assumption | assumption].
  - pose proof (star_only_matches re Hn input) as M.
    destruct input as [|[r w] input]; cbn [search] in E;
      destruct (match_here re _) as [n|]; try congruence;
      injection E as E1 E2; lia.
Qed.

Lemma doExecute_empty_at_pos re s pos m :
  doExecute re s pos = Some (m, m) -> (0 <= pos)%Z -> m = pos.
Proof.
  unfold doExecute. destruct (search re _ _) as [[a b]|] eqn:E; [|discriminate].
  intros [= <- Hb] Hp. apply Nat2Z.inj in Hb. subst b.
  apply search_empty_at_offset in E; [lia | apply wide_runes].
Qed.

(** One match lies before the other: it ends where the other begins or
    earlier, and it begins and ends earlier. *)
Definition match_before (m m' : list Z) : Prop :=
  (nth 1 m 0 <= nth 0 m' 0 /\ nth 0 m 0 < nth 0 m' 0 /\ nth 1 m 0 < nth 1 m' 0)%Z.

(** What the loop of [allMatches] knows of the matches to come. *)
Definition match_from (pos prev : Z) (m : list Z) : Prop :=
  exists m0 m1, m = [m0; m1] /\ (pos <= m0 /\ m0 <= m1 /\ prev < m1)%Z.

Lemma match_from_weaken pos prev pos' prev' l :
  (pos <= pos')%Z -> (prev <= prev')%Z ->
  Forall (match_from pos' prev') l -> Forall (match_from pos prev) l.
Proof.
  intros Hp Hq. apply List.Forall_impl. intros m (m0 & m1 & -> & H).
  exists m0, m1. split; [reflexivity | lia].
Qed.

Lemma allMatches_loop_sorted re s : forall k pos prev,
  (0 <= pos)%Z -> (prev <= pos)%Z ->
  StronglySorted match_before (allMatches_loop re s k pos prev)
  /\ Forall (match_from pos prev) (allMatches_loop re s k pos prev).
Proof.
  induction k as [|k IH]; intros pos prev Hpos Hprev; cbn [allMatches_loop].
  { split; constructor. }
  destruct (Z.leb_spec pos (len s)) as [Hle|]; [|split; constructor].
  destruct (doExecute re s pos) as [[m0 m1]|] eqn:E; [|split; constructor].
  pose proof (doExecute_bound re s pos m0 m1 ltac:(lia) E) as B.
  destruct (Z.eqb_spec m1 pos) as [->|Hne].
  - assert (m0 = pos) as -> by lia.
    set (pos' := if (0 <? _)%Z then _ else _).
    assert (Hadv : (pos < pos')%Z) by (subst pos'; destruct (Z.ltb_spec 0 (Z.of_nat
      (snd (DecodeRuneInString (slice s pos (len s)))))); lia).
    destruct (IH pos' pos ltac:(lia) ltac:(lia)) as [S F].
    destruct (Z.eqb_spec pos prev) as [Heq|Hneq]; cbn [negb app].
    + split; [exact S|]. eapply match_from_weaken; [| |exact F]; lia.
    + split.
      * constructor; [exact S|]. revert F. apply List.Forall_impl.
        intros m (a & b & -> & H). unfold match_before. cbn. lia.
      * constructor.
        -- exists pos, pos. split; [reflexivity | lia].
        -- eapply match_from_weaken; [| |exact F]; lia.
  - assert (m0 < m1)%Z.
    { destruct (Z.eq_dec m0 m1) as [->|]; [|lia].
      apply doExecute_empty_at_pos in E; [congruence | lia]. }
    destruct (IH m1 m1 ltac:(lia) ltac:(lia)) as [S F]. split.
    + constructor; [exact S|]. revert F. apply List.Forall_impl.
      intros m (a & b & -> & H'). unfold match_before. cbn. lia.
    + constructor.
      * exists m0, m1. split; [reflexivity | lia].
      * eapply match_from_weaken; [| |exact F]; lia.
Qed.

(** One span lies before the other. *)
Definition span_before (m m' : MatchInfo) : Prop :=
  (EndIndex m <= StartIndex m' /\ StartIndex m < StartIndex m'
   /\ EndIndex m < EndIndex m')%Z.

(** The spans of a list of matches. *)
Definition span_of (original : gostring) (m : list Z) : MatchInfo :=
  {| MPattern := original; StartIndex := nth 0 m 0%Z; EndIndex := nth 1 m 0%Z |}.

Lemma findMatchPositions_map line re original :
  findMatchPositions line re original
  = map (span_of original) (FindAllStringSubmatchIndex re line (-1)).
Proof.
  rewrite findMatchPositions_spec. unfold FindAllStringSubmatchIndex.
  change (-1 <? 0)%Z with true. cbv iota.
  assert (B : forall m, In m (allMatches_loop re line (Z.to_nat (len line + 1)) 0 (-1)) ->
                        length m = 2).
  { intros m Hin.
    apply allMatches_loop_bound in Hin as (m0 & m1 & -> & _); [reflexivity | lia]. }
  revert B. generalize (allMatches_loop re line (Z.to_nat (len line + 1)) 0 (-1)).
  induction l as [|m l IH]; intros B; [reflexivity|]. cbn [flat_map map].
  rewrite (B m) by now left. cbn. f_equal. apply IH. intros m' Hin. apply B. now right.
Qed.

Lemma StronglySorted_map_inv {A B} (R : B -> B -> Prop) (g : A -> B) l :
  StronglySorted (fun x y => R (g x) (g y)) l -> StronglySorted R (map g l).
Proof.
  induction 1 as [|x l S IH Hx]; cbn [map]; constructor; [exact IH|].
  rewrite List.Forall_forall in *. intros y (x' & <- & Hin)%in_map_iff. now apply Hx.
Qed.

Lemma findMatchPositions_sorted line re original :
  StronglySorted span_before (findMatchPositions line re original)
  /\ Forall (fun m => 0 <= StartIndex m <= len line)%Z
            (findMatchPositions line re original).
Proof.
  rewrite findMatchPositions_map. unfold FindAllStringSubmatchIndex.
  change (-1 <? 0)%Z with true. cbv iota. split.
  - apply StronglySorted_map_inv.
    apply (allMatches_loop_sorted re line (Z.to_nat (len line + 1)) 0 (-1)); lia.
  - apply List.Forall_forall. intros m (x & <- & Hin)%in_map_iff.
    apply allMatches_loop_bound in Hin as (m0 & m1 & -> & Hb & _); [cbn; lia | lia].
Qed.

(** Spans that begin one after the other within a line are no more than
    the line has positions. *)
Lemma increasing_starts_bound : forall (l : list MatchInfo) (lo hi : Z),
  StronglySorted span_before l ->
  Forall (fun m => lo <= StartIndex m <= hi)%Z l ->
  (Z.of_nat (length l) <= Z.max 0 (hi - lo + 1))%Z.
Proof.
  induction l as [|m l IH]; intros lo hi S B; cbn [length]; [lia|].
  inversion S as [|? ? S' Hm]; inversion B as [|? ? Hb B']; subst.
  assert (B2 : Forall (fun m' => StartIndex m + 1 <= StartIndex m' <= hi)%Z l).
  { apply List.Forall_forall. intros m' Hin.
    rewrite List.Forall_forall in Hm, B'. specialize (Hm _ Hin). specialize (B' _ Hin).
    unfold span_before in Hm. lia. }
  specialize (IH _ _ S' B2). lia.
Qed.

Lemma findMatchPositions_pairs line re original i j m m' :
  i < j ->
  findMatchPositions line re original !! i = Some m ->
  findMatchPositions line re original !! j = Some m' ->
  span_before m m'.
Proof.
  destruct (findMatchPositions_sorted line re original) as [S _].
  revert i j m m' S. generalize (findMatchPositions line re original).
  intros l i j m m' S. revert i j m m'.
  induction S as [|x l S IH Hx]; intros i j m m' Hij Hi Hj; [destruct i; discriminate|].
  destruct j as [|j]; [lia|]. cbn in Hj.
  destruct i as [|i]; cbn in Hi.
  - injection Hi as <-. rewrite List.Forall_forall in Hx. apply Hx.
    eapply list_elem_of_In, list_elem_of_lookup_2, Hj.
  - apply (IH i j); [lia | assumption | assumption].
Qed.

Lemma findMatchPositions_NoDup line re original :
  NoDup (findMatchPositions line re original).
Proof.
  apply NoDup_alt. intros i j m Hi Hj.
  destruct (Nat.lt_trichotomy i j) as [Hlt|[Heq|Hgt]]; [|exact Heq|].
  - pose proof (findMatchPositions_pairs _ _ _ _ _ _ _ Hlt Hi Hj) as H.
    unfold span_before in H. lia.
  - pose proof (findMatchPositions_pairs _ _ _ _ _ _ _ Hgt Hj Hi) as H.
    unfold span_before in H. lia.
Qed.

(** X1: the spans that [findMatchPositions] reports for a line come in
    ascending order and do not overlap, whatever the compiled expression:
    of two spans the earlier one ends where the later one begins or
    before, and it begins and ends strictly earlier.  So no span is
    reported twice, and a line of [n] bytes has at most [n + 1] spans. *)
Theorem spans_ascending (line : gostring) (re : Regexp) (original : gostring) :
  (forall i j m m',
      i < j ->
      findMatchPositions line re original !! i = Some m ->
      findMatchPositions line re original !! j = Some m' ->
      (EndIndex m <= StartIndex m' /\ StartIndex m < StartIndex m'
       /\ EndIndex m < EndIndex m')%Z)
  /\ NoDup (findMatchPositions line re original)
  /\ length (findMatchPositions line re original) <= length line + 1.
Proof.
  split; [apply findMatchPositions_pairs|]. split; [apply findMatchPositions_NoDup|].
  destruct (findMatchPositions_sorted line re original) as [S B].
  pose proof (increasing_starts_bound _ 0 (len line) S B) as H.
  unfold len in H. lia.
Qed.

(** *** A pattern of the form [*text*] *)

(** The input has no newline in it. *)
Definition one_line (input : list (Z * nat)) : Prop :=
  Forall (fun rw => fst rw <> newline) input.

Lemma runes_one_line line : ~ In newline_byte line -> one_line (runes line).
Proof.
  induction line as [|c t IH] using rune_ind; intros Hn.
  - rewrite runes_nil. constructor.
  - rewrite runes_cons. constructor.
    + intros E. destruct (rune_is_byte c t newline_byte eq_refl E) as [-> _].
      apply Hn. now left.
    + apply IH. intros H%In_skipn. auto.
Qed.



(** [.*] alone takes the rest of the line. *)
Lemma match_here_any_star input :
  one_line input -> match_here [Star AnyCharNotNL] input = Some (total_width input).
Proof.
  induction 1 as [|[r w] input Hr _ IH].
  - reflexivity.
  - rewrite match_here_star_cons, IH. cbn [atom_matches fst] in *.
    destruct (Z.eqb_spec r newline); [contradiction | reflexivity].
Qed.

(** A literal followed by [.*]: where the literal matches, the match runs
    to the end of the line. *)
Lemma match_here_literal_star cs : forall input,
  one_line input ->
  match_here (map (fun c => One (Lit c)) cs ++ [Star AnyCharNotNL]) input
  = match match_here (map (fun c => One (Lit c)) cs) input with
    | Some _ => Some (total_width input)
    | None => None
    end.
Proof.
  induction cs as [|c cs IH]; intros input Hl.
  - cbn [map app]. rewrite match_here_any_star by exact Hl. reflexivity.
  - cbn [map app]. destruct Hl as [|[r w] input Hr Hl]; [reflexivity|].
    cbn [match_here]. destruct (atom_matches (Lit c) r); [|reflexivity].
    fold (match_here (map (fun c => One (Lit c)) cs ++ [Star AnyCharNotNL]) input).
    fold (match_here (map (fun c => One (Lit c)) cs) input).
    rewrite IH by exact Hl.
    destruct (match_here (map _ cs) input); reflexivity.
Qed.

(** The expression matches at some position of the input. *)
Fixpoint matches_somewhere (re : Regexp) (input : list (Z * nat)) : bool :=
  match match_here re input with
  | Some _ => true
  | None =>
    match input with
    | [] => false
    | _ :: input' => matches_somewhere re input'
    end
  end.


Lemma matches_somewhere_literal_star cs : forall input,
  one_line input ->
  matches_somewhere (map (fun c => One (Lit c)) cs ++ [Star AnyCharNotNL]) input
  = matches_somewhere (map (fun c => One (Lit c)) cs) input.
Proof.
  induction 1 as [|[r w] input Hr Hl IH].
  - cbn [matches_somewhere]. rewrite match_here_literal_star by constructor.
    destruct (match_here (map _ cs) []); reflexivity.
  - cbn [matches_somewhere]. rewrite match_here_literal_star by now constructor.
    destruct (match_here (map _ cs) _); [reflexivity | exact IH].
Qed.








End MatchOrder.

(** ** More on [scanFile]: lines, line numbers and line ends *)

Module LineFacts.
Import Spec ProgramFacts.

(** Lines, each closed by a newline. *)
Definition join_lines (lines : list gostring) : gostring :=
  flat_map (fun l => l ++ [newline_byte]) lines.


(** The newlines of a text. *)
Fixpoint count_newlines (s : gostring) : nat :=
  match s with
  | [] => 0
  | b :: s' => (if decide (b = newline_byte) then 1 else 0) + count_newlines s'
  end.

(** A line that fits the buffer of the scanner and has no newline. *)
Definition short_line (l : gostring) : Prop :=
  ~ In newline_byte l /\ (len l < maxTokenSize)%Z.

Lemma Scan_cons b data buf :
  Scan (b :: data) buf
  = if (maxTokenSize <=? len buf)%Z then []
    else if decide (b = newline_byte) then dropCR buf :: Scan data []
         else Scan data (buf ++ [b]).
Proof. reflexivity. Qed.

Lemma Scan_nil buf :
  Scan [] buf
  = if (maxTokenSize <=? len buf)%Z then []
    else match buf with [] => [] | _ => [dropCR buf] end.
Proof. reflexivity. Qed.

Lemma len_app (a b : gostring) : len (a ++ b) = (len a + len b)%Z.
Proof. unfold len. rewrite length_app. lia. Qed.

Lemma len_nonneg (a : gostring) : (0 <= len a)%Z.
Proof. unfold len. lia. Qed.

(** A line that fits is delivered at its newline. *)
Lemma Scan_line l : forall buf rest,
  ~ In newline_byte l -> (len (buf ++ l) < maxTokenSize)%Z ->
  Scan (l ++ newline_byte :: rest) buf = dropCR (buf ++ l) :: Scan rest [].
Proof.
  induction l as [|b l IH]; intros buf rest Hn Hl; cbn [app]; rewrite Scan_cons.
  - rewrite app_nil_r in *. destruct (Z.leb_spec maxTokenSize (len buf)); [lia|].
    destruct (decide (newline_byte = newline_byte)); [reflexivity | congruence].
  - rewrite len_app in Hl. pose proof (len_nonneg (b :: l)).
    destruct (Z.leb_spec maxTokenSize (len buf)); [lia|].
    destruct (decide (b = newline_byte)) as [->|_]; [exfalso; apply Hn; now left|].
    rewrite IH.
    + now rewrite <- app_assoc.
    + intros H'. apply Hn. now right.
    + rewrite <- app_assoc. cbn [app]. now rewrite len_app.
Qed.

(** The end of the file closes a last line that has no newline. *)
Lemma Scan_last l : forall buf,
  ~ In newline_byte l -> (len (buf ++ l) < maxTokenSize)%Z ->
  Scan l buf = match buf ++ l with [] => [] | _ => [dropCR (buf ++ l)] end.
Proof.
  induction l as [|b l IH]; intros buf Hn Hl.
  - rewrite Scan_nil. rewrite app_nil_r in *.
    destruct (Z.leb_spec maxTokenSize (len buf)); [lia | reflexivity].
  - rewrite Scan_cons. rewrite len_app in Hl. pose proof (len_nonneg (b :: l)).
    destruct (Z.leb_spec maxTokenSize (len buf)); [lia|].
    destruct (decide (b = newline_byte)) as [->|_]; [exfalso; apply Hn; now left|].
    rewrite IH.
    + now rewrite <- app_assoc.
    + intros H'. apply Hn. now right.
    + rewrite <- app_assoc. cbn [app]. now rewrite len_app.
Qed.

(** A line that does not fit ends the scan. *)
Lemma Scan_too_long l : forall buf rest,
  ~ In newline_byte l -> (maxTokenSize <= len (buf ++ l))%Z ->
  Scan (l ++ rest) buf = [].
Proof.
  induction l as [|b l IH]; intros buf rest Hn Hl.
  - rewrite app_nil_r in Hl. cbn [app].
    destruct rest; [rewrite Scan_nil | rewrite Scan_cons];
      destruct (Z.leb_spec maxTokenSize (len buf)); try reflexivity; lia.
  - cbn [app]. rewrite Scan_cons.
    destruct (Z.leb_spec maxTokenSize (len buf)); [reflexivity|].
    destruct (decide (b = newline_byte)) as [->|_]; [exfalso; apply Hn; now left|].
    apply IH.
    + intros H'. apply Hn. now right.
    + now rewrite <- app_assoc.
Qed.

Lemma Scan_lines lines : forall data,
  Forall short_line lines ->
  Scan (join_lines lines ++ data) [] = map dropCR lines ++ Scan data [].
Proof.
  induction lines as [|l lines IH]; intros data Hs; [reflexivity|].
  inversion Hs as [|? ? [Hn Hl] Hs']; subst.
  cbn [join_lines flat_map map app]. rewrite <- !app_assoc. cbn [app].
  rewrite Scan_line by assumption. cbn [app]. f_equal. now apply IH.
Qed.

(** X3: what the scanner of [scanFile] makes of a file: every line that
    is closed by a newline is delivered, without a carriage return at its
    end, and so is a last line that is not empty and has no newline;
    an empty remainder after the last newline is not a line. *)
Theorem scan_splits_lines (lines : list gostring) (last_line : gostring) :
  Forall short_line lines -> short_line last_line ->
  Scan (join_lines lines ++ last_line) []
  = map dropCR lines
    ++ match last_line with [] => [] | _ => [dropCR last_line] end.
Proof.
  intros Hs [Hn Hl]. rewrite Scan_lines by exact Hs. f_equal.
  now rewrite Scan_last.
Qed.

Lemma scan_splits_lines_witness :
  Scan (join_lines [str "a"; [cr_byte]; []] ++ str "b") []
  = [str "a"; []; []; str "b"].
Proof.
  apply (scan_splits_lines [str "a"; [cr_byte]; []] (str "b")).
  - repeat constructor; vm_compute; intuition discriminate.
  - split; vm_compute; intuition discriminate.
Defined.
Lemma last_app_cons_inv {A} (a : list A) b d :
  last (a ++ b :: d) = match d with [] => Some b | _ => last d end.
Proof.
  induction a as [|x a IH]; cbn [app].
  - now destruct d.
  - rewrite <- IH. now destruct (a ++ b :: d) eqn:E; [destruct a; discriminate|].
Qed.

Lemma Scan_final_newline : forall data buf,
  buf ++ data <> [] -> last (buf ++ data) <> Some newline_byte ->
  Scan (data ++ [newline_byte]) buf = Scan data buf.
Proof.
  induction data as [|b d IH]; intros buf Hne Hl.
  - cbn [app]. rewrite Scan_cons, (Scan_nil buf). rewrite app_nil_r in Hne.
    destruct (Z.leb_spec maxTokenSize (len buf)); [reflexivity|].
    destruct (decide (newline_byte = newline_byte)); [|congruence].
    destruct buf; [congruence | reflexivity].
  - cbn [app]. rewrite !Scan_cons.
    destruct (Z.leb_spec maxTokenSize (len buf)); [reflexivity|].
    rewrite last_app_cons_inv in Hl.
    destruct (decide (b = newline_byte)) as [->|Hb].
    + destruct d as [|x d]; [congruence|]. f_equal. apply IH; [discriminate | exact Hl].
    + apply IH.
      * destruct buf; discriminate.
      * rewrite <- app_assoc. cbn [app]. now rewrite last_app_cons_inv.
Qed.

(** [scanFile] reads its file only through the scanner. *)
Lemma scanFile_Scan content content' filePath ps os repository :
  Scan content [] = Scan content' [] ->
  scanFile (Some content) filePath ps os repository
  = scanFile (Some content') filePath ps os repository.
Proof. unfold scanFile. now intros ->. Qed.

(** X4: a newline at the very end of a file makes no difference: a file
    that is not empty and does not end in a newline gives the same results
    with one appended. *)
Theorem final_newline_optional (content filePath : gostring) (ps : list Regexp)
        (os : list gostring) (repository : gostring) :
  content <> [] -> last content <> Some newline_byte ->
  scanFile (Some (content ++ [newline_byte])) filePath ps os repository
  = scanFile (Some content) filePath ps os repository.
Proof.
  intros Hne Hl. apply scanFile_Scan, Scan_final_newline; assumption.
Qed.

Lemma final_newline_optional_witness :
  scanFile (Some (str "TODO" ++ [newline_byte])) (str "x.go")
           [[One (Lit 84)]] [str "T"] (str "r")
  = scanFile (Some (str "TODO")) (str "x.go") [[One (Lit 84)]] [str "T"] (str "r").
Proof.
  apply (final_newline_optional (str "TODO")); vm_compute; discriminate.
Defined.









(** X6: a line of [maxTokenSize] bytes or more ends the scan, without
    any error: the lines before it are scanned, and this line and all that
    follows it in the file produce nothing. *)
Theorem long_line_ends_scan (lines : list gostring) (long rest filePath : gostring)
        (ps : list Regexp) (os : list gostring) (repository : gostring) :
  Forall short_line lines ->
  ~ In newline_byte long -> (maxTokenSize <= len long)%Z ->
  Scan (join_lines lines ++ long ++ rest) [] = map dropCR lines
  /\ scanFile (Some (join_lines lines ++ long ++ rest)) filePath ps os repository
     = scanFile (Some (join_lines lines)) filePath ps os repository.
Proof.
  intros Hs Hn Hl.
  assert (H1 : Scan (join_lines lines ++ long ++ rest) [] = map dropCR lines).
  { rewrite Scan_lines by exact Hs. rewrite Scan_too_long by assumption.
    apply app_nil_r. }
  split; [exact H1|]. apply scanFile_Scan. rewrite H1.
  rewrite <- (app_nil_r (join_lines lines)), Scan_lines by exact Hs.
  now rewrite Scan_nil, app_nil_r.
Qed.

Lemma long_line_ends_scan_witness :
  Scan (join_lines [str "a"]
          ++ repeat "x"%byte (Z.to_nat maxTokenSize) ++ newline_byte :: str "TODO") []
  = map dropCR [str "a"].
Proof.
  apply (long_line_ends_scan [str "a"] (repeat "x"%byte (Z.to_nat maxTokenSize))
           (newline_byte :: str "TODO") [] [] [] []).
  - repeat constructor; vm_compute; intuition discriminate.
  - intros H. apply repeat_spec in H. discriminate.
  - unfold len. rewrite repeat_length. unfold maxTokenSize. lia.
Defined.
(** *** Where a reported line stands in its file *)

Lemma count_newlines_app a b :
  count_newlines (a ++ b) = count_newlines a + count_newlines b.
Proof. induction a as [|x a IH]; cbn [app count_newlines]; lia. Qed.

Lemma count_newlines_none a : ~ In newline_byte a -> count_newlines a = 0.
Proof.
  induction a as [|x a IH]; intros Hn; [reflexivity|]. cbn [count_newlines].
  destruct (decide (x = newline_byte)) as [->|_]; [exfalso; apply Hn; now left|].
  apply IH. intros H. apply Hn. now right.
Qed.

Lemma count_newlines_newline s :
  count_newlines (newline_byte :: s) = S (count_newlines s).
Proof. reflexivity. Qed.

Lemma last_removelast {A} (l : list A) x :
  last l = Some x -> l = removelast l ++ [x].
Proof.
  induction l as [|y l IH]; [discriminate|]. destruct l as [|z l].
  - now intros [= ->].
  - intros H. change (removelast (y :: z :: l)) with (y :: removelast (z :: l)).
    cbn [app]. f_equal. now apply IH.
Qed.

Lemma dropCR_cases buf : buf = dropCR buf \/ buf = dropCR buf ++ [cr_byte].
Proof.
  unfold dropCR. destruct (decide (last buf = Some cr_byte)) as [E|_]; [right | now left].
  now apply last_removelast.
Qed.

(** What may follow a line: the end of the file or a newline, after a
    carriage return or without one. *)
Definition line_end (after : gostring) : Prop :=
  after = [] \/ after = [cr_byte]
  \/ (exists rest, after = newline_byte :: rest)
  \/ (exists rest, after = cr_byte :: newline_byte :: rest).

(** Where a line begins: at the start of the file or after a newline. *)
Definition line_start (before : gostring) : Prop :=
  before = [] \/ last before = Some newline_byte.

Lemma Scan_lookup : forall data buf k line,
  ~ In newline_byte buf -> Scan data buf !! k = Some line ->
  exists before after,
    buf ++ data = before ++ line ++ after
    /\ count_newlines before = k /\ line_start before /\ line_end after
    /\ (len line < maxTokenSize)%Z.
Proof.
  induction data as [|b d IH]; intros buf k line Hn.
  - rewrite Scan_nil. destruct (Z.leb_spec maxTokenSize (len buf)); [discriminate|].
    destruct buf as [|x buf]; [discriminate|]. destruct k; [|discriminate].
    intros [= <-]. exists [].
    destruct (dropCR_cases (x :: buf)) as [E|E].
    + exists []. rewrite <- E, !app_nil_r. unfold line_start, line_end. auto 6.
    + exists [cr_byte]. rewrite app_nil_r. cbn [app].
      assert (len (dropCR (x :: buf)) <= len (x :: buf))%Z.
      { rewrite E at 2. rewrite len_app. pose proof (len_nonneg [cr_byte]). lia. }
      unfold line_start, line_end. repeat split; auto; lia.
  - rewrite Scan_cons. destruct (Z.leb_spec maxTokenSize (len buf)); [discriminate|].
    destruct (decide (b = newline_byte)) as [->|Hb].
    + destruct k as [|k]; cbn [lookup list_lookup].
      * intros [= <-]. exists [].
        destruct (dropCR_cases buf) as [E|E].
        -- exists (newline_byte :: d). rewrite <- E. cbn [app].
           unfold line_start, line_end. repeat split; eauto 6.
        -- exists (cr_byte :: newline_byte :: d).
           assert (len (dropCR buf) <= len buf)%Z.
           { rewrite E at 2. rewrite len_app. pose proof (len_nonneg [cr_byte]). lia. }
           cbn [app]. split; [rewrite E at 1; now rewrite <- app_assoc|].
           unfold line_start, line_end. repeat split; eauto 6; lia.
      * intros Hk. destruct (IH [] k line ltac:(intros []) Hk)
          as (before & after & Hd & Hc & Hs & He & Hl).
        cbn [app] in Hd. exists (buf ++ newline_byte :: before), after.
        split; [rewrite Hd, <- app_assoc; reflexivity|].
        split; [rewrite count_newlines_app, (count_newlines_none buf Hn),
                  count_newlines_newline; lia|].
        split; [|auto]. right. rewrite last_app_cons_inv.
        destruct Hs as [->|Hs]; [reflexivity|]. destruct before; [discriminate | exact Hs].
    + intros Hk. destruct (IH (buf ++ [b]) k line) as (before & after & Hd & R); [|exact Hk|].
      * intros [Hin|[Heq|[]]]%in_app_or; [auto | congruence].
      * exists before, after. split; [|exact R]. rewrite <- Hd, <- app_assoc. reflexivity.
Qed.

Lemma scanLine_elem filePath repository lineNum line os r : forall ps i out,
  scanLine filePath repository lineNum line ps os i = Some out -> In r out ->
  FilePath r = filePath /\ LineNumber r = lineNum /\ LineText r = line
  /\ Repository r = repository.
Proof.
  induction ps as [|p ps IH]; intros i out; cbn [scanLine].
  - intros [= <-] [].
  - destruct (os !! i) as [o|]; [|discriminate]. cbn [mbind option_bind].
    destruct (scanLine _ _ _ _ ps os (S i)) as [rest|] eqn:E; [|discriminate].
    cbn [mbind option_bind]. intros [= <-] [Hin|Hin]%in_app_or.
    + apply in_map_iff in Hin as (m & <- & _). auto.
    + eapply IH; eassumption.
Qed.

Lemma scanLines_elem filePath repository ps os r : forall lines base out,
  scanLines filePath repository base lines ps os = Some out -> In r out ->
  exists k, lines !! k = Some (LineText r)
            /\ LineNumber r = (base + Z.of_nat k + 1)%Z
            /\ FilePath r = filePath /\ Repository r = repository.
Proof.
  induction lines as [|line lines IH]; intros base out; cbn [scanLines].
  - intros [= <-] [].
  - destruct (scanLine _ _ _ _ ps os 0) as [sent|] eqn:E1; [|discriminate].
    cbn [mbind option_bind].
    destruct (scanLines _ _ _ lines ps os) as [rest|] eqn:E2; [|discriminate].
    cbn [mbind option_bind]. intros [= <-] [Hin|Hin]%in_app_or.
    + destruct (scanLine_elem _ _ _ _ _ _ _ _ _ E1 Hin) as (Hf & Hn & Ht & Hr).
      exists 0. rewrite Ht. cbn. repeat split; auto; lia.
    + destruct (IH _ _ E2 Hin) as (k & Hk & Hn & Hf & Hr).
      exists (S k). cbn. repeat split; auto; lia.
Qed.

(** X7: every result of [scanFile] quotes its file: the line text is the
    run of bytes between two line breaks of the file (or its start, or its
    end), without the carriage return of the line break, and the line
    number is one more than the number of newlines before it.  The text
    has no newline and is shorter than [maxTokenSize]. *)
Theorem result_quotes_file (content filePath : gostring) (ps : list Regexp)
        (os : list gostring) (repository : gostring) (out : list SearchResult)
        (r : SearchResult) :
  scanFile (Some content) filePath ps os repository = Some out -> In r out ->
  exists before after,
    content = before ++ LineText r ++ after
    /\ LineNumber r = (Z.of_nat (count_newlines before) + 1)%Z
    /\ line_start before /\ line_end after
    /\ ~ In newline_byte (LineText r)
    /\ (len (LineText r) < maxTokenSize)%Z
    /\ FilePath r = filePath /\ Repository r = repository.
Proof.
  unfold scanFile. intros Hs Hin.
  destruct (scanLines_elem _ _ _ _ _ _ _ _ Hs Hin) as (k & Hk & Hn & Hf & Hr).
  destruct (Scan_lookup content [] k (LineText r) ltac:(intros []) Hk)
    as (before & after & Hd & Hc & Hb & He & Hl).
  exists before, after. cbn [app] in Hd.
  split; [exact Hd|]. split; [lia|]. split; [exact Hb|]. split; [exact He|].
  split; [|auto].
  apply (Scan_no_newline content [] (LineText r) ltac:(intros [])).
  eapply list_elem_of_In, list_elem_of_lookup_2, Hk.
Qed.

Lemma result_quotes_file_witness :
  exists before after,
    str "a" ++ [cr_byte; newline_byte] ++ str "xTODO" ++ [newline_byte]
    = before ++ str "xTODO" ++ after
    /\ 2%Z = (Z.of_nat (count_newlines before) + 1)%Z.
Proof.
  destruct (result_quotes_file
              (str "a" ++ [cr_byte; newline_byte] ++ str "xTODO" ++ [newline_byte])
              (str "x.go") [[One (Lit 84)]] [str "T"] (str "r")
              [{| FilePath := str "x.go"; LineNumber := 2; LineText := str "xTODO";
                  Repository := str "r";
                  Match := {| MPattern := str "T"; StartIndex := 1; EndIndex := 2 |} |}]
              {| FilePath := str "x.go"; LineNumber := 2; LineText := str "xTODO";
                 Repository := str "r";
                 Match := {| MPattern := str "T"; StartIndex := 1; EndIndex := 2 |} |})
    as (before & after & Hc & Hn & _).
  - vm_compute. reflexivity.
  - left. reflexivity.
  - exists before, after. split; [exact Hc | exact Hn].
Defined.

(** *** The order of the results of a file *)

(** One result is of a line that comes no later than that of the other. *)
Definition line_before (r r' : SearchResult) : Prop :=
  (LineNumber r <= LineNumber r')%Z.

Lemma StronglySorted_app_two {A} (R : A -> A -> Prop) l1 l2 :
  StronglySorted R l1 -> StronglySorted R l2 ->
  (forall x y, In x l1 -> In y l2 -> R x y) ->
  StronglySorted R (l1 ++ l2).
Proof.
  induction 1 as [|x l1 S1 IH Hx]; intros S2 H; [exact S2|].
  cbn [app]. constructor.
  - apply IH; [exact S2|]. intros a b Ha Hb. apply H; [now right | exact Hb].
  - apply Forall_app; split; [exact Hx|].
    apply List.Forall_forall. intros y Hy. apply H; [now left | exact Hy].
Qed.

Lemma StronglySorted_same {A} (R : A -> A -> Prop) l :
  (forall x y, In x l -> In y l -> R x y) -> StronglySorted R l.
Proof.
  induction l as [|x l IH]; intros H; constructor.
  - apply IH. intros a b Ha Hb. apply H; now right.
  - apply List.Forall_forall. intros y Hy. apply H; [now left | now right].
Qed.

Lemma scanLines_sorted filePath repository ps os : forall lines base out,
  scanLines filePath repository base lines ps os = Some out ->
  StronglySorted line_before out.
Proof.
  induction lines as [|line lines IH]; intros base out; cbn [scanLines].
  - intros [= <-]. constructor.
  - destruct (scanLine _ _ _ _ ps os 0) as [sent|] eqn:E1; [|discriminate].
    cbn [mbind option_bind].
    destruct (scanLines _ _ _ lines ps os) as [rest|] eqn:E2; [|discriminate].
    cbn [mbind option_bind]. intros [= <-]. apply StronglySorted_app_two.
    + apply StronglySorted_same. intros x y Hx Hy.
      destruct (scanLine_elem _ _ _ _ _ _ _ _ _ E1 Hx) as (_ & Hn & _).
      destruct (scanLine_elem _ _ _ _ _ _ _ _ _ E1 Hy) as (_ & Hn' & _).
      unfold line_before. lia.
    + eapply IH, E2.
    + intros x y Hx Hy.
      destruct (scanLine_elem _ _ _ _ _ _ _ _ _ E1 Hx) as (_ & Hn & _).
      destruct (scanLines_elem _ _ _ _ _ _ _ _ E2 Hy) as (k & _ & Hn' & _).
      unfold line_before. lia.
Qed.

(** X8: [scanFile] sends the results of a file in the order of its
    lines: of two results, the one sent first is of the same line or of an
    earlier line, and line numbers begin at 1. *)
Theorem results_in_line_order (opened : option gostring) (filePath : gostring)
        (ps : list Regexp) (os : list gostring) (repository : gostring)
        (out : list SearchResult) :
  scanFile opened filePath ps os repository = Some out ->
  (forall i j r r', i < j -> out !! i = Some r -> out !! j = Some r' ->
                    (LineNumber r <= LineNumber r')%Z)
  /\ (forall r, In r out -> (1 <= LineNumber r)%Z).
Proof.
  intros Hs. destruct opened as [content|]; cbn [scanFile] in Hs.
  - split.
    + pose proof (scanLines_sorted _ _ _ _ _ _ _ Hs) as S. clear Hs.
      induction S as [|x l S IH Hx]; intros i j r r' Hij Hi Hj; [destruct i; discriminate|].
      destruct j as [|j]; [lia|]. cbn in Hj. destruct i as [|i]; cbn in Hi.
      * injection Hi as <-. rewrite List.Forall_forall in Hx. apply Hx.
        eapply list_elem_of_In, list_elem_of_lookup_2, Hj.
      * apply (IH i j); [lia | assumption | assumption].
    + intros r Hin. destruct (scanLines_elem _ _ _ _ _ _ _ _ Hs Hin) as (k & _ & Hn & _).
      lia.
  - injection Hs as <-. split; [intros [] | intros r []]; discriminate.
Qed.

Lemma results_in_line_order_witness :
  exists out,
    scanFile (Some (str "TODO")) (str "x.go") [[One (Lit 84)]] [str "T"] (str "r")
    = Some out
    /\ forall r, In r out -> (1 <= LineNumber r)%Z.
Proof.
  eexists. split; [vm_compute; reflexivity|].
  apply (results_in_line_order (Some (str "TODO")) (str "x.go")
           [[One (Lit 84)]] [str "T"] (str "r")).
  vm_compute. reflexivity.
Defined.
End LineFacts.

(** ** More on the walk: extensions and paths *)

Module PathFacts.
Import Spec ProgramFacts ScanClaims Run RunFacts RunClaims.

(** A byte string without a dot and without a separator. *)
Definition plain_name (s : gostring) : Prop := ~ In dot s /\ ~ In separator s.

Lemma ext_loop_shape : forall rpath suffix,
  plain_name suffix ->
  ext_loop rpath suffix = []
  \/ exists base, rev rpath ++ suffix = base ++ ext_loop rpath suffix
                  /\ exists body, ext_loop rpath suffix = dot :: body /\ plain_name body.
Proof.
  induction rpath as [|c rpath IH]; intros suffix [Hd Hs]; cbn [ext_loop]; [now left|].
  destruct (decide (c = separator)) as [_|Hcs]; [now left|].
  destruct (decide (c = dot)) as [->|Hcd].
  - right. exists (rev rpath). cbn [rev]. rewrite <- app_assoc. split; [reflexivity|].
    exists suffix. split; [reflexivity | now split].
  - destruct (IH (c :: suffix)) as [E|(base & Hb & R)].
    + split; intros [?|?]; auto; congruence.
    + now left.
    + right. exists base. cbn [rev]. rewrite <- app_assoc. now split.
Qed.

Lemma ext_loop_found : forall body suffix rest,
  plain_name body ->
  ext_loop (rev body ++ dot :: rest) suffix = dot :: body ++ suffix.
Proof.
  induction body as [|c body IH] using rev_ind; intros suffix rest [Hd Hs].
  - cbn [rev app ext_loop].
    destruct (decide (dot = separator)); [discriminate|].
    destruct (decide (dot = dot)); [reflexivity | congruence].
  - rewrite rev_app_distr. cbn [rev app ext_loop].
    destruct (decide (c = separator)) as [->|_].
    { exfalso. apply Hs, in_or_app. right. now left. }
    destruct (decide (c = dot)) as [->|_].
    { exfalso. apply Hd, in_or_app. right. now left. }
    rewrite IH, <- app_assoc; [reflexivity|].
    split; intros H; [apply Hd | apply Hs]; apply in_or_app; now left.
Qed.

Lemma ext_loop_none : forall name suffix rest,
  ~ In dot name -> (rest = [] \/ exists r, rest = separator :: r) ->
  ext_loop (rev name ++ rest) suffix = [].
Proof.
  induction name as [|c name IH] using rev_ind; intros suffix rest Hd Hr.
  - cbn [rev app]. destruct Hr as [->|[r ->]]; [reflexivity|]. cbn [ext_loop].
    destruct (decide (separator = separator)); [reflexivity | congruence].
  - rewrite rev_app_distr. cbn [rev app ext_loop].
    destruct (decide (c = separator)) as [_|_]; [reflexivity|].
    destruct (decide (c = dot)) as [->|_].
    { exfalso. apply Hd, in_or_app. right. now left. }
    apply IH; [|exact Hr]. intros H. apply Hd, in_or_app. now left.
Qed.

(** X9: what [filepath.Ext] gives [walkRepository]: the extension is a
    suffix of the path; it is either empty or a dot followed by bytes that
    are neither a dot nor a separator.  It is the part of the path from
    its last dot on when no separator follows that dot, and it is empty for
    a path whose last element has no dot. *)
Theorem Ext_is_last_dot_suffix :
  (forall path,
      Ext path = []
      \/ exists base body, path = base ++ Ext path
                           /\ Ext path = dot :: body /\ plain_name body)
  /\ (forall base body, plain_name body -> Ext (base ++ dot :: body) = dot :: body)
  /\ (forall dir name, ~ In dot name -> Ext (dir ++ separator :: name) = [])
  /\ (forall name, ~ In dot name -> Ext name = []).
Proof.
  split; [|split; [|split]].
  - intros path. unfold Ext.
    destruct (ext_loop_shape (rev path) []) as [E|(base & Hb & body & He & Hp)].
    + split; intros [].
    + now left.
    + right. exists base, body. rewrite rev_involutive, app_nil_r in Hb. auto.
  - intros base body Hp. unfold Ext. rewrite rev_app_distr. cbn [rev].
    rewrite <- app_assoc. cbn [app]. rewrite ext_loop_found by exact Hp.
    now rewrite app_nil_r.
  - intros dir name Hd. unfold Ext. rewrite rev_app_distr. cbn [rev].
    rewrite <- app_assoc. cbn [app]. apply ext_loop_none; [exact Hd | eauto].
  - intros name Hd. unfold Ext. rewrite <- (app_nil_r (rev name)).
    apply ext_loop_none; auto.
Qed.
Lemma Ext_head path b e : Ext path = b :: e -> b = dot.
Proof.
  unfold Ext. destruct (ext_loop_shape (rev path) []) as [E|(_ & _ & body & E & _)].
  - split; intros [].
  - rewrite E. discriminate.
  - rewrite E. now intros [= <- _].
Qed.

(** X10: a listed extension selects files only if it begins with a dot
    (or is empty): when every listed extension begins with another byte,
    as in ["go"] for [".go"], no file is scheduled and every run ends
    without a result, whatever the repositories hold. *)
Theorem dotless_extensions_select_nothing (queries : list Query) (ps : list Regexp)
        (os : list gostring) (exts : gmap gostring bool) :
  compilePatterns queries = Some (ps, os, exts) ->
  (forall q ext, In q queries -> In ext (Extensions q) ->
                 exists b e, ext = b :: e /\ b <> dot) ->
  (forall repoPath root, walkRepository repoPath root exts = [])
  /\ (forall w res, completes w queries res -> res = []).
Proof.
  intros Hc Hd.
  assert (Hw : forall repoPath root path, ~ In path (walkRepository repoPath root exts)).
  { intros repoPath root path [_ He]%walkRepository_elem.
    apply (extensions_accepted _ _ _ _ _ Hc) in He as (q & Hq & He).
    destruct (Hd q _ Hq He) as (b & e & Hext & Hb).
    apply Hb. eapply Ext_head, Hext. }
  split.
  - intros repoPath root. destruct (walkRepository repoPath root exts) as [|p l] eqn:E;
      [reflexivity|]. exfalso. apply (Hw repoPath root p). rewrite E. now left.
  - intros w res Hrun. destruct res as [|r res]; [reflexivity|]. exfalso.
    destruct (result_scheduled w queries (r :: res) r Hrun ltac:(now left))
      as (ps' & os' & exts' & repo & root & content & Hc' & _ & _ & Hin & _).
    assert (exts' = exts) as -> by congruence.
    eapply Hw, Hin.
Qed.

Lemma dotless_extensions_select_nothing_witness :
  walkRepository (str "repos/r") (Dir [(str "main.go", File)])
                 (foldl add_extensions ∅ [{| Pattern := str "x"; Extensions := [str "go"] |}])
  = [].
Proof.
  apply (dotless_extensions_select_nothing
           [{| Pattern := str "x"; Extensions := [str "go"] |}]
           [wildcard_regexp (str "x")] [str "x"]).
  - apply compilePatterns_eval. vm_compute. reflexivity.
  - intros q ext [<-|[]] [<-|[]]. eexists _, _. split; [reflexivity | discriminate].
Defined.

(** *** Where the scheduled files lie *)

Lemma located_prefix dir n path n' :
  located dir n path n' ->
  path = dir \/ exists rest, path = dir ++ separator :: rest.
Proof.
  induction 1 as [|dir entries name child path n Hin Hl IH]; [now left|]. right.
  destruct IH as [->|[rest ->]].
  - now exists name.
  - exists (name ++ separator :: rest). unfold Join. now rewrite <- app_assoc.
Qed.

Lemma located_in_directory dir root path :
  IsDir root = true -> located dir root path File ->
  exists rest, path = dir ++ separator :: rest.
Proof.
  intros Hd Hl. destruct root as [|entries| |]; try discriminate.
  - apply located_Dir in Hl as [[_ [=]]|(name & child & _ & Hl)].
    apply located_prefix in Hl as [->|[rest ->]].
    + now exists name.
    + exists (name ++ separator :: rest). unfold Join. now rewrite <- app_assoc.
  - apply located_leaf in Hl as [_ [=]]. discriminate.
Qed.

(** X11: every result of a run is of a file below a directory of
    [./repos]: its path is [repos/], the name of that directory, a
    separator and more, and the repository field of the result is the name
    of that directory.  Files that stand in [./repos] itself are never
    scanned. *)
Theorem result_path_in_repository (w : World) (queries : list Query)
        (res : list SearchResult) (r : SearchResult) :
  completes w queries res -> In r res ->
  exists root rest,
    In (Repository r, root) (repos w) /\ IsDir root = true
    /\ FilePath r = reposDir ++ separator :: Repository r ++ separator :: rest.
Proof.
  intros Hrun Hr.
  destruct (result_scheduled w queries res r Hrun Hr)
    as (ps & os & exts & repo & root & content & Hc & Hin & Hd & Hw & _ & Hres).
  apply file_results_elem in Hres as (n & line & i & po & _ & _ & _ & Heq).
  assert (Repository r = repo) as <- by (rewrite Heq; reflexivity).
  apply walkRepository_elem in Hw as [Hl _].
  destruct (located_in_directory _ _ _ Hd Hl) as [rest Hp].
  exists root, rest. split; [exact Hin|]. split; [exact Hd|].
  rewrite Hp. unfold Join. now rewrite <- app_assoc.
Qed.

Lemma result_path_in_repository_witness :
  exists root rest,
    In (str "r", root) (repos both_open) /\ IsDir root = true
    /\ str "repos/r/a.go" = reposDir ++ separator :: str "r" ++ separator :: rest.
Proof.
  apply (result_path_in_repository both_open go_queries
           [result_at "repos/r/a.go"; result_at "repos/r/b.go"]
           (result_at "repos/r/a.go") (proj1 two_orders)).
  left. reflexivity.
Defined.

(** *** Entries that cannot be read *)


End PathFacts.

(** ** More on the goroutines: no deadlock, and every run ends *)

Module Progress.
Import Spec ProgramFacts ScanClaims Run RunFacts RunClaims.

Section Measure.
Variable w : World.
Variable ps : list Regexp.
Variable os : list gostring.

(** The steps an action of the walker stands for: its own, and for a
    [Spawn] the end of the scan and two steps for each result, one to send
    it and one to receive it. *)
Definition cost (a : action) : nat :=
  match a with
  | Spawn _ _ => 2 + 2 * length (output w ps os a)
  | _ => 1
  end.

(** The steps a scan has before it: one to end, one to send and one to
    receive for each result it has not sent. *)
Definition scanner_cost (sc : list SearchResult) : nat := 1 + 2 * length sc.

(** The steps a state has before it. *)
Definition steps_left (s : state) : nat :=
  list_sum (map cost (walker s)) + list_sum (map scanner_cost (scanners s))
  + length (chan s) + (if closed s then 0 else 1) + (if finished s then 0 else 1).



Lemma list_sum_cons_eq x l : list_sum (x :: l) = x + list_sum l.
Proof. reflexivity. Qed.

Lemma step_steps_left s s' : step w ps os s s' -> steps_left s = S (steps_left s').
Proof.
  intros Hs.
  destruct Hs as [ | ? ? ? ? ? ? ? ? ? ? ? Hscan | | | | | | ]; unfold steps_left;
    cbn [walker scanners chan closed finished map list_sum cost];
    rewrite ?map_app, ?list_sum_app, ?length_app;
    cbn [map list_sum length]; unfold scanner_cost; cbn [length];
    try (cbn [output]; rewrite Hscan; cbn [default]);
    repeat match goal with |- context [if ?b then _ else _] => destruct b end;
    rewrite ?list_sum_cons_eq; change (list_sum []) with 0; unfold id; lia.
Qed.


Hypothesis lengths : length os = length ps.

(** A state that has not finished can take a step. *)
Lemma Inv_progress prog s :
  Inv w ps os prog s -> finished s = false -> exists s', step w ps os s s'.
Proof.
  intros [_ Hw Hc _ _] Hf.
  destruct s as [wk n scs ch cl res fin lg]. cbn in *. subst fin.
  destruct wk as [|[name|path repo|name] wk].
  - destruct scs as [|[|r out] scs].
    + cbn in Hw. subst n. destruct cl.
      * destruct ch as [|r ch]; eexists; [apply step_finish | apply step_recv].
      * eexists. apply step_close.
    + cbn in Hw. subst n. eexists. apply (step_done w ps os []).
    + destruct (Z_lt_dec (Z.of_nat (length ch)) chanCap) as [Hlt|Hge].
      * eexists. apply (step_send w ps os r out [] scs). exact Hlt.
      * destruct ch as [|r' ch]; [cbn in Hge; unfold chanCap in Hge; lia|].
        eexists. apply step_recv.
  - eexists. apply step_enter.
  - destruct (scanFile_total (Open w path) path repo ps os lengths) as [out Ho].
    eexists. apply step_spawn. exact Ho.
  - eexists. apply step_leave.
Qed.


(** Every state of a run can be led to the end of the run. *)
Lemma Inv_can_finish prog : forall k s,
  steps_left s <= k -> Inv w ps os prog s ->
  exists s', steps w ps os s s' /\ finished s' = true.
Proof.
  induction k as [|k IH]; intros s Hk Hi.
  - destruct (finished s) eqn:Hf; [exists s; split; [constructor | exact Hf]|].
    unfold steps_left in Hk. rewrite Hf in Hk. lia.
  - destruct (finished s) eqn:Hf; [exists s; split; [constructor | exact Hf]|].
    destruct (Inv_progress prog s Hi Hf) as [s1 Hs].
    pose proof (step_steps_left _ _ Hs) as Hm.
    destruct (IH s1 ltac:(lia) (step_Inv w ps os prog s s1 Hi Hs)) as (s' & Hr & Hf').
    exists s'. split; [|exact Hf'].
    eapply steps_trans; [apply steps_one, Hs | exact Hr].
Qed.
End Measure.

(** X12: the scan cannot deadlock.  In every state a run can reach,
    some goroutine can take a step unless the collecting loop has ended,
    and the run can be continued from there to the end, where [main] holds
    the results of a complete run.  (The result channel holds 10000
    results; the collecting loop empties it while the scans fill it.) *)
Theorem no_deadlock (w : World) (queries : list Query) (ps : list Regexp)
        (os : list gostring) (exts : gmap gostring bool) (s : state) :
  compilePatterns queries = Some (ps, os, exts) ->
  steps w ps os (init w exts) s ->
  (finished s = false -> exists s', step w ps os s s')
  /\ exists s_end,
       steps w ps os s s_end /\ finished s_end = true
       /\ completes w queries (results s_end).
Proof.
  intros Hc Hs. pose proof (compiled_lengths _ _ _ _ Hc) as Hl.
  assert (Hi : Inv w ps os (walkerProgram w exts) s)
    by (eapply steps_Inv; [apply Inv_init | exact Hs]).
  split; [now apply (Inv_progress w ps os Hl (walkerProgram w exts))|].
  destruct (Inv_can_finish w ps os Hl (walkerProgram w exts) _ s (le_n _) Hi)
    as (s_end & Hr & Hf).
  exists s_end. split; [exact Hr|]. split; [exact Hf|].
  exists ps, os, exts, s_end. split; [exact Hc|]. split; [|auto].
  eapply steps_trans; eassumption.
Qed.

Lemma no_deadlock_witness :
  exists s_end,
    steps both_open [wildcard_regexp (str "x")] [str "x"]
          (init both_open (foldl add_extensions ∅ go_queries)) s_end
    /\ finished s_end = true
    /\ completes both_open go_queries (results s_end).
Proof.
  apply (no_deadlock both_open go_queries [wildcard_regexp (str "x")] [str "x"]
           (foldl add_extensions ∅ go_queries)
           (init both_open (foldl add_extensions ∅ go_queries))).
  - apply compilePatterns_eval. vm_compute. reflexivity.
  - apply steps_refl.
Defined.



End Progress.

(** ** The report: [writeResults] *)

(** *** [fmt.Sprintf("%d", n)] *)

(** The decimal digits of an [int], with a minus sign when it is
    negative. *)
Definition Sprintf_d (n : Z) : gostring :=
  str (NilZero.string_of_int (Z.to_int n)).

(** *** [encoding/csv]: the writer *)

Module Csv.
Import Utf8.

Definition quote_byte : byte := x22.
Definition Comma : byte := ","%byte.

(** The field [UseCRLF] of a [csv.Writer]; [csv.NewWriter] leaves it
    false. *)
Definition UseCRLF : bool := false.

(** [unicode.IsSpace]. *)
Definition IsSpace (r : Z) : bool :=
  if (r <=? 0xFF)%Z then
    bool_decide (r ∈ [0x09; 0x0A; 0x0B; 0x0C; 0x0D; 0x20; 0x85; 0xA0]%Z)
  else
    ((r =? 0x1680) || ((0x2000 <=? r) && (r <=? 0x200A))
     || (r =? 0x2028) || (r =? 0x2029) || (r =? 0x202F) || (r =? 0x205F)
     || (r =? 0x3000))%Z.

(** The bytes that force a field into quotes. *)
Definition needs_quote (c : byte) : bool :=
  bool_decide (c = newline_byte) || bool_decide (c = cr_byte)
  || bool_decide (c = quote_byte) || bool_decide (c = Comma).

(** [Writer.fieldNeedsQuotes]. *)
Definition fieldNeedsQuotes (field : gostring) : bool :=
  match field with
  | [] => false
  | _ =>
    if decide (field = str "\.") then true
    else if existsb needs_quote field then true
    else IsSpace (fst (DecodeRuneInString field))
  end.

(** The loop of [Writer.Write] over a field that is written in quotes:
    runs without a special byte are copied, a quote is doubled, and
    carriage returns and newlines are written as [UseCRLF] says. *)
Fixpoint quoted (field : gostring) : gostring :=
  match field with
  | [] => []
  | c :: field' =>
    (if decide (c = quote_byte) then [quote_byte; quote_byte]
     else if decide (c = cr_byte) then (if UseCRLF then [] else [cr_byte])
     else if decide (c = newline_byte) then
       (if UseCRLF then [cr_byte; newline_byte] else [newline_byte])
     else [c])
    ++ quoted field'
  end.

Definition writeField (field : gostring) : gostring :=
  if fieldNeedsQuotes field then quote_byte :: quoted field ++ [quote_byte]
  else field.

(** The fields of a record, with a comma before each but the first. *)
Fixpoint writeFields (n : nat) (record : list gostring) : gostring :=
  match record with
  | [] => []
  | field :: record' =>
    (if (0 <? n)%nat then [Comma] else []) ++ writeField field
    ++ writeFields (S n) record'
  end.

(** [Writer.Write]: the bytes it hands to the buffered writer. *)
Definition Write (record : list gostring) : gostring :=
  writeFields 0 record ++ (if UseCRLF then [cr_byte; newline_byte] else [newline_byte]).
End Csv.

(** *** [writeResults] *)

Definition header : list gostring :=
  [str "file_path"; str "line_number"; str "line_content"; str "repository_name";
   str "pattern"; str "start_index"; str "end_index"].

(** The record written for one result. *)
Definition record_of (result : SearchResult) : list gostring :=
  [FilePath result; Sprintf_d (LineNumber result); LineText result;
   Repository result; MPattern (Match result);
   Sprintf_d (StartIndex (Match result)); Sprintf_d (EndIndex (Match result))].

(** What [writeResults] writes through the [csv.Writer] before the
    deferred [Flush] and [Close]. *)
Definition report_bytes (results : list SearchResult) : gostring :=
  Csv.Write header ++ flat_map (fun result => Csv.Write (record_of result)) results.

(** [writeResults].  [created] tells whether [os.Create(outputFile)]
    succeeds; the writes to the created file are taken to succeed.  The
    result is the content of the output file afterwards ([None]: the file
    is as it was) and whether an error is returned. *)
Definition writeResults (results : list SearchResult) (created : bool)
  : option gostring * bool :=
  if created then (Some (report_bytes results), false)
  else (None, true).

Module ReportFacts.
Import Csv.

(** **** Reading a field back *)

(** The field read from a text that begins after an opening quote, and
    what follows its closing quote. *)
Fixpoint read_quoted (s : gostring) : option (gostring * gostring) :=
  match s with
  | [] => None
  | c :: s' =>
    if decide (c = quote_byte) then
      match s' with
      | c' :: s'' =>
        if decide (c' = quote_byte) then
          match read_quoted s'' with
          | Some (f, rest) => Some (quote_byte :: f, rest)
          | None => None
          end
        else Some ([], s')
      | [] => Some ([], [])
      end
    else
      match read_quoted s' with
      | Some (f, rest) => Some (c :: f, rest)
      | None => None
      end
  end.

(** The field read from a text that does not begin with a quote: it
    runs to the next comma or newline. *)
Fixpoint read_bare (s : gostring) : gostring * gostring :=
  match s with
  | [] => ([], [])
  | c :: s' =>
    if decide (c = Comma) then ([], s)
    else if decide (c = newline_byte) then ([], s)
    else let '(f, rest) := read_bare s' in (c :: f, rest)
  end.

Definition read_field (s : gostring) : option (gostring * gostring) :=
  match s with
  | c :: s' => if decide (c = quote_byte) then read_quoted s' else Some (read_bare s)
  | [] => Some ([], [])
  end.

(** What ends a field. *)
Definition field_end (c : byte) : Prop := c = Comma \/ c = newline_byte.

Lemma read_quoted_quoted field c rest :
  field_end c ->
  read_quoted (quoted field ++ quote_byte :: c :: rest) = Some (field, c :: rest).
Proof.
  intros Hc. induction field as [|x field IH].
  - cbn [quoted app read_quoted].
    destruct (decide (quote_byte = quote_byte)); [|congruence].
    destruct (decide (c = quote_byte)) as [->|_]; [destruct Hc; discriminate | reflexivity].
  - cbn [quoted]. change UseCRLF with false. cbv iota.
    destruct (decide (x = quote_byte)) as [->|Hq].
    + cbn [app read_quoted]. destruct (decide (quote_byte = quote_byte)); [|congruence].
      now rewrite IH.
    + assert (E : (if decide (x = cr_byte) then [cr_byte]
                   else if decide (x = newline_byte) then [newline_byte] else [x]) = [x]).
      { destruct (decide (x = cr_byte)) as [->|_]; [reflexivity|].
        destruct (decide (x = newline_byte)) as [->|_]; reflexivity. }
      rewrite E. cbn [app read_quoted].
      destruct (decide (x = quote_byte)); [contradiction|]. now rewrite IH.
Qed.

Lemma read_bare_plain field c rest :
  field_end c -> existsb needs_quote field = false ->
  read_bare (field ++ c :: rest) = (field, c :: rest).
Proof.
  intros Hc. induction field as [|x field IH]; intros Hn.
  - cbn [app read_bare]. destruct Hc as [->| ->].
    + destruct (decide (Comma = Comma)); [reflexivity | congruence].
    + destruct (decide (newline_byte = Comma)); [reflexivity|].
      destruct (decide (newline_byte = newline_byte)); [reflexivity | congruence].
  - cbn [existsb] in Hn. apply orb_false_iff in Hn as [Hx Hn].
    unfold needs_quote in Hx.
    repeat (apply orb_false_iff in Hx as [Hx ?]).
    cbn [app read_bare].
    destruct (decide (x = Comma)) as [->|_]; [now rewrite bool_decide_eq_true_2 in * |].
    destruct (decide (x = newline_byte)) as [->|_];
      [now rewrite bool_decide_eq_true_2 in * |].
    now rewrite IH.
Qed.

Lemma read_field_writeField field c rest :
  field_end c ->
  read_field (writeField field ++ c :: rest) = Some (field, c :: rest).
Proof.
  intros Hc. unfold writeField.
  destruct (fieldNeedsQuotes field) eqn:E.
  - cbn [app read_field]. destruct (decide (quote_byte = quote_byte)); [|congruence].
    rewrite <- app_assoc. cbn [app]. now apply read_quoted_quoted.
  - destruct field as [|x field].
    + cbn [app read_field]. destruct (decide (c = quote_byte)) as [->|_].
      { destruct Hc; discriminate. }
      pose proof (read_bare_plain [] c rest Hc eq_refl) as R. cbn [app] in R.
      now rewrite R.
    + unfold fieldNeedsQuotes in E.
      destruct (decide (x :: field = str "\.")); [discriminate|].
      destruct (existsb needs_quote (x :: field)) eqn:Hn; [discriminate|].
      cbn [app read_field].
      destruct (decide (x = quote_byte)) as [->|_].
      { cbn [existsb] in Hn. unfold needs_quote in Hn.
        rewrite (bool_decide_eq_true_2 (quote_byte = quote_byte)) in Hn by reflexivity.
        rewrite !orb_true_r in Hn. discriminate. }
      pose proof (read_bare_plain (x :: field) c rest Hc Hn) as R. cbn [app] in R.
      now rewrite R.
Qed.

(** **** Records *)

Lemma writeFields_cons n field record :
  writeFields (S n) (field :: record)
  = Comma :: writeField field ++ writeFields (S (S n)) record.
Proof. reflexivity. Qed.

Lemma writeFields_S n m record : writeFields (S n) record = writeFields (S m) record.
Proof.
  revert n m. induction record as [|f record IH]; intros n m; [reflexivity|].
  rewrite !writeFields_cons. f_equal. f_equal. apply IH.
Qed.

(** Two records of the same number of fields that are written alike are
    the same record. *)
Lemma writeFields_inj : forall record1 record2 n rest1 rest2,
  length record1 = length record2 ->
  writeFields (S n) record1 ++ newline_byte :: rest1
  = writeFields (S n) record2 ++ newline_byte :: rest2 ->
  record1 = record2 /\ rest1 = rest2.
Proof.
  induction record1 as [|f1 record1 IH]; intros [|f2 record2] n rest1 rest2 Hl;
    try discriminate.
  - cbn [writeFields app]. now intros [= ->].
  - rewrite !writeFields_cons. cbn [app]. intros [= H].
    rewrite <- !app_assoc in H.
    assert (Hend : forall record rest,
               exists c tl, writeFields (S (S n)) record ++ newline_byte :: rest = c :: tl
                            /\ field_end c).
    { intros [|f record] rest; cbn [app].
      - exists newline_byte, rest. split; [reflexivity | now right].
      - rewrite writeFields_cons. cbn [app]. eexists _, _. split; [reflexivity | now left]. }
    destruct (Hend record1 rest1) as (c1 & tl1 & E1 & Hc1).
    destruct (Hend record2 rest2) as (c2 & tl2 & E2 & Hc2).
    pose proof (read_field_writeField f1 c1 tl1 Hc1) as R1.
    pose proof (read_field_writeField f2 c2 tl2 Hc2) as R2.
    rewrite <- E1 in R1 at 1. rewrite <- E2 in R2 at 1. rewrite H in R1.
    rewrite R1 in R2. injection R2 as -> Htl. rewrite E1, E2 in H.
    apply app_inv_head in H. rewrite <- E1, <- E2 in H.
    destruct (IH record2 (S n) rest1 rest2 ltac:(cbn in Hl; lia) H) as [-> ->].
    now split.
Qed.

Lemma Write_as_fields field record rest :
  Comma :: Write (field :: record) ++ rest
  = writeFields 1 (field :: record) ++ newline_byte :: rest.
Proof.
  unfold Write. change UseCRLF with false. cbv iota.
  rewrite writeFields_cons. cbn [writeFields Nat.ltb Nat.leb app].
  rewrite (writeFields_S 1 0), <- !app_assoc. reflexivity.
Qed.

Lemma Write_inj field1 record1 field2 record2 rest1 rest2 :
  length record1 = length record2 ->
  Write (field1 :: record1) ++ rest1 = Write (field2 :: record2) ++ rest2 ->
  field1 :: record1 = field2 :: record2 /\ rest1 = rest2.
Proof.
  intros Hl H. apply (f_equal (cons Comma)) in H.
  rewrite !Write_as_fields in H.
  apply writeFields_inj in H; [exact H | cbn; lia].
Qed.

(** **** Numbers *)

Lemma Sprintf_d_inj n m : Sprintf_d n = Sprintf_d m -> n = m.
Proof.
  unfold Sprintf_d, str. intros H.
  apply (f_equal string_of_list_byte) in H.
  rewrite !string_of_list_byte_of_string in H.
  apply (f_equal NilZero.int_of_string) in H.
  assert (Hn : forall z, Z.to_int z <> Decimal.Pos Decimal.Nil
                         /\ Z.to_int z <> Decimal.Neg Decimal.Nil).
  { intros [|p|p]; cbn; split; try discriminate; intros [= E];
      now apply Unsigned.to_uint_nonnil in E. }
  rewrite !NilZero.isi in H by apply Hn.
  injection H as H. now apply DecimalZ.to_int_inj.
Qed.

Lemma record_of_inj r1 r2 : record_of r1 = record_of r2 -> r1 = r2.
Proof.
  destruct r1 as [f1 n1 t1 p1 [o1 a1 b1]], r2 as [f2 n2 t2 p2 [o2 a2 b2]].
  unfold record_of. cbn [FilePath LineNumber LineText Repository Match MPattern
                         StartIndex EndIndex].
  intros [= -> Hn%Sprintf_d_inj -> -> -> Ha%Sprintf_d_inj Hb%Sprintf_d_inj].
  now subst.
Qed.

Lemma rows_inj : forall rs1 rs2,
  flat_map (fun r => Write (record_of r)) rs1 = flat_map (fun r => Write (record_of r)) rs2 ->
  rs1 = rs2.
Proof.
  assert (Hne : forall r rest, Write (record_of r) ++ rest <> []).
  { intros r rest. unfold Write, record_of. cbn [writeFields].
    unfold writeField at 1. destruct (fieldNeedsQuotes (FilePath r)); [discriminate|].
    destruct (FilePath r); discriminate. }
  induction rs1 as [|r1 rs1 IH]; intros [|r2 rs2]; cbn [flat_map]; intros H.
  - reflexivity.
  - symmetry in H. now apply Hne in H.
  - now apply Hne in H.
  - unfold record_of in H at 1 3.
    apply Write_inj in H as [E H]; [|reflexivity].
    f_equal; [now apply record_of_inj | now apply IH].
Qed.

(** X14: the report loses nothing: two lists of results for which
    [writeResults] writes the same file are the same list, field for
    field and in the same order, whatever bytes the paths, lines and
    patterns hold (commas, quotes, line breaks, bytes that are not
    UTF-8). *)
Theorem report_determines_results (results1 results2 : list SearchResult) :
  writeResults results1 true = writeResults results2 true -> results1 = results2.
Proof.
  unfold writeResults. intros H.
  assert (E : report_bytes results1 = report_bytes results2) by congruence.
  unfold report_bytes in E. apply app_inv_head in E. now apply rows_inj.
Qed.

Lemma report_determines_results_witness :
  [{| FilePath := str "a,b.go"; LineNumber := 3; LineText := [quote_byte];
      Repository := str "r";
      Match := {| MPattern := str " x"; StartIndex := 0; EndIndex := 1 |} |}]
  = [{| FilePath := str "a,b.go"; LineNumber := 3; LineText := [quote_byte];
        Repository := str "r";
        Match := {| MPattern := str " x"; StartIndex := 0; EndIndex := 1 |} |}].
Proof.
  apply report_determines_results. reflexivity.
Defined.
End ReportFacts.

(** ** The results of a run, all of them *)

Module Completeness.
Import Utf8 Spec MatchFacts CompileFacts ProgramFacts MatcherClaims ScanClaims Run RunFacts RunClaims.

(** [r] is a match that the scan has to report: a span that some pattern
    of the queries has in a line of a file that can be opened, lies below
    a directory of [./repos] and has a listed extension. *)
Definition is_match (w : World) (queries : list Query) (r : SearchResult) : Prop :=
  exists root content n i q re,
    In (Repository r, root) (repos w) /\ IsDir root = true
    /\ located (Join reposDir (Repository r)) root (FilePath r) File
    /\ accepted queries (Ext (FilePath r))
    /\ Open w (FilePath r) = Some content
    /\ Scan content [] !! n = Some (LineText r)
    /\ LineNumber r = (Z.of_nat n + 1)%Z
    /\ queries !! i = Some q
    /\ compilePattern (Pattern q) = Some re
    /\ MPattern (Match r) = Pattern q
    /\ In (Match r) (findMatchPositions (LineText r) re (Pattern q)).

Lemma compiled_lookup queries ps os exts i re o :
  compilePatterns queries = Some (ps, os, exts) ->
  zip ps os !! i = Some (re, o) <->
  exists q, queries !! i = Some q /\ compilePattern (Pattern q) = Some re
            /\ o = Pattern q.
Proof.
  intros (F & -> & _)%compilePatterns_inv. rewrite lookup_zip_with_Some. split.
  - intros (re' & o' & [= <- <-] & Hp & Ho).
    apply list_lookup_fmap_Some in Ho as (q & -> & Hq).
    exists q. split; [exact Hq|]. split; [|reflexivity].
    destruct (Forall2_lookup_l _ _ _ _ _ F Hq) as (re' & Hre & Hcomp). congruence.
  - intros (q & Hq & Hcomp & ->). exists re, (Pattern q). split; [reflexivity|].
    destruct (Forall2_lookup_l _ _ _ _ _ F Hq) as (re' & Hre & Hcomp'). split.
    + congruence.
    + now rewrite list_lookup_fmap, Hq.
Qed.

(** X15: the results that [main] collects are exactly the matches:
    every result is a span of a pattern of some query in a line of a
    scheduled file that could be opened, with the number of that line, and
    every such span is among the results.  The pattern may be that of any
    query: the extension lists are pooled, so a file with an extension that
    one query lists is searched for the patterns of all queries. *)
Theorem results_are_the_matches (w : World) (queries : list Query)
        (res : list SearchResult) (r : SearchResult) :
  completes w queries res ->
  In r res <-> is_match w queries r.
Proof.
  intros Hrun. split.
  - intros Hr.
    destruct (result_scheduled w queries res r Hrun Hr)
      as (ps & os & exts & repo & root & content & Hc & Hin & Hd & Hw & Ho & Hres).
    apply file_results_elem in Hres as (n & line & i & [re o] & Hn & Hi & Hm & Heq).
    apply (compiled_lookup _ _ _ _ _ _ _ Hc) in Hi as (q & Hq & Hcomp & ->).
    apply walkRepository_elem in Hw as [Hl He].
    apply (extensions_accepted _ _ _ _ _ Hc) in He.
    assert (Hrepo : Repository r = repo) by (rewrite Heq; reflexivity).
    assert (Hline : LineText r = line) by (rewrite Heq; reflexivity).
    assert (Hnum : LineNumber r = (Z.of_nat n + 1)%Z) by (rewrite Heq; reflexivity).
    cbn [fst snd] in Hm. pose proof (findMatchPositions_bound _ _ _ _ Hm) as [Hp _].
    exists root, content, n, i, q, re. rewrite Hrepo, Hline. auto 12.
  - intros (root & content & n & i & q & re & Hin & Hd & Hl & He & Ho & Hn & Hnum
            & Hq & Hcomp & Hp & Hm).
    apply completes_results in Hrun as (ps & os & exts & Hc & Hperm).
    apply (Permutation_in _ (Permutation_sym Hperm)), outputs_elem.
    exists (FilePath r), (Repository r). split.
    + apply walkerProgram_spawn. exists root. split; [exact Hin|]. split; [exact Hd|].
      apply walkRepository_elem. split; [exact Hl|].
      now apply (extensions_accepted _ _ _ _ _ Hc).
    + rewrite Ho, scanFile_spec by (eapply compiled_lengths, Hc). cbn [default].
      apply file_results_elem. exists n, (LineText r), i, (re, Pattern q).
      split; [exact Hn|]. split; [apply (compiled_lookup _ _ _ _ _ _ _ Hc); eauto|].
      split; [exact Hm|]. destruct r as [f k t p m]. cbn in *. now subst.
Qed.

(** Two queries with different extensions, and a [.go] file that holds
    the pattern of the query for [.js] files. *)
Definition mixed_queries : list Query :=
  [{| Pattern := str "x"; Extensions := [str ".go"] |};
   {| Pattern := str "y"; Extensions := [str ".js"] |}].

Definition mixed_world : World :=
  {| repos := [(str "r", Dir [(str "a.go", File)])];
     Open := fun _ => Some (str "y") |}.

Lemma results_are_the_matches_witness :
  is_match mixed_world mixed_queries
    {| FilePath := str "repos/r/a.go"; LineNumber := 1; LineText := str "y";
       Repository := str "r";
       Match := {| MPattern := str "y"; StartIndex := 0; EndIndex := 1 |} |}.
Proof.
  assert (Hc : compilePatterns mixed_queries
               = Some ([wildcard_regexp (str "x"); wildcard_regexp (str "y")],
                       [str "x"; str "y"], foldl add_extensions ∅ mixed_queries))
    by (apply compilePatterns_eval; vm_compute; reflexivity).
  pose proof (run_exists mixed_world mixed_queries _ _ _ Hc) as Hrun.
  apply (results_are_the_matches mixed_world mixed_queries _ _ Hrun).
  vm_compute. left. reflexivity.
Defined.

(** X16: the text of the regular expression that [compilePatterns]
    compiles for a pattern: byte by byte, [*] becomes [.*], [?] becomes
    [.], every other byte that [QuoteMeta] escapes gets a backslash, and
    all other bytes stay.  This holds for every byte string, valid UTF-8
    or not, and neither [MustCompile] of the two rewriting steps
    panics. *)
Theorem regex_text_bytewise (pattern : gostring) :
  wildcardToRegex pattern
  = Some (flat_map
            (fun b => if decide (b = "*"%byte) then str ".*"
                      else if decide (b = "?"%byte) then str "."
                      else if special b then [backslash; b]
                      else [b])
            pattern).
Proof.
  rewrite wildcardToRegex_spec. f_equal. apply flat_map_ext. intros b.
  unfold wild_step, star_step, quote_step, question_byte, star_byte.
  destruct (decide (b = "?"%byte)) as [->|_]; [reflexivity|].
  destruct (decide (b = "*"%byte)); reflexivity.
Qed.
End Completeness.

(** ** Every match is reported once *)

Module Once.
Import Spec MatchFacts ProgramFacts ScanClaims Run RunFacts RunClaims MatchOrder PathFacts.

(** Directory entries as a file system has them: within a directory no
    name occurs twice, and no name holds a separator. *)
Fixpoint well_named (n : node) : Prop :=
  match n with
  | Dir entries =>
    NoDup (map fst entries)
    /\ (fix all (es : list (gostring * node)) : Prop :=
          match es with
          | [] => True
          | (name, child) :: es' =>
            ~ In separator name /\ well_named child /\ all es'
          end) entries
  | _ => True
  end.

Lemma well_named_Dir entries :
  well_named (Dir entries) <->
  NoDup (map fst entries)
  /\ Forall (fun e => ~ In separator (fst e) /\ well_named (snd e)) entries.
Proof.
  cbn [well_named]. split; intros [H1 H2]; (split; [exact H1|]); clear H1.
  - induction entries as [|[name child] es IH]; constructor.
    + cbn [fst snd]. tauto.
    + apply IH. tauto.
  - induction H2 as [|[name child] es [Hn Hc] _ IH]; [exact I|]. cbn [fst snd] in *. tauto.
Qed.

(** Lists made of parts that can be told apart by a key have no
    duplicates when the parts have none and the keys differ. *)
Lemma NoDup_flat_map_keyed {A B K} (f : A -> list B) (ka : A -> K)
      (P : B -> K -> Prop) (l : list A) :
  NoDup (map ka l) ->
  (forall x, In x l -> NoDup (f x)) ->
  (forall x b, In x l -> In b (f x) -> P b (ka x)) ->
  (forall b k k', P b k -> P b k' -> k = k') ->
  NoDup (flat_map f l).
Proof.
  intros Hk Hf HP Hfun. induction l as [|x l IH]; cbn [flat_map]; [constructor|].
  cbn [map] in Hk. apply NoDup_cons in Hk as [Hx Hk].
  apply NoDup_app. split; [apply Hf; now left|]. split.
  - intros b Hb%list_elem_of_In Hb'%list_elem_of_In.
    apply in_flat_map in Hb' as (y & Hy & Hby).
    apply Hx, list_elem_of_In, in_map_iff. exists y. split; [|exact Hy].
    apply (Hfun b); apply HP; [now right | exact Hby | now left | exact Hb].
  - apply IH; [exact Hk | |]; intros; [apply Hf | apply HP]; auto; now right.
Qed.

Lemma NoDup_map_inj {A B} (f : A -> B) l :
  (forall x y, f x = f y -> x = y) -> NoDup l -> NoDup (map f l).
Proof.
  intros Hinj. induction 1 as [|x l Hx _ IH]; cbn [map]; constructor; [|exact IH].
  intros (y & Hy%Hinj & Hin%list_elem_of_In)%list_elem_of_In%in_map_iff.
  subst y. contradiction.
Qed.

(** *** The walk schedules no file twice *)

(** [path] lies in or below the entry [name] of the directory [dir]. *)
Definition under (dir path name : gostring) : Prop :=
  ~ In separator name
  /\ exists tail, path = dir ++ separator :: name ++ tail
                  /\ (tail = [] \/ exists t, tail = separator :: t).

Lemma name_prefix_eq : forall n1 n2 t1 t2 : gostring,
  ~ In separator n1 -> ~ In separator n2 ->
  (t1 = [] \/ exists t, t1 = separator :: t) ->
  (t2 = [] \/ exists t, t2 = separator :: t) ->
  n1 ++ t1 = n2 ++ t2 -> n1 = n2.
Proof.
  induction n1 as [|a n1 IH]; intros [|b n2] t1 t2 H1 H2 T1 T2; cbn [app]; intros E.
  - reflexivity.
  - exfalso. destruct T1 as [T1|[t T1]]; rewrite T1 in E; [discriminate|].
    injection E as E _. apply H2. left. congruence.
  - exfalso. destruct T2 as [T2|[t T2]]; rewrite T2 in E; [discriminate|].
    injection E as E _. apply H1. left. congruence.
  - injection E as -> E. f_equal. apply (IH n2 t1 t2); auto; intros H; [apply H1 | apply H2];
      now right.
Qed.

Lemma under_functional dir path n1 n2 : under dir path n1 -> under dir path n2 -> n1 = n2.
Proof.
  intros (H1 & t1 & E1 & T1) (H2 & t2 & E2 & T2). rewrite E1 in E2.
  apply app_inv_head in E2. injection E2 as E2.
  apply (name_prefix_eq n1 n2 t1 t2); assumption.
Qed.

Lemma walk_under dir name child path exts :
  ~ In separator name ->
  In path (walkRepository (Join dir name) child exts) -> under dir path name.
Proof.
  intros Hn [Hl _]%walkRepository_elem. split; [exact Hn|].
  apply located_prefix in Hl as [->|[rest ->]].
  - exists []. rewrite app_nil_r. auto.
  - exists (separator :: rest). unfold Join. rewrite <- app_assoc. cbn [app]. eauto.
Qed.

Lemma walkRepository_Dir dir entries exts :
  walkRepository dir (Dir entries) exts
  = flat_map (fun e => walkRepository (Join dir (fst e)) (snd e) exts) entries.
Proof. unfold walkRepository. now rewrite Walk_Dir. Qed.

Lemma walkRepository_NoDup exts root :
  well_named root -> forall dir, NoDup (walkRepository dir root exts).
Proof.
  induction root as [|entries IH| |] using node_induction; intros Hw dir.
  - unfold walkRepository. cbn [Walk negb andb].
    destruct (map_get exts (Ext dir)); [apply NoDup_singleton | constructor].
  - rewrite walkRepository_Dir. apply well_named_Dir in Hw as [Hn Hf].
    apply (NoDup_flat_map_keyed _ fst (under dir)).
    + exact Hn.
    + intros e He. rewrite List.Forall_forall in IH, Hf.
      apply IH; [exact He | apply Hf, He].
    + intros [name child] path He Hp. rewrite List.Forall_forall in Hf.
      eapply walk_under; [apply (Hf _ He) | exact Hp].
    + intros. eapply under_functional; eassumption.
  - constructor.
  - constructor.
Qed.

(** *** The scan of a file sends no result twice *)

Lemma numbered_keys lines : NoDup (map fst (numbered lines)).
Proof.
  apply NoDup_alt. intros i j k Hi Hj. unfold numbered in *.
  rewrite list_lookup_fmap, list_lookup_imap in Hi, Hj.
  destruct (lines !! i); [|discriminate]. destruct (lines !! j); [|discriminate].
  cbn in Hi, Hj. injection Hi as Hi. injection Hj as Hj. lia.
Qed.

Lemma line_results_NoDup filePath repository lineNum line compiled :
  NoDup (map snd compiled) ->
  NoDup (line_results filePath repository lineNum line compiled).
Proof.
  intros Hn. unfold line_results.
  apply (NoDup_flat_map_keyed _ snd (fun r o => MPattern (Match r) = o)).
  - exact Hn.
  - intros [re o] _. apply NoDup_map_inj; [|apply findMatchPositions_NoDup].
    now intros m m' [= ->].
  - intros [re o] r _ (m & <- & Hm)%in_map_iff. cbn [Match snd].
    now apply findMatchPositions_bound in Hm as [Hp _].
  - congruence.
Qed.

Lemma file_results_NoDup filePath repository lines compiled :
  NoDup (map snd compiled) ->
  NoDup (file_results filePath repository lines compiled).
Proof.
  intros Hn. unfold file_results.
  apply (NoDup_flat_map_keyed _ fst (fun r k => LineNumber r = k)).
  - apply numbered_keys.
  - intros. now apply line_results_NoDup.
  - intros [k line] r _ Hr. unfold line_results in Hr.
    apply in_flat_map in Hr as (po & _ & (m & <- & _)%in_map_iff). reflexivity.
  - congruence.
Qed.

Section Outputs.
Variable w : World.
Variable ps : list Regexp.
Variable os : list gostring.
Hypothesis lengths : length os = length ps.
Hypothesis distinct : NoDup os.

(** What the scan of one file sends. *)
Definition scan_of (repository path : gostring) : list SearchResult :=
  default [] (scanFile (Open w path) path ps os repository).

Lemma scan_of_NoDup repository path : NoDup (scan_of repository path).
Proof.
  unfold scan_of. destruct (Open w path) as [content|]; [|constructor].
  rewrite scanFile_spec by exact lengths. cbn [default].
  apply file_results_NoDup.
  change (map snd (zip ps os)) with ((zip ps os).*2).
  rewrite snd_zip by lia. exact distinct.
Qed.

Lemma scan_of_path repository path r : In r (scan_of repository path) -> FilePath r = path.
Proof.
  unfold scan_of. destruct (Open w path) as [content|]; [|intros []].
  rewrite scanFile_spec by exact lengths. cbn [default].
  intros (n & line & i & po & _ & _ & _ & ->)%file_results_elem. reflexivity.
Qed.

Lemma outputs_flat_map {A} (g : A -> list action) l :
  outputs w ps os (flat_map g l) = flat_map (fun x => outputs w ps os (g x)) l.
Proof.
  unfold outputs. induction l as [|x l IH]; [reflexivity|].
  cbn [flat_map]. now rewrite flat_map_app, IH.
Qed.

Lemma outputs_repoActions exts repo :
  outputs w ps os (repoActions exts repo)
  = if IsDir (snd repo)
    then flat_map (scan_of (fst repo))
                  (walkRepository (Join reposDir (fst repo)) (snd repo) exts)
    else [].
Proof.
  unfold repoActions. destruct (IsDir (snd repo)); [|reflexivity].
  unfold outputs. cbn [flat_map output app]. rewrite flat_map_app. cbn [flat_map output].
  rewrite !app_nil_r.
  induction (walkRepository _ _ _) as [|p l IH]; [reflexivity|].
  cbn [map flat_map output]. now rewrite IH.
Qed.

Lemma outputs_NoDup exts :
  well_named (Dir (repos w)) -> NoDup (outputs w ps os (walkerProgram w exts)).
Proof.
  intros [Hn Hf]%well_named_Dir. unfold walkerProgram. rewrite outputs_flat_map.
  apply (NoDup_flat_map_keyed _ fst (fun r name => under reposDir (FilePath r) name)).
  - exact Hn.
  - intros repo Hrepo. rewrite outputs_repoActions.
    destruct (IsDir (snd repo)); [|constructor].
    apply (NoDup_flat_map_keyed _ id (fun r path => FilePath r = path)).
    + rewrite map_id. apply walkRepository_NoDup.
      rewrite List.Forall_forall in Hf. apply (Hf _ Hrepo).
    + intros. apply scan_of_NoDup.
    + intros path r _ Hr. now apply scan_of_path in Hr.
    + congruence.
  - intros [name root] r Hrepo. rewrite outputs_repoActions. cbn [fst snd].
    destruct (IsDir root); [|intros []].
    intros (path & Hp & Hr)%in_flat_map. apply scan_of_path in Hr as ->.
    rewrite List.Forall_forall in Hf. eapply walk_under; [apply (Hf _ Hrepo) | exact Hp].
  - intros. eapply under_functional; eassumption.
Qed.
End Outputs.

(** X17: every match is reported once.  When no directory holds a name
    twice (and no name holds a separator), as in a file system, and no
    pattern is listed twice in the queries, the results of a run hold no
    result twice: no file is scheduled twice, and the scan of a file
    sends each span of each pattern in each line once. *)
Theorem each_match_reported_once (w : World) (queries : list Query)
        (res : list SearchResult) :
  well_named (Dir (repos w)) -> NoDup (map Pattern queries) ->
  completes w queries res ->
  NoDup res
  /\ forall repoPath root exts,
       well_named root -> NoDup (walkRepository repoPath root exts).
Proof.
  intros Hw Hq Hrun. split.
  - apply completes_results in Hrun as (ps & os & exts & Hc & Hperm).
    rewrite Hperm. apply outputs_NoDup; [eapply compiled_lengths, Hc | | exact Hw].
    apply compilePatterns_inv in Hc as (_ & -> & _). exact Hq.
  - intros repoPath root exts Hroot. now apply walkRepository_NoDup.
Qed.

Lemma each_match_reported_once_witness :
  NoDup [result_at "repos/r/a.go"; result_at "repos/r/b.go"].
Proof.
  apply (each_match_reported_once both_open go_queries
           [result_at "repos/r/a.go"; result_at "repos/r/b.go"]).
  - cbn [well_named repos both_open two_files map fst].
    repeat split; try (intros H; vm_compute in H; intuition discriminate);
      apply (bool_decide_unpack _); vm_compute; exact I.
  - apply (bool_decide_unpack _). vm_compute. exact I.
  - apply two_orders.
Defined.
End Once.

(** ** [main], from the flags to the report *)

Module Main.
Import Run.




End Main.

Module MainFacts.
Import Spec ProgramFacts Run RunFacts Main.


End MainFacts.

(** ** The order of the collected results *)

Module Order.
Import Spec ProgramFacts ScanClaims Run RunFacts RunClaims LineFacts PathFacts Once.

(** Of two results of the same file, the first is of the same line or of
    an earlier one. *)
Definition file_line_before (r r' : SearchResult) : Prop :=
  FilePath r = FilePath r' -> (LineNumber r <= LineNumber r')%Z.

(** The paths of the scans an action list starts. *)
Definition spawn_paths (acts : list action) : list gostring :=
  flat_map (fun a => match a with Spawn path _ => [path] | _ => [] end) acts.

Lemma StronglySorted_snoc {A} (R : A -> A -> Prop) l x :
  StronglySorted R l -> Forall (fun y => R y x) l -> StronglySorted R (l ++ [x]).
Proof.
  intros S F. apply StronglySorted_app_two; [exact S | repeat constructor|].
  intros a b Ha [<-|[]]. rewrite List.Forall_forall in F. now apply F.
Qed.

Section Invariant.
Variable w : World.
Variable ps : list Regexp.
Variable os : list gostring.

(** What is known of a running scan of the file [path], given what has
    been sent so far. *)
Definition scanning (sent : list SearchResult) (path : gostring)
           (sc : list SearchResult) : Prop :=
  Forall (fun r => FilePath r = path) sc
  /\ StronglySorted line_before sc
  /\ forall x r, In x sent -> FilePath x = path -> In r sc ->
                 (LineNumber x <= LineNumber r)%Z.

(** The collected and the buffered results are in order file by file;
    the running scans are of different files, which are not the files of
    the scans to come. *)
Definition Ord (s : state) : Prop :=
  StronglySorted file_line_before (results s ++ chan s)
  /\ (forall x, In x (results s ++ chan s) -> ~ In (FilePath x) (spawn_paths (walker s)))
  /\ exists owners,
       Forall2 (scanning (results s ++ chan s)) owners (scanners s)
       /\ NoDup (owners ++ spawn_paths (walker s)).

Lemma scanning_more sent sent' path sc :
  (forall x, In x sent' -> In x sent) -> scanning sent path sc -> scanning sent' path sc.
Proof. intros Hs (H1 & H2 & H3). repeat split; eauto. Qed.

Lemma scanFile_scanning path repo out :
  scanFile (Open w path) path ps os repo = Some out ->
  Forall (fun r => FilePath r = path) out /\ StronglySorted line_before out.
Proof.
  intros Hs. split.
  - destruct (Open w path) as [content|]; cbn [scanFile] in Hs.
    + apply List.Forall_forall. intros r Hr.
      now destruct (scanLines_elem _ _ _ _ _ _ _ _ Hs Hr) as (_ & _ & _ & Hf & _).
    + injection Hs as <-. constructor.
  - destruct (Open w path) as [content|]; cbn [scanFile] in Hs.
    + eapply scanLines_sorted, Hs.
    + injection Hs as <-. constructor.
Qed.

Lemma scanning_others sent r owners scs :
  Forall2 (scanning sent) owners scs -> ~ In (FilePath r) owners ->
  Forall2 (scanning (sent ++ [r])) owners scs.
Proof.
  induction 1 as [|q sc owners scs (H1 & H2 & H3) _ IH]; intros Hn; constructor.
  - repeat split; auto. intros x y [Hx|[<-|[]]]%in_app_or Hp Hy; [eauto|].
    exfalso. apply Hn. now left.
  - apply IH. intros H. apply Hn. now right.
Qed.

Lemma step_Ord s s' : Ord s -> step w ps os s s' -> Ord s'.
Proof.
  intros (Hs & Hw & owners & Ho & Hn) Hstep.
  destruct Hstep as [name rest n scs ch cl res fin lg
                    |path repo out rest n scs ch cl res fin lg Hscan
                    |name rest n scs ch cl res fin lg
                    |r out scs1 scs2 wk n ch cl res fin lg Hcap
                    |scs1 scs2 wk n ch cl res fin lg
                    |scs ch res fin lg
                    |r wk n scs ch cl res lg
                    |wk n scs res lg];
    unfold Ord in *; cbn [results chan scanners walker] in *.
  - (* enter *)
    split; [exact Hs|]. split; [exact Hw|]. exists owners. auto.
  - (* spawn *)
    cbn [spawn_paths flat_map app] in *. fold (spawn_paths rest) in *.
    destruct (scanFile_scanning _ _ _ Hscan) as [Hout Hsorted].
    split; [exact Hs|]. split.
    { intros x Hx Hin. apply (Hw x Hx). now right. }
    exists (owners ++ [path]). split.
    + apply Forall2_app; [exact Ho|]. constructor; [|constructor].
      split; [exact Hout|]. split; [exact Hsorted|].
      intros x r Hx Hp _. exfalso. apply (Hw x Hx). left. now symmetry.
    + now rewrite <- app_assoc.
  - (* leave *)
    split; [exact Hs|]. split; [exact Hw|]. exists owners. auto.
  - (* send *)
    apply Forall2_app_inv_r in Ho as (o1 & o2' & Ho1 & Ho2 & ->).
    apply Forall2_cons_inv_r in Ho2 as (p & o2 & (Hp & Hsorted & Hle) & Ho2 & ->).
    inversion Hp as [|? ? Hrp Hp']; subst.
    inversion Hsorted as [|? ? Hsorted' Hhead]; subst.
    assert (Hn' : NoDup (o1 ++ FilePath r :: o2)).
    { apply NoDup_app in Hn as (Hn & _). exact Hn. }
    rewrite !app_assoc. split; [|split].
    + apply StronglySorted_snoc; [exact Hs|].
      apply List.Forall_forall. intros x Hx Hpath.
      apply (Hle x r Hx Hpath). now left.
    + intros x [Hx|[<-|[]]]%in_app_or; [now apply Hw|].
      intros Hin. apply NoDup_app in Hn as (_ & Hd & _).
      apply (Hd (FilePath r)); [|now apply list_elem_of_In].
      apply list_elem_of_In, in_or_app. right. now left.
    + exists (o1 ++ FilePath r :: o2). split; [|exact Hn].
      apply NoDup_app in Hn' as (_ & Hd1 & [Hd2 _]%NoDup_cons).
      apply Forall2_app; [|constructor].
      * apply scanning_others; [exact Ho1|].
        intros Hin%list_elem_of_In. apply (Hd1 _ Hin). now left.
      * split; [exact Hp'|]. split; [exact Hsorted'|].
        intros x y [Hx|[<-|[]]]%in_app_or Hpath Hy.
        -- apply (Hle x y Hx Hpath). now right.
        -- rewrite List.Forall_forall in Hhead. now apply Hhead.
      * apply scanning_others; [exact Ho2|].
        intros Hin%list_elem_of_In. now apply Hd2.
  - (* done *)
    apply Forall2_app_inv_r in Ho as (o1 & o2' & Ho1 & Ho2 & ->).
    apply Forall2_cons_inv_r in Ho2 as (p & o2 & _ & Ho2 & ->).
    split; [exact Hs|]. split; [exact Hw|]. exists (o1 ++ o2). split.
    + now apply Forall2_app.
    + rewrite <- app_assoc in *. cbn [app] in Hn.
      apply NoDup_app in Hn as (H1 & H2 & [H3 H4]%NoDup_cons).
      apply NoDup_app. repeat split; auto.
      intros x Hx Hx'. apply (H2 x Hx). now right.
  - (* close *)
    split; [exact Hs|]. split; [exact Hw|]. exists owners. auto.
  - (* receive *)
    replace ((res ++ [r]) ++ ch) with (res ++ r :: ch) by now rewrite <- app_assoc.
    split; [exact Hs|]. split; [exact Hw|]. exists owners. auto.
  - (* finish *)
    split; [exact Hs|]. split; [exact Hw|]. exists owners. auto.
Qed.

Lemma steps_Ord s s' : Ord s -> steps w ps os s s' -> Ord s'.
Proof.
  intros Ho Hs. induction Hs as [|s1 s2 s3 Hs IH Hstep]; [assumption|].
  eapply step_Ord; [apply IH, Ho | exact Hstep].
Qed.

Lemma Ord_init prog :
  NoDup (spawn_paths prog) -> Ord (mkState prog 0 [] [] false [] false []).
Proof.
  intros Hn. unfold Ord. cbn [results chan scanners walker app]. split; [constructor|].
  split; [intros x []|]. exists []. split; [constructor | exact Hn].
Qed.
End Invariant.

Lemma spawn_paths_flat_map {A} (g : A -> list action) l :
  spawn_paths (flat_map g l) = flat_map (fun x => spawn_paths (g x)) l.
Proof.
  induction l as [|x l IH]; [reflexivity|]. cbn [flat_map]. rewrite <- IH.
  unfold spawn_paths. apply flat_map_app.
Qed.

Lemma spawn_paths_repoActions exts repo :
  spawn_paths (repoActions exts repo)
  = if IsDir (snd repo)
    then walkRepository (Join reposDir (fst repo)) (snd repo) exts
    else [].
Proof.
  unfold repoActions. destruct (IsDir (snd repo)); [|reflexivity].
  unfold spawn_paths. cbn [flat_map app]. rewrite flat_map_app. cbn [flat_map].
  rewrite app_nil_r.
  induction (walkRepository _ _ _) as [|p l IH]; [reflexivity|].
  cbn [map flat_map app]. now rewrite IH.
Qed.

Lemma spawn_paths_NoDup w exts :
  well_named (Dir (repos w)) -> NoDup (spawn_paths (walkerProgram w exts)).
Proof.
  intros [Hn Hf]%well_named_Dir. unfold walkerProgram.
  rewrite spawn_paths_flat_map.
  apply (NoDup_flat_map_keyed _ fst (under reposDir)).
  - exact Hn.
  - intros repo Hrepo.
    rewrite spawn_paths_repoActions. destruct (IsDir (snd repo)); [|constructor].
    apply walkRepository_NoDup. rewrite List.Forall_forall in Hf. apply (Hf _ Hrepo).
  - intros [name root] path Hrepo.
    rewrite spawn_paths_repoActions. cbn [fst snd]. destruct (IsDir root); [|intros []].
    rewrite List.Forall_forall in Hf. apply walk_under, (Hf _ Hrepo).
  - intros. eapply under_functional; eassumption.
Qed.

(** X19: the report keeps the lines of a file in order.  Whatever the
    schedule of the goroutines, of two results of the same file the one
    that [main] collects first is of the same line or of an earlier line:
    the results of different files may be interleaved, those of one file
    are not reordered.  (The file tree is as in a file system: no name
    twice in a directory, no separator in a name.) *)
Theorem file_results_stay_in_order (w : World) (queries : list Query)
        (res : list SearchResult) :
  well_named (Dir (repos w)) -> completes w queries res ->
  forall i j r r',
    i < j -> res !! i = Some r -> res !! j = Some r' ->
    FilePath r = FilePath r' -> (LineNumber r <= LineNumber r')%Z.
Proof.
  intros Hw (ps & os & exts & s & Hc & Hs & Hf & <-).
  pose proof (steps_Ord w ps os _ _ (Ord_init _ (spawn_paths_NoDup w exts Hw)) Hs)
    as (Hsorted & _).
  pose proof (steps_Inv w ps os _ _ _ (Inv_init w ps os _) Hs) as [_ _ _ Hfin _].
  destruct (Hfin Hf) as [_ Hch]. rewrite Hch, app_nil_r in Hsorted.
  revert Hsorted. generalize (results s). clear.
  induction 1 as [|x l S IH Hx]; intros i j r r' Hij Hi Hj; [destruct i; discriminate|].
  destruct j as [|j]; [lia|]. cbn in Hj. destruct i as [|i]; cbn in Hi.
  - injection Hi as <-. rewrite List.Forall_forall in Hx. apply Hx.
    eapply list_elem_of_In, list_elem_of_lookup_2, Hj.
  - apply (IH i j); [lia | assumption | assumption].
Qed.

(** One file with the pattern in its first and in its second line. *)
Definition two_lines : World :=
  {| repos := [(str "r", Dir [(str "a.go", File)])];
     Open := fun _ => Some (str "x" ++ [newline_byte] ++ str "x") |}.

Definition line_result (n : Z) : SearchResult :=
  {| FilePath := str "repos/r/a.go"; LineNumber := n; LineText := str "x";
     Repository := str "r";
     Match := {| MPattern := str "x"; StartIndex := 0; EndIndex := 1 |} |}.

Lemma file_results_stay_in_order_witness :
  (LineNumber (line_result 1) <= LineNumber (line_result 2))%Z.
Proof.
  assert (Hc : compilePatterns go_queries
               = Some ([wildcard_regexp (str "x")], [str "x"],
                       foldl add_extensions ∅ go_queries))
    by (apply compilePatterns_eval; vm_compute; reflexivity).
  pose proof (run_exists two_lines go_queries _ _ _ Hc) as Hrun.
  assert (Hw : well_named (Dir (repos two_lines))).
  { cbn [well_named repos two_lines map fst].
    repeat split; try (intros H; vm_compute in H; intuition discriminate);
      apply (bool_decide_unpack _); vm_compute; exact I. }
  apply (file_results_stay_in_order two_lines go_queries _ Hw Hrun 0 1).
  - lia.
  - vm_compute. reflexivity.
  - vm_compute. reflexivity.
  - reflexivity.
Defined.
End Order.

(** ** Patterns with a [*]: one span a line *)

Module StarFacts.
Import Utf8 Spec Utf8Facts MatchFacts LiteralFacts CompileFacts ProgramFacts MatcherClaims
       MatchOrder.

Lemma total_width_app a b : total_width (a ++ b) = total_width a + total_width b.
Proof.
  unfold total_width. induction a as [|x a IH]; cbn [app fold_right]; [reflexivity|].
  rewrite IH. lia.
Qed.

Lemma total_width_firstn_add : forall m k (i : list (Z * nat)),
  total_width (firstn (m + k) i)
  = total_width (firstn m i) + total_width (firstn k (skipn m i)).
Proof.
  induction m as [|m IH]; intros k i; [reflexivity|].
  destruct i as [|x i]; cbn [Nat.add firstn skipn].
  - now rewrite firstn_nil.
  - unfold total_width in *. cbn [fold_right]. rewrite IH. lia.
Qed.

(** The runes from a rune boundary on. *)
Lemma runes_skipn_boundary : forall m s,
  runes (skipn (total_width (firstn m (runes s))) s) = skipn m (runes s).
Proof.
  induction m as [|m IH]; intros s; [reflexivity|].
  destruct s as [|c t]; [reflexivity|].
  rewrite runes_cons. cbn [firstn skipn total_width fold_right].
  fold (total_width (firstn m (runes (skipn (snd (decode (c :: t))) (c :: t))))).
  rewrite <- IH. f_equal. now rewrite skipn_skipn, Nat.add_comm.
Qed.

Lemma one_line_skipn m input : one_line input -> one_line (skipn m input).
Proof.
  unfold one_line. intros H. apply List.Forall_forall. intros x Hx.
  rewrite List.Forall_forall in H. apply H. eapply In_skipn, Hx.
Qed.

(** A match spans whole runes. *)
Lemma match_here_runes re : forall input n,
  match_here re input = Some n ->
  exists m, m <= length input /\ n = total_width (firstn m input).
Proof.
  induction re as [|[a|a] re IH]; intros input n.
  - cbn. intros [= <-]. exists 0. split; [lia | reflexivity].
  - destruct input as [|[r w] input]; cbn [match_here]; [discriminate|].
    destruct (atom_matches a r); [|discriminate].
    destruct (match_here re input) as [k|] eqn:E; [|discriminate].
    intros [= <-]. destruct (IH _ _ E) as (m & Hm & ->).
    exists (S m). split; [cbn; lia | reflexivity].
  - revert n. induction input as [|[r w] input IHi]; intros n.
    + rewrite match_here_star_nil. apply IH.
    + rewrite match_here_star_cons. intros H.
      destruct (atom_matches a r); [|now apply IH].
      destruct (match_here (Star a :: re) input) as [k|] eqn:E; [|now apply IH].
      injection H as <-. destruct (IHi _ eq_refl) as (m & Hm & ->).
      exists (S m). split; [cbn; lia | reflexivity].
Qed.

(** Where a search finds its match. *)
Lemma search_found re : forall input off a b,
  search re input off = Some (a, b) ->
  exists m, m <= length input /\ a = off + total_width (firstn m input)
            /\ match_here re (skipn m input) = Some (b - a).
Proof.
  induction input as [|[r w] input IH]; intros off a b; cbn [search].
  - destruct (match_here re []) as [n|] eqn:E; [|discriminate].
    intros [= <- <-]. exists 0. cbn. rewrite E. repeat split; try lia.
    now replace (off + n - off) with n by lia.
  - destruct (match_here re ((r, w) :: input)) as [n|] eqn:E.
    + intros [= <- <-]. exists 0. cbn [firstn skipn total_width fold_right].
      rewrite E. repeat split; try lia.
      now replace (off + n - off) with n by lia.
    + intros H. destruct (IH _ _ _ H) as (m & Hm & Ha & Hb).
      exists (S m). cbn [length firstn skipn]. unfold total_width in *.
      cbn [fold_right snd]. repeat split; [lia | lia | exact Hb].
Qed.

Section Pivot.
(** The expression is [ones], then [.*], then [rest]. *)
Variable ones : list atom.
Variable rest : Regexp.

Definition pivoted : Regexp := map One ones ++ Star AnyCharNotNL :: rest.

(** [.*] fails only where [rest] matches nowhere. *)
Lemma star_none : forall input,
  one_line input -> match_here (Star AnyCharNotNL :: rest) input = None ->
  forall m, m <= length input -> match_here rest (skipn m input) = None.
Proof.
  induction 1 as [|[r w] input Hr Hl IH]; intros H m Hm.
  - rewrite match_here_star_nil in H. destruct m; [exact H | cbn in Hm; lia].
  - rewrite match_here_star_cons in H. cbn [atom_matches fst] in *.
    destruct (Z.eqb_spec r newline); [contradiction|]. cbn [negb] in H.
    destruct (match_here (Star AnyCharNotNL :: rest) input) eqn:E; [discriminate|].
    destruct m as [|m]; [exact H|]. cbn [skipn]. apply IH; [reflexivity | cbn in Hm; lia].
Qed.

(** [.*] stops before the last place where [rest] matches. *)
Lemma star_some : forall input n,
  one_line input -> match_here (Star AnyCharNotNL :: rest) input = Some n ->
  exists m k,
    m <= length input /\ match_here rest (skipn m input) = Some k
    /\ n = total_width (firstn m input) + k
    /\ forall m', m < m' -> m' <= length input -> match_here rest (skipn m' input) = None.
Proof.
  intros input n Hl. revert n. induction Hl as [|[r w] input Hr Hl IH]; intros n H.
  - rewrite match_here_star_nil in H. exists 0, n. cbn. repeat split; auto; lia.
  - rewrite match_here_star_cons in H. cbn [atom_matches fst] in *.
    destruct (Z.eqb_spec r newline); [contradiction|]. cbn [negb] in H.
    destruct (match_here (Star AnyCharNotNL :: rest) input) as [n'|] eqn:E.
    + injection H as <-. destruct (IH _ eq_refl) as (m & k & Hm & Hk & -> & Hlater).
      exists (S m), k. cbn [length skipn firstn]. unfold total_width in *.
      cbn [fold_right snd]. repeat split; [lia | exact Hk | lia|].
      intros [|m'] H1 H2; [lia|]. cbn [skipn]. apply Hlater; cbn in H2; lia.
    + exists 0, n. cbn [skipn firstn total_width fold_right]. repeat split; [cbn; lia | exact H|].
      intros [|m'] H1 H2; [lia|]. cbn [skipn].
      apply (star_none input Hl E). cbn in H2. lia.
Qed.

(** The runes the [ones] take. *)
Lemma ones_prefix re : forall input n,
  match_here (map One ones ++ re) input = Some n ->
  length ones <= length input
  /\ exists k, match_here re (skipn (length ones) input) = Some k
               /\ n = total_width (firstn (length ones) input) + k.
Proof.
  induction ones as [|a l IH]; intros input n.
  - cbn [map app length skipn firstn]. intros H. split; [lia|]. exists n. now split.
  - destruct input as [|[r w] input]; cbn [map app match_here]; [discriminate|].
    destruct (atom_matches a r); [|discriminate].
    fold (match_here (map One l ++ re) input).
    destruct (match_here (map One l ++ re) input) as [k|] eqn:E; [|discriminate].
    intros [= <-]. destruct (IH _ _ E) as (Hlen & k' & Hk & ->).
    split; [cbn; lia|]. exists k'. cbn [length skipn firstn]. unfold total_width in *.
    cbn [fold_right snd]. split; [exact Hk | lia].
Qed.

(** Where a match of the whole expression has [rest] match. *)
Lemma pivoted_match input n :
  one_line input -> match_here pivoted input = Some n ->
  exists m k,
    length ones <= m /\ m <= length input
    /\ match_here rest (skipn m input) = Some k
    /\ n = total_width (firstn m input) + k
    /\ forall m', m < m' -> m' <= length input -> match_here rest (skipn m' input) = None.
Proof.
  intros Hl H. unfold pivoted in H.
  destruct (ones_prefix _ _ _ H) as (Hlen & k1 & H1 & ->).
  destruct (star_some _ _ (one_line_skipn (length ones) _ Hl) H1)
    as (m & k & Hm & Hk & -> & Hlater).
  rewrite length_skipn in Hm. rewrite skipn_skipn in Hk.
  exists (m + length ones), k. repeat split; [lia | lia | exact Hk | |].
  - rewrite (Nat.add_comm m), total_width_firstn_add. lia.
  - intros m' H1' H2'.
    replace m' with ((m' - length ones) + length ones) by lia.
    rewrite <- skipn_skipn. apply Hlater; rewrite ?length_skipn; lia.
Qed.

(** After a match, [rest] matches at no later place, and where the
    match ended it matches with no rune or not at all. *)
Definition settled (after : list (Z * nat)) : Prop :=
  (forall m', 0 < m' -> m' <= length after -> match_here rest (skipn m' after) = None)
  /\ (match_here rest after = None \/ match_here rest after = Some 0).

Lemma settled_search after off :
  one_line after -> settled after ->
  search pivoted after off = None \/ search pivoted after off = Some (off, off).
Proof.
  intros Hl [Hlater Hhere].
  destruct (search pivoted after off) as [[a b]|] eqn:E; [right | now left].
  destruct (search_found _ _ _ _ _ E) as (m & Hm & -> & Hmatch).
  destruct (pivoted_match _ _ (one_line_skipn m _ Hl) Hmatch)
    as (m2 & k & H1 & H2 & Hk & Hn & _).
  rewrite length_skipn in H2. rewrite skipn_skipn in Hk.
  destruct (Nat.eq_dec (m2 + m) 0) as [Hz|Hnz].
  - rewrite Hz, skipn_O in Hk.
    assert (m = 0) by lia. assert (m2 = 0) by lia. subst m m2.
    rewrite ?skipn_O, ?firstn_O in *. change (total_width []) with 0 in *.
    destruct Hhere as [Hh|Hh]; rewrite Hh in Hk; [discriminate|].
    injection Hk as <-. apply search_bound in E. do 2 f_equal; lia.
  - rewrite Hlater in Hk by lia. discriminate.
Qed.

Lemma settled_tail_search x after off :
  one_line after -> settled (x :: after) -> search pivoted after off = None.
Proof.
  intros Hl [Hlater _].
  destruct (search pivoted after off) as [[a b]|] eqn:E; [exfalso | reflexivity].
  destruct (search_found _ _ _ _ _ E) as (m & Hm & -> & Hmatch).
  destruct (pivoted_match _ _ (one_line_skipn m _ Hl) Hmatch)
    as (m2 & k & H1 & H2 & Hk & Hn & _).
  rewrite length_skipn in H2. rewrite skipn_skipn in Hk.
  specialize (Hlater (S (m2 + m)) ltac:(lia) ltac:(cbn; lia)). cbn [skipn] in Hlater.
  congruence.
Qed.

Lemma first_match_settles input off a b :
  one_line input -> search pivoted input off = Some (a, b) ->
  exists M, M <= length input /\ b = off + total_width (firstn M input)
            /\ settled (skipn M input).
Proof.
  intros Hl E.
  destruct (search_found _ _ _ _ _ E) as (m & Hm & -> & Hmatch).
  destruct (pivoted_match _ _ (one_line_skipn m _ Hl) Hmatch)
    as (m2 & k & H1 & H2 & Hk & Hn & Hlater).
  rewrite length_skipn in H2.
  destruct (match_here_runes _ _ _ Hk) as (mk & Hmk & ->).
  rewrite length_skipn, length_skipn in Hmk.
  exists (m + (m2 + mk)). split; [lia|]. split.
  - apply search_bound in E. rewrite !total_width_firstn_add. lia.
  - replace (skipn (m + (m2 + mk)) input) with (skipn mk (skipn m2 (skipn m input)))
      by (rewrite !skipn_skipn; f_equal; lia).
    set (j := skipn m input) in *.
    assert (Hj : length j = length input - m) by (subst j; apply length_skipn).
    split.
    + intros m' H1' H2'. rewrite !skipn_skipn.
      apply Hlater; [lia|]. rewrite !length_skipn in H2'. lia.
    + destruct mk as [|mk].
      * right. rewrite skipn_O. rewrite firstn_O in Hk. exact Hk.
      * left. rewrite skipn_skipn. apply Hlater; lia.
Qed.
End Pivot.

(** *** The loop of [allMatches] after the first match *)

Lemma doExecute_at re line pos :
  doExecute re line (Z.of_nat pos)
  = match search re (runes (skipn pos line)) pos with
    | Some (a, b) => Some (Z.of_nat a, Z.of_nat b)
    | None => None
    end.
Proof. unfold doExecute, slice_from. now rewrite Nat2Z.id. Qed.

Lemma slice_to_end line pos :
  pos <= length line -> slice line (Z.of_nat pos) (len line) = skipn pos line.
Proof.
  intros H. unfold slice, len. rewrite Nat2Z.id.
  apply firstn_all2. rewrite length_skipn. lia.
Qed.

Lemma one_line_suffix line pos :
  ~ In newline_byte line -> one_line (runes (skipn pos line)).
Proof. intros H. apply runes_one_line. intros H'%In_skipn. auto. Qed.

(** After an empty match where the expression is settled, the loop finds
    nothing more. *)
Lemma loop_after_settled ones rest line pos k prev :
  ~ In newline_byte line -> pos <= length line ->
  settled rest (runes (skipn pos line)) ->
  allMatches_loop (pivoted ones rest) line k
    (if (0 <? Z.of_nat (snd (DecodeRuneInString (slice line (Z.of_nat pos) (len line)))))%Z
     then (Z.of_nat pos
           + Z.of_nat (snd (DecodeRuneInString (slice line (Z.of_nat pos) (len line)))))%Z
     else (len line + 1)%Z)
    prev
  = [].
Proof.
  intros Hn Hp Hs. rewrite slice_to_end by exact Hp.
  pose proof (one_line_suffix line pos Hn) as Hl.
  destruct (skipn pos line) as [|c t] eqn:Es.
  - change (DecodeRuneInString []) with (RuneError, 0). cbn [snd].
    change (0 <? Z.of_nat 0)%Z with false. cbv iota. apply allMatches_loop_past. lia.
  - rewrite Decode_eq_spec. pose proof (decode_width c t) as W.
    destruct (Z.ltb_spec 0 (Z.of_nat (snd (decode (c :: t))))); [|lia].
    destruct k as [|k]; [reflexivity|]. cbn [allMatches_loop].
    destruct (Z.leb_spec (Z.of_nat pos + Z.of_nat (snd (decode (c :: t)))) (len line));
      [|reflexivity].
    rewrite <- Nat2Z.inj_add, doExecute_at.
    rewrite (Nat.add_comm pos), <- skipn_skipn, Es.
    rewrite runes_cons in Hs, Hl.
    rewrite (settled_tail_search ones rest _ _ _ (List.Forall_inv_tail Hl) Hs).
    reflexivity.
Qed.

(** After a match that is not empty, likewise. *)
Lemma loop_settled ones rest line pos k :
  ~ In newline_byte line -> pos <= length line ->
  settled rest (runes (skipn pos line)) ->
  allMatches_loop (pivoted ones rest) line k (Z.of_nat pos) (Z.of_nat pos) = [].
Proof.
  intros Hn Hp Hs. destruct k as [|k]; [reflexivity|]. cbn [allMatches_loop].
  destruct (Z.leb_spec (Z.of_nat pos) (len line)); [|reflexivity].
  rewrite doExecute_at.
  destruct (settled_search ones rest _ pos (one_line_suffix line pos Hn) Hs) as [E|E];
    rewrite E; [reflexivity|].
  rewrite Z.eqb_refl. cbn [negb app].
  now apply loop_after_settled.
Qed.

Lemma pivoted_one_match ones rest line :
  ~ In newline_byte line ->
  length (FindAllStringSubmatchIndex (pivoted ones rest) line (-1)) <= 1.
Proof.
  intros Hn. unfold FindAllStringSubmatchIndex. change (-1 <? 0)%Z with true. cbv iota.
  replace (Z.to_nat (len line + 1)) with (S (length line)) by (unfold len; lia).
  cbn [allMatches_loop].
  destruct (Z.leb_spec 0 (len line)); [|cbn; lia].
  change 0%Z with (Z.of_nat 0) at 1. rewrite doExecute_at, skipn_O.
  destruct (search (pivoted ones rest) (runes line) 0) as [[a b]|] eqn:E; [|cbn; lia].
  destruct (first_match_settles ones rest _ _ _ _ (runes_one_line line Hn) E)
    as (M & HM & Hb & Hs).
  cbn [Nat.add] in Hb. rewrite <- runes_skipn_boundary, <- Hb in Hs.
  assert (Hble : b <= length line).
  { apply search_bound in E. rewrite total_width_runes in E. lia. }
  destruct (Z.eqb_spec (Z.of_nat b) 0) as [Hz|Hnz].
  - assert (H0 : b = 0) by lia. clear Hb. subst b.
    rewrite (loop_after_settled ones rest line 0 _ _ Hn ltac:(lia) Hs), app_nil_r.
    destruct (negb _); cbn; lia.
  - rewrite (loop_settled ones rest line b _ Hn Hble Hs). cbn. lia.
Qed.

(** *** Compiled patterns with a [*] *)

Definition wildcard_shape (it : item) : Prop :=
  it = Star AnyCharNotNL \/ exists a, it = One a.

Lemma wildcard_regexp_shape p : Forall wildcard_shape (wildcard_regexp p).
Proof.
  unfold wildcard_regexp. apply List.Forall_forall.
  intros it (rw & <- & _)%in_map_iff. unfold wildcard_item, wildcard_shape.
  destruct (fst rw =? rune_of "*")%Z; [now left|].
  destruct (fst rw =? rune_of "?")%Z; right; eauto.
Qed.

Lemma split_at_star re :
  Forall wildcard_shape re -> In (Star AnyCharNotNL) re ->
  exists ones rest, re = pivoted ones rest.
Proof.
  induction 1 as [|it re [->|[a ->]] _ IH]; intros Hin; [destruct Hin| |].
  - exists [], re. reflexivity.
  - destruct Hin as [[=]|Hin]. destruct (IH Hin) as (ones & rest & ->).
    exists (a :: ones), rest. reflexivity.
Qed.

Lemma wildcard_regexp_star p :
  In star_byte p -> In (Star AnyCharNotNL) (wildcard_regexp p).
Proof.
  induction p as [|c t IH] using rune_ind; [intros []|]. intros Hin.
  rewrite wildcard_regexp_cons.
  destruct (decide (c = star_byte)) as [->|Hc].
  - left. rewrite decode_ascii by (vm_compute; reflexivity). reflexivity.
  - right. apply IH. destruct Hin as [?|Hin]; [congruence|].
    pose proof (decode_width c t) as W. pose proof (decode_tail c t) as T.
    destruct (snd (decode (c :: t))) as [|w]; [lia|]. cbn [skipn Nat.pred] in *.
    rewrite <- (firstn_skipn w t) in Hin. apply in_app_or in Hin as [Hin|Hin]; [|exact Hin].
    rewrite List.Forall_forall in T. apply T in Hin.
    change (b2z star_byte) with 42%Z in Hin. lia.
Qed.

(** X21: a pattern with a [*] reports at most one span for a line.
    The [.*] it compiles to runs on to the last place of the line where
    the rest of the pattern matches, so that after the first match nothing
    of the line is left for a second one. *)
Theorem star_pattern_one_span (pattern line original : gostring) (re : Regexp) :
  compilePattern pattern = Some re -> In "*"%byte pattern ->
  ~ In newline_byte line ->
  length (findMatchPositions line re original) <= 1.
Proof.
  intros [_ ->]%compilePattern_Some Hstar Hn.
  destruct (split_at_star _ (wildcard_regexp_shape pattern)
                          (wildcard_regexp_star pattern Hstar)) as (ones & rest & ->).
  rewrite findMatchPositions_map, length_map. now apply pivoted_one_match.
Qed.

Lemma star_pattern_one_span_witness :
  length (findMatchPositions (str "a b a b") (wildcard_regexp (str "a*b")) (str "a*b"))
  <= 1.
Proof.
  apply (star_pattern_one_span (str "a*b")).
  - vm_compute. reflexivity.
  - vm_compute. intuition discriminate.
  - vm_compute. intuition discriminate.
Defined.

(** *** A pattern of nothing but [*] *)





End StarFacts.

(** ** Spans and characters *)

Module Boundaries.
Import Utf8 Spec Utf8Facts MatchFacts LiteralFacts CompileFacts ProgramFacts MatcherClaims
       MatchOrder StarFacts.

(** The byte offset at which the [k]-th character of a line begins (its
    end, for [k] the number of characters). *)
Definition offset_of (line : gostring) (k : nat) : nat :=
  total_width (firstn k (runes line)).

(** [pos] is where a character of the line begins, or the end of the
    line. *)
Definition boundary (line : gostring) (pos : nat) : Prop :=
  exists k, k <= length (runes line) /\ pos = offset_of line k.

Lemma offset_of_le line k : k <= length (runes line) -> k <= offset_of line k.
Proof.
  unfold offset_of. pose proof (wide_runes line) as Hw. revert k Hw.
  induction (runes line) as [|[r w] i IH]; intros k Hw Hk.
  - cbn in Hk. assert (k = 0) by lia. subst. cbn. lia.
  - destruct k as [|k]; [lia|]. inversion Hw as [|? ? H1 H2]; subst.
    cbn [firstn]. unfold total_width in *. cbn [fold_right snd] in *.
    specialize (IH k H2 ltac:(cbn in Hk; lia)). lia.
Qed.

Lemma offset_of_bound line k : offset_of line k <= length line.
Proof.
  unfold offset_of. rewrite <- (total_width_runes line).
  rewrite <- (firstn_skipn k (runes line)) at 2. rewrite total_width_app. lia.
Qed.

Lemma search_boundary re line k a b :
  k <= length (runes line) ->
  search re (runes (skipn (offset_of line k) line)) (offset_of line k) = Some (a, b) ->
  exists ka kb, k <= ka /\ ka <= kb /\ kb <= length (runes line)
                /\ a = offset_of line ka /\ b = offset_of line kb.
Proof.
  intros Hk E. unfold offset_of in E. rewrite runes_skipn_boundary in E.
  pose proof (search_bound _ _ _ _ _ E) as (_ & Hab & _).
  destruct (search_found _ _ _ _ _ E) as (m & Hm & Ha & Hmatch).
  destruct (match_here_runes _ _ _ Hmatch) as (mk & Hmk & Hb).
  rewrite !length_skipn in *.
  rewrite skipn_skipn, (Nat.add_comm m k) in Hb.
  exists (k + m), (k + m + mk). unfold offset_of.
  rewrite (total_width_firstn_add (k + m) mk), (total_width_firstn_add k m).
  repeat split; lia.
Qed.

Lemma allMatches_loop_boundary re line : forall k pos prev m,
  boundary line pos ->
  In m (allMatches_loop re line k (Z.of_nat pos) prev) ->
  exists ka kb, ka <= kb /\ kb <= length (runes line)
                /\ m = [Z.of_nat (offset_of line ka); Z.of_nat (offset_of line kb)].
Proof.
  induction k as [|k IH]; intros pos prev m (kp & Hkp & ->); cbn [allMatches_loop];
    [intros []|].
  destruct (Z.leb_spec (Z.of_nat (offset_of line kp)) (len line)); [|intros []].
  rewrite doExecute_at.
  destruct (search re _ _) as [[a b]|] eqn:E; [|intros []].
  destruct (search_boundary _ _ _ _ _ Hkp E) as (ka & kb & H1 & H2 & H3 & -> & ->).
  assert (Hm : exists ka' kb', ka' <= kb' /\ kb' <= length (runes line)
                 /\ [Z.of_nat (offset_of line ka); Z.of_nat (offset_of line kb)]
                    = [Z.of_nat (offset_of line ka'); Z.of_nat (offset_of line kb')])
    by (exists ka, kb; auto).
  destruct (Z.eqb_spec (Z.of_nat (offset_of line kb)) (Z.of_nat (offset_of line kp))).
  - intros [Hin|Hin]%in_app_or.
    + destruct (negb _); [|destruct Hin]. destruct Hin as [<-|[]]. exact Hm.
    + rewrite slice_to_end in Hin by apply offset_of_bound.
      destruct (skipn (offset_of line kp) line) as [|c t] eqn:Es.
      * change (DecodeRuneInString []) with (RuneError, 0) in Hin. cbn [snd] in Hin.
        change (0 <? Z.of_nat 0)%Z with false in Hin. cbv iota in Hin.
        rewrite allMatches_loop_past in Hin by lia. destruct Hin.
      * rewrite Decode_eq_spec in Hin. pose proof (decode_width c t) as W.
        destruct (Z.ltb_spec 0 (Z.of_nat (snd (decode (c :: t))))); [|lia].
        rewrite <- Nat2Z.inj_add in Hin. eapply IH; [|exact Hin].
        assert (Hr : skipn kp (runes line)
                     = decode (c :: t) :: runes (skipn (snd (decode (c :: t))) (c :: t))).
        { unfold offset_of in Es. now rewrite <- runes_skipn_boundary, Es, runes_cons. }
        exists (S kp). split.
        -- apply (f_equal (@length _)) in Hr. rewrite length_skipn in Hr. cbn in Hr. lia.
        -- unfold offset_of. rewrite <- (Nat.add_1_r kp), total_width_firstn_add, Hr.
           cbn [firstn]. rewrite firstn_O. unfold total_width. cbn [fold_right snd]. lia.
  - intros [<-|Hin]; [exact Hm|]. eapply IH; [|exact Hin]. now exists kb.
Qed.

(** X22: the indices of a span are byte offsets, and they fall
    between characters: the span begins where some character of the line
    begins and ends where one ends (an invalid byte counts as a character
    of its own).  The start index is the number of bytes before the span,
    which is the number of characters before it only when these are all
    single bytes. *)
Theorem spans_between_characters (line : gostring) (re : Regexp)
        (original : gostring) (m : MatchInfo) :
  In m (findMatchPositions line re original) ->
  exists ka kb,
    ka <= kb /\ kb <= length (runes line)
    /\ StartIndex m = Z.of_nat (offset_of line ka)
    /\ EndIndex m = Z.of_nat (offset_of line kb)
    /\ ka <= offset_of line ka /\ kb <= offset_of line kb.
Proof.
  rewrite findMatchPositions_map. intros (x & <- & Hin)%in_map_iff.
  unfold FindAllStringSubmatchIndex in Hin. change (-1 <? 0)%Z with true in Hin.
  cbv iota in Hin. change 0%Z with (Z.of_nat 0) in Hin.
  apply allMatches_loop_boundary in Hin as (ka & kb & H1 & H2 & ->).
  - exists ka, kb. cbn. repeat split; auto; apply offset_of_le; lia.
  - exists 0. split; [lia | reflexivity].
Qed.

(** A line that begins with a character of two bytes: the [x] is its
    third character and begins at byte 3. *)
Lemma spans_between_characters_witness :
  exists ka kb,
    ka <= kb /\ kb <= length (runes [xc3; xa9; "="%byte; "x"%byte])
    /\ 3%Z = Z.of_nat (offset_of [xc3; xa9; "="%byte; "x"%byte] ka)
    /\ 4%Z = Z.of_nat (offset_of [xc3; xa9; "="%byte; "x"%byte] kb)
    /\ ka <= offset_of [xc3; xa9; "="%byte; "x"%byte] ka
    /\ kb <= offset_of [xc3; xa9; "="%byte; "x"%byte] kb.
Proof.
  apply (spans_between_characters [xc3; xa9; "="%byte; "x"%byte] [One (Lit 120)] (str "x")
           {| MPattern := str "x"; StartIndex := 3; EndIndex := 4 |}).
  vm_compute. left. reflexivity.
Defined.
End Boundaries.

(** ** The lines of the report *)

Module ReportLines.
Import Csv LineFacts.

Lemma count_newlines_quoted field : count_newlines (quoted field) = count_newlines field.
Proof.
  induction field as [|x field IH]; [reflexivity|].
  cbn [quoted]. change UseCRLF with false. cbv iota.
  rewrite count_newlines_app, IH. cbn [count_newlines]. f_equal.
  destruct (decide (x = quote_byte)) as [->|_]; [reflexivity|].
  destruct (decide (x = cr_byte)) as [->|_]; [reflexivity|].
  destruct (decide (x = newline_byte)) as [->|Hx]; [reflexivity|].
  cbn [count_newlines]. destruct (decide (x = newline_byte)); [contradiction | reflexivity].
Qed.

Lemma count_newlines_writeField field :
  count_newlines (writeField field) = count_newlines field.
Proof.
  unfold writeField. destruct (fieldNeedsQuotes field); [|reflexivity].
  change (quote_byte :: quoted field ++ [quote_byte])
    with ([quote_byte] ++ quoted field ++ [quote_byte]).
  rewrite !count_newlines_app, count_newlines_quoted.
  replace (count_newlines [quote_byte]) with 0 by (vm_compute; reflexivity). lia.
Qed.

Lemma count_newlines_writeFields : forall record n,
  count_newlines (writeFields n record) = list_sum (map count_newlines record).
Proof.
  induction record as [|f record IH]; intros n; [reflexivity|].
  cbn [writeFields map]. rewrite !count_newlines_app, count_newlines_writeField, IH.
  rewrite Progress.list_sum_cons_eq.
  replace (count_newlines (if (0 <? n)%nat then [Comma] else [])) with 0
    by (destruct (0 <? n)%nat; vm_compute; reflexivity).
  lia.
Qed.

Lemma count_newlines_Write record :
  count_newlines (Write record) = list_sum (map count_newlines record) + 1.
Proof.
  unfold Write. change UseCRLF with false. cbv iota.
  rewrite count_newlines_app, count_newlines_writeFields.
  replace (count_newlines [newline_byte]) with 1 by (vm_compute; reflexivity). reflexivity.
Qed.

Lemma count_newlines_uint u :
  count_newlines (str (NilZero.string_of_uint u)) = 0.
Proof.
  assert (H : forall u, count_newlines (str (NilEmpty.string_of_uint u)) = 0).
  { clear. induction u; cbn; first [reflexivity | exact IHu]. }
  destruct u; cbn; first [reflexivity | apply H].
Qed.

Lemma count_newlines_Sprintf_d n : count_newlines (Sprintf_d n) = 0.
Proof.
  unfold Sprintf_d. destruct (Z.to_int n) as [u|u]; cbn [NilZero.string_of_int].
  - apply count_newlines_uint.
  - change (str (String ?a (NilZero.string_of_uint u)))
      with ([Ascii.byte_of_ascii a] ++ str (NilZero.string_of_uint u)).
    rewrite count_newlines_app, count_newlines_uint. vm_compute. reflexivity.
Qed.

(** The newlines in the texts of a result. *)
Definition text_newlines (r : SearchResult) : nat :=
  count_newlines (FilePath r) + count_newlines (LineText r)
  + count_newlines (Repository r) + count_newlines (MPattern (Match r)).

Lemma count_newlines_rows results :
  count_newlines (flat_map (fun r => Write (record_of r)) results)
  = length results + list_sum (map text_newlines results).
Proof.
  induction results as [|r results IH]; [reflexivity|].
  cbn [flat_map map length]. rewrite count_newlines_app, count_newlines_Write, IH.
  rewrite Progress.list_sum_cons_eq. unfold record_of, text_newlines. cbn [map].
  rewrite !Progress.list_sum_cons_eq, !count_newlines_Sprintf_d.
  change (list_sum []) with 0. lia.
Qed.

(** X23: the report has a header line and a line for each result: the
    number of newlines in the file that [writeResults] writes is one more
    than the number of results, plus the newlines that the paths, line
    texts, repository names and patterns themselves hold (these are
    written inside quotes).  Results of a scan have none in their line
    texts. *)
Theorem report_has_a_line_per_result (results : list SearchResult) :
  count_newlines (report_bytes results)
  = S (length results) + list_sum (map text_newlines results)
  /\ ((forall r, In r results -> text_newlines r = 0) ->
      count_newlines (report_bytes results) = S (length results)).
Proof.
  assert (H : count_newlines (report_bytes results)
              = S (length results) + list_sum (map text_newlines results)).
  { unfold report_bytes. rewrite count_newlines_app, count_newlines_rows.
    rewrite count_newlines_Write.
    replace (list_sum (map count_newlines header)) with 0 by (vm_compute; reflexivity).
    lia. }
  split; [exact H|]. intros Hz. rewrite H.
  assert (E : list_sum (map text_newlines results) = 0).
  { clear H. induction results as [|r results IH]; [reflexivity|].
    cbn [map]. rewrite Progress.list_sum_cons_eq, (Hz r) by now left.
    rewrite IH; [reflexivity|]. intros r' Hr'. apply Hz. now right. }
  lia.
Qed.
End ReportLines.
